(** * Sparse matrices stored as a dictionary of dictionaries

    A shallow embedding of [codes_sparsematrix.py] (class [SparseMatrix])
    and the verification of its arithmetic and of its text format.

    Python integers are unbounded, so they are [Z]; [int] and [str] convert
    at most 4300 digits, the limit of the interpreter when nothing changes
    it, and raise [ValueError] beyond.  A Python [dict] keeps
    its keys in insertion order and [__str__] iterates in that order, so a
    dictionary is an association list in insertion order.  A Python [str] is
    a list of characters; the characters modelled are the code points below
    256 (the type [ascii]). *)

From Stdlib Require Import ZArith List Ascii String Lia Bool.
From Stdlib Require Import DecimalString DecimalPos DecimalZ.
From stdpp Require Import base tactics option list.

Import ListNotations.
Local Open Scope Z_scope.

(** ** Exceptions *)

(** The two exception classes this module can meet.  The message of an
    exception raised by the interpreter itself is shortened to its fixed
    part. *)
Inductive exn : Type :=
  | IndexError (msg : string)
  | ValueError (msg : string).

Inductive result (A : Type) : Type :=
  | Ok (a : A)
  | Raise (e : exn).
Arguments Ok {A} a.
Arguments Raise {A} e.

#[global] Instance result_bind : MBind result := fun A B k m =>
  match m with
  | Ok a => k a
  | Raise e => Raise e
  end.

(** A [for] statement whose body updates the loop state. *)
Definition for_each {A S : Type} (xs : list A) (body : A -> S -> S) (s : S) : S :=
  fold_left (fun s x => body x s) xs s.

(** [range(n)]: empty when [n <= 0]. *)
Definition range (n : Z) : list Z := Z.of_nat <$> seq 0 (Z.to_nat n).

(** ** Dictionaries with integer keys, in insertion order *)

Module Dict.
Section Dict.
Context {V : Type}.

Definition t : Type := list (Z * V).

Definition empty : t := [].

(** [d.get(k)], [None] when the key is absent. *)
Fixpoint get (k : Z) (d : t) : option V :=
  match d with
  | [] => None
  | (k', v) :: d' => if k' =? k then Some v else get k d'
  end.

(** [d.get(k, default)]. *)
Definition get_default (k : Z) (default : V) (d : t) : V :=
  match get k d with
  | Some v => v
  | None => default
  end.

(** [k in d]. *)
Definition mem (k : Z) (d : t) : bool :=
  match get k d with
  | Some _ => true
  | None => false
  end.

(** [d[k] = v]: an existing key keeps its place, a new key goes last. *)
Fixpoint set (k : Z) (v : V) (d : t) : t :=
  match d with
  | [] => [(k, v)]
  | (k', v') :: d' =>
      if k' =? k then (k', v) :: d' else (k', v') :: set k v d'
  end.

(** The keys in iteration order, what [for k in d] goes through. *)
Definition keys (d : t) : list Z := fst <$> d.

(** A dictionary holds each key once. *)
Definition wf (d : t) : Prop := NoDup (keys d).
End Dict.
Arguments t : clear implicits.
End Dict.

(** ** The class [SparseMatrix] *)

Record SparseMatrix : Type := mkSparseMatrix {
  rows : Z;
  cols : Z;
  data : Dict.t (Dict.t Z)
}.

(** [__init__]: [SparseMatrix(rows, cols)] *)
Definition __init__ (rows cols : Z) : SparseMatrix :=
  {| rows := rows; cols := cols; data := Dict.empty |}.

(** [self.data[row]] for a [row] that iteration over [self.data] yielded:
    the key is present and the subscript raises no [KeyError]. *)
Definition row_of (self : SparseMatrix) (row : Z) : Dict.t Z :=
  Dict.get_default row Dict.empty (data self).

(** [get_element] *)
Definition get_element (self : SparseMatrix) (row col : Z) : Z :=
  Dict.get_default col 0 (Dict.get_default row Dict.empty (data self)).

(** [set_element] *)
Definition set_element (self : SparseMatrix) (row col value : Z) : SparseMatrix :=
  let data1 :=
    if negb (Dict.mem row (data self))
    then Dict.set row Dict.empty (data self)
    else data self in
  let data2 :=
    Dict.set row (Dict.set col value (Dict.get_default row Dict.empty data1)) data1 in
  {| rows := rows self; cols := cols self; data := data2 |}.

Definition msg_add : string :=
  "Matrices must have the same dimensions for addition to perform".
Definition msg_subtract : string :=
  "Matrices must have the same dimensions for subtraction to perform".
Definition msg_multiply : string :=
  "Number of columns in the first matrix must be equal to the number of rows in the second matrix for multiplication to perform".
Definition msg_format : string := "Input file has wrong format".

(** The spec's names for the failures. *)
Definition FormatError : exn := ValueError msg_format.
Definition DimensionMismatch (e : exn) : Prop :=
  e = ValueError msg_add \/ e = ValueError msg_subtract \/ e = ValueError msg_multiply.

(** [add] *)
Definition add (self matrix : SparseMatrix) : result SparseMatrix :=
  if negb (rows self =? rows matrix) || negb (cols self =? cols matrix)
  then Raise (ValueError msg_add)
  else
    let result := __init__ (rows self) (cols self) in
    let result :=
      for_each (Dict.keys (data self)) (fun row =>
        for_each (Dict.keys (row_of self row)) (fun col result =>
          set_element result row col (get_element self row col))) result in
    let result :=
      for_each (Dict.keys (data matrix)) (fun row =>
        for_each (Dict.keys (row_of matrix row)) (fun col result =>
          set_element result row col
            (get_element result row col + get_element matrix row col))) result in
    Ok result.

(** [subtract] *)
Definition subtract (self matrix : SparseMatrix) : result SparseMatrix :=
  if negb (rows self =? rows matrix) || negb (cols self =? cols matrix)
  then Raise (ValueError msg_subtract)
  else
    let result := __init__ (rows self) (cols self) in
    let result :=
      for_each (Dict.keys (data self)) (fun row =>
        for_each (Dict.keys (row_of self row)) (fun col result =>
          set_element result row col (get_element self row col))) result in
    let result :=
      for_each (Dict.keys (data matrix)) (fun row =>
        for_each (Dict.keys (row_of matrix row)) (fun col result =>
          set_element result row col
            (get_element result row col - get_element matrix row col))) result in
    Ok result.

(** [multiply] *)
Definition multiply (self matrix : SparseMatrix) : result SparseMatrix :=
  if negb (cols self =? rows matrix)
  then Raise (ValueError msg_multiply)
  else
    let result := __init__ (rows self) (cols matrix) in
    let result :=
      for_each (Dict.keys (data self)) (fun row =>
        for_each (range (cols matrix)) (fun col result =>
          let sum_product :=
            for_each (range (cols self)) (fun k sum_product =>
              sum_product + get_element self row k * get_element matrix k col) 0 in
          if negb (sum_product =? 0)
          then set_element result row col sum_product
          else result)) result in
    Ok result.

(** ** Stored entries *)

(** The value stored under the key [(row, col)], if any. *)
Definition entry (m : SparseMatrix) (row col : Z) : option Z :=
  match Dict.get row (data m) with
  | Some d => Dict.get col d
  | None => None
  end.

(** The stored keys, in the order the nested loops over [data] visit them. *)
Definition stored_keys (m : SparseMatrix) : list (Z * Z) :=
  row ← Dict.keys (data m); pair row <$> Dict.keys (row_of m row).

(** The sum of [f 0 .. f (n-1)]. *)
Fixpoint sum_below (n : nat) (f : Z -> Z) : Z :=
  match n with
  | O => 0
  | S n' => sum_below n' f + f (Z.of_nat n')
  end.

(** The dot product of row [i] of [A] and column [j] of [B], over
    [k] in [0 .. cols A]. *)
Definition dot_product (A B : SparseMatrix) (i j : Z) : Z :=
  sum_below (Z.to_nat (cols A)) (fun k => get_element A i k * get_element B k j).

(** Every dictionary of the matrix holds each of its keys once. *)
Definition wf (m : SparseMatrix) : Prop :=
  Dict.wf (data m) /\ Forall (fun rd => Dict.wf (snd rd)) (data m).

(** ** Strings *)

Definition str : Type := list ascii.

(** A string literal. *)
Definition lit (s : string) : str := list_ascii_of_string s.

Definition LF : ascii := ascii_of_N 10.
Definition CR : ascii := ascii_of_N 13.

Definition code_in (c : ascii) (lo hi : N) : bool :=
  ((lo <=? N_of_ascii c) && (N_of_ascii c <=? hi))%N.

(** [c.isspace()], the characters [str.strip()] removes: among the code
    points below 256 these are 9-13, 28-32, 133 and 160. *)
Definition isspace (c : ascii) : bool :=
  code_in c 9 13 || code_in c 28 32 || code_in c 133 133 || code_in c 160 160.

(** The white space [int()] skips around a literal: 9-13 and 32, and 133
    and 160 which it first turns into a blank; 28-31 are not skipped. *)
Definition int_space (c : ascii) : bool :=
  code_in c 9 13 || code_in c 32 32 || code_in c 133 133 || code_in c 160 160.

Fixpoint drop_while (p : ascii -> bool) (s : str) : str :=
  match s with
  | [] => []
  | c :: s' => if p c then drop_while p s' else s
  end.

Definition trim (p : ascii -> bool) (s : str) : str :=
  rev (drop_while p (rev (drop_while p s))).

(** [s.strip()] *)
Definition strip (s : str) : str := trim isspace s.

(** [s.split(sep)] for a separator of one character: never an empty list. *)
Fixpoint split (sep : ascii) (s : str) : list str :=
  match s with
  | [] => [[]]
  | c :: s' =>
      if Ascii.eqb c sep then [] :: split sep s'
      else match split sep s' with
           | t :: ts => (c :: t) :: ts
           | [] => [[c]]
           end
  end.

(** A slice bound brought into [0 .. len], counting from the end when
    negative. *)
Definition slice_bound (i len : Z) : Z :=
  if i <? 0 then Z.max 0 (i + len) else Z.min i len.

(** [s[start:stop]] *)
Definition slice (start stop : Z) (s : str) : str :=
  let len := Z.of_nat (length s) in
  let lo := slice_bound start len in
  let hi := slice_bound stop len in
  firstn (Z.to_nat (hi - lo)) (skipn (Z.to_nat lo) s).

(** [l[i]] for a list and an index [i >= 0]. *)
Definition index {A : Type} (l : list A) (i : nat) : result A :=
  match nth_error l i with
  | Some x => Ok x
  | None => Raise (IndexError "list index out of range")
  end.

Definition digit_value (c : ascii) : option Z :=
  if code_in c 48 57 then Some (Z.of_N (N_of_ascii c) - 48) else None.

(** The digits of a decimal literal, most significant first; one underscore
    is allowed between two digits. *)
Fixpoint int_digits (acc : Z) (after_digit : bool) (s : str) : option Z :=
  match s with
  | [] => if after_digit then Some acc else None
  | c :: s' =>
      match digit_value c with
      | Some d => int_digits (10 * acc + d) true s'
      | None =>
          if Ascii.eqb c "_" && after_digit then int_digits acc false s' else None
      end
  end.

(** The digits and underscores a literal starts with: the number of its
    digits, [None] when an underscore stands first, last or after another
    one.  At the start an underscore is refused like one after another. *)
Fixpoint scan_digits (n : nat) (after_underscore : bool) (s : str) : option nat :=
  match s with
  | [] => if after_underscore then None else Some n
  | c :: s' =>
      match digit_value c with
      | Some _ => scan_digits (S n) false s'
      | None =>
          if Ascii.eqb c "_" then
            if after_underscore then None else scan_digits n true s'
          else if after_underscore then None else Some n
      end
  end.

(** The most digits [int] and [str] convert, as the interpreter sets it
    when nothing changes it ([sys.get_int_max_str_digits()]). *)
Definition max_str_digits : nat := 4300.

(** The message of [str] for an integer beyond the limit, and the fixed
    start of the message of [int], which goes on with the number of digits
    of the literal. *)
Definition msg_limit : string :=
  "Exceeds the limit (4300 digits) for integer string conversion; use sys.set_int_max_str_digits() to increase the limit".

Definition msg_limit_int : string :=
  "Exceeds the limit (4300 digits) for integer string conversion".

(** [int(s)] for a string [s]: white space, an optional sign, decimal
    digits, white space; anything else raises [ValueError], and so does a
    literal of more than [max_str_digits] digits, leading zeros counted.
    The digits are counted, and the limit applied, before what follows
    them is looked at, as CPython 3.11 does; a text that is both too long
    and malformed raises [ValueError] with one message or the other. *)
Definition int (s : str) : result Z :=
  let invalid := Raise (ValueError "invalid literal for int() with base 10") in
  match trim int_space s with
  | c :: ds =>
      let negative := Ascii.eqb c "-" in
      let body := if negative || Ascii.eqb c "+" then ds else c :: ds in
      match scan_digits 0 true body with
      | Some n =>
          if (max_str_digits <? n)%nat then Raise (ValueError msg_limit_int)
          else
            match int_digits 0 false body with
            | Some v => Ok (if negative then - v else v)
            | None => invalid
            end
      | None => invalid
      end
  | [] => invalid
  end.

(** The integer a text stands for, [None] for a text [int] refuses. *)
Definition int_literal (s : str) : option Z :=
  match int s with
  | Ok z => Some z
  | Raise _ => None
  end.

(** The decimal text of an integer: no leading zero, [-] in front of a
    negative number. *)
Definition decimal (z : Z) : str := lit (NilZero.string_of_int (Z.to_int z)).

(** The number of decimal digits of an integer, the sign not counted. *)
Definition nb_digits (z : Z) : nat := length (decimal (Z.abs z)).

(** [str(z)] for an integer, as the f-strings of [__str__] format it: the
    decimal text; an integer of more than [max_str_digits] digits raises
    [ValueError]. *)
Definition str_of_int (z : Z) : result str :=
  if (max_str_digits <? nb_digits z)%nat then Raise (ValueError msg_limit)
  else Ok (decimal z).

(** [a, b, c = it] for an iterator whose items are computed on demand
    ([map(int, ...)]): the items are requested one by one, a fourth one is
    requested to see that there is none. *)
Definition unpack3 {A : Type} (it : list (result A)) : result (A * A * A) :=
  let not_enough := Raise (ValueError "not enough values to unpack") in
  match it with
  | [] => not_enough
  | x :: it =>
      a ← x;
      match it with
      | [] => not_enough
      | y :: it =>
          b ← y;
          match it with
          | [] => not_enough
          | z :: it =>
              c ← z;
              match it with
              | [] => Ok (a, b, c)
              | w :: _ => _ ← w; Raise (ValueError "too many values to unpack")
              end
          end
      end
  end.

(** A [for] statement whose body may raise. *)
Fixpoint for_each_raising {A S : Type} (xs : list A) (body : A -> S -> result S)
    (s : S) : result S :=
  match xs with
  | [] => Ok s
  | x :: xs' => s' ← body x s; for_each_raising xs' body s'
  end.

(** [try: body except classes: handler], [catches] telling the classes. *)
Definition try_except {A : Type} (body : result A) (catches : exn -> bool)
    (handler : result A) : result A :=
  match body with
  | Ok a => Ok a
  | Raise e => if catches e then handler else Raise e
  end.

(** Text mode reading translates the line ends [CR LF] and [CR] to [LF]. *)
Fixpoint universal_newlines (s : str) : str :=
  match s with
  | [] => []
  | c :: s' =>
      if Ascii.eqb c CR then
        match s' with
        | c' :: s'' =>
            if Ascii.eqb c' LF then LF :: universal_newlines s''
            else LF :: universal_newlines s'
        | [] => [LF]
        end
      else c :: universal_newlines s'
  end.

(** [for line in file]: each line with its [LF]; the last line may lack it. *)
Fixpoint file_lines (s : str) : list str :=
  match s with
  | [] => []
  | c :: s' =>
      if Ascii.eqb c LF then [LF] :: file_lines s'
      else match file_lines s' with
           | l :: ls => (c :: l) :: ls
           | [] => [[c]]
           end
  end.

(** ** The text format *)

(** [lines = [line.strip() for line in file if line.strip()]], on the text
    of the file. *)
Definition nonblank_lines (content : str) : list str :=
  map strip
    (List.filter (fun line => negb (Nat.eqb (length (strip line)) 0))
       (file_lines (universal_newlines content))).

(** The body of the loop over [lines[2:]]. *)
Definition read_entry (line : str) (matrix : SparseMatrix) : result SparseMatrix :=
  '(row, col, value) ←
    try_except (unpack3 (map int (split "," (slice 1 (-1) line))))
      (fun e => match e with ValueError _ => true | _ => false end)
      (Raise (ValueError msg_format));
  Ok (set_element matrix row col value).

(** [from_file], on the text of the file at [file_path] (the spec's
    [from_text]). *)
Definition from_file (content : str) : result SparseMatrix :=
  let lines := nonblank_lines content in
  '(rows, cols) ←
    try_except
      (line ← index lines 0; token ← index (split "=" line) 1; rows ← int token;
       line ← index lines 1; token ← index (split "=" line) 1; cols ← int token;
       Ok (rows, cols))
      (fun e => match e with IndexError _ | ValueError _ => true end)
      (Raise (ValueError msg_format));
  let matrix := __init__ rows cols in
  for_each_raising (skipn 2 lines) read_entry matrix.

(** The tokens of an entry line: the line without its first and last
    character, cut at the commas. *)
Definition entry_tokens (line : str) : list str := split "," (slice 1 (-1) line).

(** Exactly three tokens, each one an integer literal. *)
Definition three_integers (tokens : list str) : Prop :=
  exists a b c, tokens = [a; b; c] /\
    is_Some (int_literal a) /\ is_Some (int_literal b) /\ is_Some (int_literal c).

(** [__str__] (the spec's [to_text]); [self.data[row][col]] is read for
    keys the two loops yielded.  Each f-string formats its numbers from
    left to right, and the first number too long for [str] ends the call. *)
Definition __str__ (self : SparseMatrix) : result str :=
  rows_text ← str_of_int (rows self);
  cols_text ← str_of_int (cols self);
  let result := lit "rows=" ++ rows_text ++ [LF] ++ lit "cols=" ++ cols_text ++ [LF] in
  for_each_raising (Dict.keys (data self)) (fun row =>
    for_each_raising (Dict.keys (row_of self row)) (fun col result =>
      row_text ← str_of_int row;
      col_text ← str_of_int col;
      value_text ← str_of_int (Dict.get_default col 0 (row_of self row));
      Ok (result ++ lit "(" ++ row_text ++ lit ", " ++ col_text ++ lit ", "
            ++ value_text ++ lit ")" ++ [LF])))
    result.

(** ** Objects with identity *)

(** The operators create objects and [set_element] updates dictionaries in
    place.  To speak of which objects an operator touches, the same methods
    are given on a store of objects: a matrix instance refers to its
    dictionary [data], which refers to one dictionary per row.  A reference
    is the position of the object in the store and a new object goes to the
    end of the store.  A method yields [None] on a store where a reference
    it follows is not of the expected class, which Python code running on
    objects built by this class never meets. *)
Module Store.

Abbreviation loc := nat.

Inductive object : Type :=
  | Instance (rows cols : Z) (data : loc)
  | RowsDict (items : Dict.t loc)
  | RowDict (items : Dict.t Z).

Abbreviation heap := (list object).

Definition get_instance (h : heap) (l : loc) : option (Z * Z * loc) :=
  match h !! l with
  | Some (Instance rows cols data) => Some (rows, cols, data)
  | _ => None
  end.

Definition get_rows_dict (h : heap) (l : loc) : option (Dict.t loc) :=
  match h !! l with
  | Some (RowsDict items) => Some items
  | _ => None
  end.

Definition get_row_dict (h : heap) (l : loc) : option (Dict.t Z) :=
  match h !! l with
  | Some (RowDict items) => Some items
  | _ => None
  end.

(** [self.data] *)
Definition data_of (h : heap) (self : loc) : option (Dict.t loc) :=
  '(_, _, d) ← get_instance h self; get_rows_dict h d.

(** [self.data[row]] for a key [row] of [self.data]. *)
Definition row_of (h : heap) (self : loc) (row : Z) : option (Dict.t Z) :=
  rows_dict ← data_of h self;
  l ← Dict.get row rows_dict;
  get_row_dict h l.

(** [SparseMatrix(rows, cols)]: a new instance and its new, empty [data]. *)
Definition new (rows cols : Z) (h : heap) : loc * heap :=
  (length h, h ++ [Instance rows cols (S (length h)); RowsDict Dict.empty]).

(** [get_element]; the default [{}] of [self.data.get(row, {})] is a
    temporary that nothing refers to afterwards. *)
Definition get_element (self : loc) (row col : Z) (h : heap) : option Z :=
  rows_dict ← data_of h self;
  match Dict.get row rows_dict with
  | Some l => Dict.get_default col 0 <$> get_row_dict h l
  | None => Some 0
  end.

(** [set_element]: a new row dictionary when the row is new, then an update
    in place of the row dictionary. *)
Definition set_element (self : loc) (row col value : Z) (h : heap) : option heap :=
  '(_, _, d) ← get_instance h self;
  rows_dict ← get_rows_dict h d;
  let h1 :=
    if negb (Dict.mem row rows_dict)
    then <[d := RowsDict (Dict.set row (length h) rows_dict)]> (h ++ [RowDict Dict.empty])
    else h in
  l ← (rows_dict ← data_of h1 self; Dict.get row rows_dict);
  row_dict ← get_row_dict h1 l;
  Some (<[l := RowDict (Dict.set col value row_dict)]> h1).

(** A [for] statement whose body updates the store.  The sequence looped
    over is read when the loop starts; the dictionaries looped over below
    are not written while their loop runs. *)
Fixpoint for_each {A : Type} (xs : list A) (body : A -> heap -> option heap)
    (h : heap) : option heap :=
  match xs with
  | [] => Some h
  | x :: xs' => h' ← body x h; for_each xs' body h'
  end.

(** [add] *)
Definition add (self matrix : loc) (h : heap) : option (result loc * heap) :=
  '(self_rows, self_cols, _) ← get_instance h self;
  '(matrix_rows, matrix_cols, _) ← get_instance h matrix;
  if negb (self_rows =? matrix_rows) || negb (self_cols =? matrix_cols)
  then Some (Raise (ValueError msg_add), h)
  else
    let '(result, h) := new self_rows self_cols h in
    rows_dict ← data_of h self;
    h ← for_each (Dict.keys rows_dict) (fun row h =>
      row_dict ← row_of h self row;
      for_each (Dict.keys row_dict) (fun col h =>
        v ← get_element self row col h;
        set_element result row col v h) h) h;
    rows_dict ← data_of h matrix;
    h ← for_each (Dict.keys rows_dict) (fun row h =>
      row_dict ← row_of h matrix row;
      for_each (Dict.keys row_dict) (fun col h =>
        old ← get_element result row col h;
        v ← get_element matrix row col h;
        set_element result row col (old + v) h) h) h;
    Some (Ok result, h).

(** [subtract] *)
Definition subtract (self matrix : loc) (h : heap) : option (result loc * heap) :=
  '(self_rows, self_cols, _) ← get_instance h self;
  '(matrix_rows, matrix_cols, _) ← get_instance h matrix;
  if negb (self_rows =? matrix_rows) || negb (self_cols =? matrix_cols)
  then Some (Raise (ValueError msg_subtract), h)
  else
    let '(result, h) := new self_rows self_cols h in
    rows_dict ← data_of h self;
    h ← for_each (Dict.keys rows_dict) (fun row h =>
      row_dict ← row_of h self row;
      for_each (Dict.keys row_dict) (fun col h =>
        v ← get_element self row col h;
        set_element result row col v h) h) h;
    rows_dict ← data_of h matrix;
    h ← for_each (Dict.keys rows_dict) (fun row h =>
      row_dict ← row_of h matrix row;
      for_each (Dict.keys row_dict) (fun col h =>
        old ← get_element result row col h;
        v ← get_element matrix row col h;
        set_element result row col (old - v) h) h) h;
    Some (Ok result, h).

(** The innermost loop of [multiply]; it reads the store only. *)
Fixpoint sum_products (self matrix : loc) (row col : Z) (ks : list Z)
    (sum_product : Z) (h : heap) : option Z :=
  match ks with
  | [] => Some sum_product
  | k :: ks' =>
      x ← get_element self row k h;
      y ← get_element matrix k col h;
      sum_products self matrix row col ks' (sum_product + x * y) h
  end.

(** [multiply] *)
Definition multiply (self matrix : loc) (h : heap) : option (result loc * heap) :=
  '(self_rows, self_cols, _) ← get_instance h self;
  '(matrix_rows, matrix_cols, _) ← get_instance h matrix;
  if negb (self_cols =? matrix_rows)
  then Some (Raise (ValueError msg_multiply), h)
  else
    let '(result, h) := new self_rows matrix_cols h in
    rows_dict ← data_of h self;
    h ← for_each (Dict.keys rows_dict) (fun row h =>
      for_each (range matrix_cols) (fun col h =>
        sum_product ← sum_products self matrix row col (range self_cols) 0 h;
        if negb (sum_product =? 0)
        then set_element result row col sum_product h
        else Some h) h) h;
    Some (Ok result, h).

(** The store [h] holds at [l] an instance with the value [m]: its
    attributes, its [data] and one row dictionary per row of [m]. *)
Definition rows_repr (h : heap) (rows_dict : Dict.t loc)
    (data : Dict.t (Dict.t Z)) : Prop :=
  Forall2 (fun ref row => ref.1 = row.1 /\ h !! ref.2 = Some (RowDict row.2))
    rows_dict data.

Definition represents (h : heap) (l : loc) (m : SparseMatrix) : Prop :=
  exists d rows_dict,
    h !! l = Some (Instance (rows m) (cols m) d) /\
    h !! d = Some (RowsDict rows_dict) /\
    rows_repr h rows_dict (data m).

(** The objects an instance is made of: itself, its [data] and its row
    dictionaries. *)
Definition storage (h : heap) (l : loc) : list loc :=
  match h !! l with
  | Some (Instance _ _ d) =>
      l :: d :: match h !! d with
                | Some (RowsDict rows_dict) => rows_dict.*2
                | _ => []
                end
  | _ => []
  end.

(** What an operator on the store owes to the operator on values: it
    returns, every object of the store it started from is as it was, the
    operands hold the values they held, a raised exception leaves the store
    as it was, and a returned instance holds the value computed and is made
    of objects that did not exist before, none of them part of an operand. *)
Definition frames (op_h : loc -> loc -> heap -> option (result loc * heap))
    (op : SparseMatrix -> SparseMatrix -> result SparseMatrix) : Prop :=
  forall (h : heap) (a b : loc) (A B : SparseMatrix),
    represents h a A -> represents h b B ->
    exists res h', op_h a b h = Some (res, h') /\
      h `prefix_of` h' /\
      represents h' a A /\ represents h' b B /\
      match res with
      | Raise e => op A B = Raise e /\ h' = h
      | Ok r =>
          (exists R, op A B = Ok R /\ represents h' r R) /\
          (forall l, l ∈ storage h' r ->
             (length h <= l)%nat /\ (l ∉ storage h' a) /\ (l ∉ storage h' b))
      end.

End Store.

(** ** Definitions used by the statements and their proofs *)

(** A loop over keys that writes at each key a value computed from the old
    element there. *)
Definition update_all (g : Z -> Z -> Z -> Z) (ks : list (Z * Z))
    (res : SparseMatrix) : SparseMatrix :=
  for_each ks (fun k res =>
    set_element res k.1 k.2 (g (get_element res k.1 k.2) k.1 k.2)) res.

(** A loop over keys that writes [f] of the key where it is not zero. *)
Definition write_nonzero (f : Z -> Z -> Z) (ks : list (Z * Z))
    (res : SparseMatrix) : SparseMatrix :=
  for_each ks (fun k res =>
    if negb (f k.1 k.2 =? 0) then set_element res k.1 k.2 (f k.1 k.2) else res) res.

(** The two passes of [add] and [subtract], over the stored keys. *)
Definition combine_with (op : Z -> Z -> Z) (A B : SparseMatrix) : SparseMatrix :=
  update_all (fun old r c => op old (get_element B r c)) (stored_keys B)
    (update_all (fun _ r c => get_element A r c) (stored_keys A)
       (__init__ (rows A) (cols A))).

(** The coordinates the loops of [multiply] visit. *)
Definition product_keys (A B : SparseMatrix) : list (Z * Z) :=
  row ← Dict.keys (data A); pair row <$> range (cols B).

(** The characters of a formatted integer. *)
Definition numeric (c : ascii) : bool := Ascii.eqb c "-" || code_in c 48 57.

(** The first character of the string is outside [p]. *)
Definition starts_outside (p : ascii -> bool) (s : str) : Prop :=
  match s with
  | a :: _ => p a = false
  | [] => False
  end.

(** The last character of the string is outside [p]. *)
Definition ends_outside (p : ascii -> bool) (s : str) : Prop :=
  starts_outside p (rev s).

(** The integer has no more digits than [int] and [str] convert. *)
Definition within_limit (z : Z) : bool := (nb_digits z <=? max_str_digits)%nat.

(** Every number [__str__] formats is within the limit: rows, cols, and
    the row, the column and the value of each stored entry. *)
Definition printable (m : SparseMatrix) : bool :=
  within_limit (rows m) && within_limit (cols m) &&
  forallb (fun k => within_limit k.1 && within_limit k.2
                    && within_limit (get_element m k.1 k.2)) (stored_keys m).

(** The text of a matrix, with every number written in full. *)
Definition text_of (self : SparseMatrix) : str :=
  let result :=
    lit "rows=" ++ decimal (rows self) ++ [LF] ++
    lit "cols=" ++ decimal (cols self) ++ [LF] in
  for_each (Dict.keys (data self)) (fun row =>
    for_each (Dict.keys (row_of self row)) (fun col result =>
      result ++ lit "(" ++ decimal row ++ lit ", " ++ decimal col ++ lit ", "
        ++ decimal (Dict.get_default col 0 (row_of self row)) ++ lit ")" ++ [LF]))
    result.

(** The lines of the text of a matrix, without their line ends. *)
Definition header_lines (m : SparseMatrix) : list str :=
  [lit "rows=" ++ decimal (rows m); lit "cols=" ++ decimal (cols m)].

Definition entry_body (m : SparseMatrix) (k : Z * Z) : str :=
  decimal k.1 ++ lit ", " ++ decimal k.2 ++ lit ", "
    ++ decimal (get_element m k.1 k.2).

Definition entry_line (m : SparseMatrix) (k : Z * Z) : str :=
  lit "(" ++ entry_body m k ++ lit ")".

Definition text_lines (m : SparseMatrix) : list str :=
  header_lines m ++ (entry_line m <$> stored_keys m).

(** The header: the two [try] lines of [from_file]. *)
Definition read_header (lines : list str) : result (Z * Z) :=
  try_except
    (line ← index lines 0; token ← index (split "=" line) 1; rows ← int token;
     line ← index lines 1; token ← index (split "=" line) 1; cols ← int token;
     Ok (rows, cols))
    (fun e => match e with IndexError _ | ValueError _ => true end)
    (Raise (ValueError msg_format)).

(** The instance at [r] holds [R] and is made of objects created after the
    store [h0], with one row dictionary per row. *)
Definition owned (h0 h : Store.heap) (r : Store.loc) (R : SparseMatrix) : Prop :=
  exists d rd,
    (length h0 <= r)%nat /\ (length h0 <= d)%nat /\
    h !! r = Some (Store.Instance (rows R) (cols R) d) /\
    h !! d = Some (Store.RowsDict rd) /\
    Store.rows_repr h rd (data R) /\
    Forall (fun l => (length h0 <= l)%nat) rd.*2 /\
    NoDup rd.*2.

(** [add] and [subtract] differ by the message and by the operation. *)
Definition combine_loops (msg : string) (op : Z -> Z -> Z)
    (self matrix : SparseMatrix) : result SparseMatrix :=
  if negb (rows self =? rows matrix) || negb (cols self =? cols matrix)
  then Raise (ValueError msg)
  else
    let result := __init__ (rows self) (cols self) in
    let result :=
      for_each (Dict.keys (data self)) (fun row =>
        for_each (Dict.keys (row_of self row)) (fun col result =>
          set_element result row col (get_element self row col))) result in
    let result :=
      for_each (Dict.keys (data matrix)) (fun row =>
        for_each (Dict.keys (row_of matrix row)) (fun col result =>
          set_element result row col
            (op (get_element result row col) (get_element matrix row col)))) result in
    Ok result.

(** The same on the store. *)
Definition store_combine (msg : string) (op : Z -> Z -> Z)
    (self matrix : Store.loc) (h : Store.heap) : option (result Store.loc * Store.heap) :=
  '(self_rows, self_cols, _) ← Store.get_instance h self;
  '(matrix_rows, matrix_cols, _) ← Store.get_instance h matrix;
  if negb (self_rows =? matrix_rows) || negb (self_cols =? matrix_cols)
  then Some (Raise (ValueError msg), h)
  else
    let '(result, h) := Store.new self_rows self_cols h in
    rows_dict ← Store.data_of h self;
    h ← Store.for_each (Dict.keys rows_dict) (fun row h =>
      row_dict ← Store.row_of h self row;
      Store.for_each (Dict.keys row_dict) (fun col h =>
        v ← Store.get_element self row col h;
        Store.set_element result row col v h) h) h;
    rows_dict ← Store.data_of h matrix;
    h ← Store.for_each (Dict.keys rows_dict) (fun row h =>
      row_dict ← Store.row_of h matrix row;
      Store.for_each (Dict.keys row_dict) (fun col h =>
        old ← Store.get_element result row col h;
        v ← Store.get_element matrix row col h;
        Store.set_element result row col (op old v) h) h) h;
    Some (Ok result, h).

(** Examples of the spec: A = {(0,0):1, (1,1):2}, B = {(0,0):3, (0,1):4}. *)
Definition exA : SparseMatrix := set_element (set_element (__init__ 2 2) 0 0 1) 1 1 2.
Definition exB : SparseMatrix := set_element (set_element (__init__ 2 2) 0 0 3) 0 1 4.

(** [SparseMatrix(1, 1)] after [set_element(0, 0, v)]. *)
Definition one_entry (v : Z) : SparseMatrix := set_element (__init__ 1 1) 0 0 v.

(** A matrix that holds 10 to the power 4300, the least number of 4301
    digits. *)
Definition ex_big : SparseMatrix := one_entry (10 ^ Z.of_nat max_str_digits).

(** 5 followed by 4299 zeros, a number of 4300 digits, and a matrix that
    holds it. *)
Definition half_limit : Z := 5 * 10 ^ Z.of_nat (max_str_digits - 1).
Definition ex_half : SparseMatrix := one_entry half_limit.

(** A store that holds these two matrices: [exA] at 0 and [exB] at 4. *)
Definition ex_store : Store.heap :=
  [ Store.Instance 2 2 1; Store.RowsDict [(0, 2%nat); (1, 3%nat)];
    Store.RowDict [(0, 1)]; Store.RowDict [(1, 2)];
    Store.Instance 2 2 5; Store.RowsDict [(0, 6%nat)];
    Store.RowDict [(0, 3); (1, 4)] ].

(** No row dictionary of the matrix is empty. *)
Definition rows_nonempty (m : SparseMatrix) : Prop :=
  Forall (fun rd => rd.2 <> []) (data m).

(** ** Texts in the format of [from_file] *)

(** The text made of the given lines, each ended by [LF]. *)
Definition unlines (ls : list str) : str := concat ((fun l => l ++ [LF]) <$> ls).

(** A character a header name may hold: any but [=] and the line ends. *)
Definition name_char (c : ascii) : bool :=
  negb (Ascii.eqb c "=" || Ascii.eqb c LF || Ascii.eqb c CR).

(** A character that may pad a number: white space for [int], no line end. *)
Definition pad_char (c : ascii) : bool :=
  int_space c && negb (Ascii.eqb c LF || Ascii.eqb c CR).

(** The three numbers of an entry are within the limit. *)
Definition entry_within (e : Z * Z * Z) : bool :=
  within_limit e.1.1 && within_limit e.1.2 && within_limit e.2.

(** The three numbers of an entry, separated by commas, the second and the
    third after the padding [pad]. *)
Definition entry_fields (pad : str) (e : Z * Z * Z) : str :=
  decimal e.1.1 ++ ","%char :: (pad ++ decimal e.1.2)
    ++ ","%char :: (pad ++ decimal e.2).

(** The lines of a matrix text: a line [name=rows], a line [name=cols],
    then one line per entry between the characters [a] and [z]. *)
Definition matrix_lines (n1 n2 : str) (a z : ascii) (pad : str) (rows cols : Z)
    (es : list (Z * Z * Z)) : list str :=
  (n1 ++ "="%char :: decimal rows) :: (n2 ++ "="%char :: decimal cols)
    :: ((fun e => a :: entry_fields pad e ++ [z]) <$> es).

(** The text with every [LF] replaced by [CR LF]. *)
Fixpoint crlf (s : str) : str :=
  match s with
  | [] => []
  | c :: s' => if Ascii.eqb c LF then CR :: LF :: crlf s' else c :: crlf s'
  end.

(** The value of the last entry of the list at the key, if there is one. *)
Fixpoint last_write (es : list (Z * Z * Z)) (r c : Z) : option Z :=
  match es with
  | [] => None
  | e :: es' =>
      match last_write es' r c with
      | Some v => Some v
      | None => if (e.1.1 =? r) && (e.1.2 =? c) then Some e.2 else None
      end
  end.

(** ** The program [prompt_user] *)

(** [c.lower()] for a code point below 256: the letters A-Z and the
    accented capitals 192-214 and 216-222 move up by 32. *)
Definition lower_char (c : ascii) : ascii :=
  if code_in c 65 90 || code_in c 192 214 || code_in c 216 222
  then ascii_of_N (N_of_ascii c + 32)
  else c.

(** [s.lower()] *)
Definition lower (s : str) : str := lower_char <$> s.

(** [s == t] for two strings. *)
Fixpoint str_eqb (s t : str) : bool :=
  match s, t with
  | [], [] => true
  | c :: s', d :: t' => Ascii.eqb c d && str_eqb s' t'
  | _, _ => false
  end.

(** The position of the last [c] in [s] counted from [i], [last] if there
    is none. *)
Fixpoint rfind_from (c : ascii) (s : str) (i last : Z) : Z :=
  match s with
  | [] => last
  | x :: s' => rfind_from c s' (i + 1) (if Ascii.eqb x c then i else last)
  end.

(** [s.rfind(c)]: the index of the last [c], -1 if there is none. *)
Definition rfind (c : ascii) (s : str) : Z := rfind_from c s 0 (-1).

(** [os.path.basename(p)], as [posixpath] has it: [p[p.rfind('/') + 1:]]. *)
Definition basename (p : str) : str := skipn (Z.to_nat (rfind "/" p + 1)) p.

(** [os.path.splitext(p)[0]], as [posixpath] has it: the text before the
    last dot, when that dot comes after the last [/] and after a character
    of the file name that is not a dot; [p] otherwise. *)
Definition splitext_root (p : str) : str :=
  let sepIndex := rfind "/" p in
  let dotIndex := rfind "." p in
  if (sepIndex <? dotIndex) &&
     existsb (fun ch => negb (Ascii.eqb ch ".")) (slice (sepIndex + 1) dotIndex p)
  then slice 0 dotIndex p
  else p.

(** [s.startswith(c)] for a character [c]. *)
Definition starts_with (c : ascii) (s : str) : bool :=
  match s with
  | x :: _ => Ascii.eqb x c
  | [] => false
  end.

(** [os.path.join(a, b)], as [posixpath] has it. *)
Definition path_join (a b : str) : str :=
  if starts_with "/" b then b
  else if Nat.eqb (length a) 0 || starts_with "/" (rev a) then a ++ b
  else a ++ "/"%char :: b.

(** What a call that may raise gives: its value, or the text [print]
    shows for the exception. *)
Inductive attempt (A : Type) : Type :=
  | Returned (a : A)
  | Raised (text : str).
Arguments Returned {A} a.
Arguments Raised {A} text.

(** The world around the program: reading the text of a file;
    [os.makedirs(path, exist_ok=True)]; [open(path, 'w')]; writing a text
    to the open file and closing it.  Each may raise. *)
Record system : Type := {
  read_text : str -> attempt str;
  makedirs : str -> attempt unit;
  open_write : str -> attempt unit;
  write_text : str -> str -> attempt unit
}.

(** The calls the program makes on the world, in order, each recorded
    whether it returns or raises: a prompt of [input]; a line of [print];
    [os.makedirs], which creates the directory and the directories above it
    that are missing; [open(path, 'w')], which creates the file or empties
    it; [file.write(text)]. *)
Inductive event : Type :=
  | Prompt (text : str)
  | Print (line : str)
  | Makedirs (path : str)
  | Open (path : str)
  | Write (path text : str).

(** [str(e)] *)
Definition message (e : exn) : str :=
  match e with
  | IndexError msg | ValueError msg => lit msg
  end.

(** [SparseMatrix.from_file(path)], opening the file included. *)
Definition from_path (sys : system) (path : str) : attempt SparseMatrix :=
  match read_text sys path with
  | Raised text => Raised text
  | Returned content =>
      match from_file content with
      | Ok matrix => Returned matrix
      | Raise e => Raised (message e)
      end
  end.

(** The name of the result file. *)
Definition output_file_name (first_path operation second_path : str) : str :=
  splitext_root (basename first_path) ++ lit "_" ++ operation ++ lit "_"
    ++ splitext_root (basename second_path) ++ lit "_result.txt".

(** [prompt_user], on the three lines the user answers: the events of the
    run.  Every exception raised inside the [try] is printed.  The result
    file is opened before [str(result)] is computed, and it is closed when
    the [with] block is left, also by an exception. *)
Definition prompt_user (sys : system) (answer1 answer2 answer3 : str) : list event :=
  let operation := lower (strip answer1) in
  let first_path := strip answer2 in
  let second_path := strip answer3 in
  Prompt (lit "Enter the operation (add, subtract, multiply): ") ::
  Prompt (lit "Enter the path for the first matrix file: ") ::
  Prompt (lit "Enter the path for the second matrix file: ") ::
  match from_path sys first_path with
  | Raised text => [Print text]
  | Returned matrix1 =>
  match from_path sys second_path with
  | Raised text => [Print text]
  | Returned matrix2 =>
  match
    (if str_eqb operation (lit "add") then Some (add matrix1 matrix2)
     else if str_eqb operation (lit "subtract") then Some (subtract matrix1 matrix2)
     else if str_eqb operation (lit "multiply") then Some (multiply matrix1 matrix2)
     else None)
  with
  | None => [Print (lit "Invalid operation")]
  | Some (Raise e) => [Print (message e)]
  | Some (Ok result) =>
      let sparse_matrix := lit "sparse_matrix" in
      let sample_results := path_join sparse_matrix (lit "sample_results") in
      Makedirs sample_results ::
      match makedirs sys sample_results with
      | Raised text => [Print text]
      | Returned _ =>
          let output_file_path :=
            path_join sample_results
              (output_file_name first_path operation second_path) in
          Open output_file_path ::
          match open_write sys output_file_path with
          | Raised text => [Print text]
          | Returned _ =>
              match __str__ result with
              | Raise e => [Print (message e)]
              | Ok text =>
                  Write output_file_path text ::
                  match write_text sys output_file_path text with
                  | Raised text => [Print text]
                  | Returned _ => [Print (lit "Result saved to " ++ output_file_path)]
                  end
              end
          end
      end
  end
  end
  end.

(** The three operation names and their methods. *)
Definition operations :
    list (str * (SparseMatrix -> SparseMatrix -> result SparseMatrix)) :=
  [(lit "add", add); (lit "subtract", subtract); (lit "multiply", multiply)].

(** The prompts every run starts with. *)
Definition prompts : list event :=
  [ Prompt (lit "Enter the operation (add, subtract, multiply): ");
    Prompt (lit "Enter the path for the first matrix file: ");
    Prompt (lit "Enter the path for the second matrix file: ") ].

(** The directory of the result files and the path of the result file of
    a run. *)
Definition results_directory : str := lit "sparse_matrix/sample_results".

Definition result_path (answer1 answer2 answer3 : str) : str :=
  results_directory ++ lit "/"
    ++ output_file_name (strip answer2) (lower (strip answer1)) (strip answer3).

(** The run loads both files, finds the operation and the operator returns
    [R]: it comes to the statements that save the result. *)
Definition computes (sys : system) (answer1 answer2 answer3 : str)
    (R : SparseMatrix) : Prop :=
  exists A B op,
    from_path sys (strip answer2) = Returned A /\
    from_path sys (strip answer3) = Returned B /\
    (lower (strip answer1), op) ∈ operations /\ op A B = Ok R.

(** The statements of [prompt_user] that save the result, from
    [os.makedirs] on. *)
Definition save_result (sys : system) (output_file_path : str)
    (result : SparseMatrix) : list event :=
  Makedirs results_directory ::
  match makedirs sys results_directory with
  | Raised text => [Print text]
  | Returned _ =>
      Open output_file_path ::
      match open_write sys output_file_path with
      | Raised text => [Print text]
      | Returned _ =>
          match __str__ result with
          | Raise e => [Print (message e)]
          | Ok text =>
              Write output_file_path text ::
              match write_text sys output_file_path text with
              | Raised text => [Print text]
              | Returned _ => [Print (lit "Result saved to " ++ output_file_path)]
              end
          end
      end
  end.


(** A system where the two given paths hold the two given texts and
    nothing fails. *)
Definition ex_system (path1 text1 path2 text2 : str) : system :=
  {| read_text := fun p =>
       if str_eqb p path1 then Returned text1
       else if str_eqb p path2 then Returned text2
       else Raised (lit "[Errno 2] No such file or directory");
     makedirs := fun _ => Returned tt;
     open_write := fun _ => Returned tt;
     write_text := fun _ _ => Returned tt |}.

(** * Properties *)


Example add_exA_exB :
  add exA exB = Ok {| rows := 2; cols := 2;
                      data := [(0, [(0, 4); (1, 4)]); (1, [(1, 2)])] |}.
Proof. reflexivity. Qed.

Example multiply_exA_exB :
  multiply exA exB = Ok {| rows := 2; cols := 2; data := [(0, [(0, 3); (1, 4)])] |}.
Proof. reflexivity. Qed.

(** ** Dictionaries *)

Section DictFacts.
Context {V : Type}.
Implicit Types (d : Dict.t V) (k : Z) (v : V).

Lemma get_set k k' v d :
  Dict.get k' (Dict.set k v d) = if k =? k' then Some v else Dict.get k' d.
Proof.
  induction d as [|[k0 v0] d IH]; simpl.
  - destruct (k =? k'); reflexivity.
  - destruct (k0 =? k) eqn:E0; simpl.
    + apply Z.eqb_eq in E0; subst k0. destruct (k =? k'); reflexivity.
    + rewrite IH. destruct (k0 =? k') eqn:E1; [|reflexivity].
      apply Z.eqb_eq in E1; subst k0. rewrite Z.eqb_sym, E0. reflexivity.
Qed.

Lemma get_Some_elem_of k v d : Dict.get k d = Some v -> (k, v) ∈ d.
Proof.
  induction d as [|[k0 v0] d IH]; simpl; [discriminate|].
  destruct (k0 =? k) eqn:E.
  - apply Z.eqb_eq in E. intros [= ->]. subst k0. left.
  - intros H. right. auto.
Qed.

Lemma get_None_keys k d : Dict.get k d = None <-> k ∉ Dict.keys d.
Proof.
  unfold Dict.keys. induction d as [|[k0 v0] d IH]; simpl.
  - rewrite elem_of_nil. tauto.
  - rewrite elem_of_cons. destruct (k0 =? k) eqn:E.
    + apply Z.eqb_eq in E. split; [discriminate | intros []; auto].
    + apply Z.eqb_neq in E. rewrite IH. intuition congruence.
Qed.

Lemma elem_of_keys_get k d : k ∈ Dict.keys d <-> is_Some (Dict.get k d).
Proof.
  destruct (Dict.get k d) as [v|] eqn:E.
  - split; [eauto|]. intros _. apply get_Some_elem_of in E.
    apply list_elem_of_fmap. exists (k, v). auto.
  - apply get_None_keys in E. split; [tauto | intros [v [=]]].
Qed.

Lemma elem_of_get k v d : Dict.wf d -> (k, v) ∈ d -> Dict.get k d = Some v.
Proof.
  unfold Dict.wf, Dict.keys. induction d as [|[k0 v0] d IH]; simpl.
  - intros _ H. apply elem_of_nil in H as [].
  - rewrite NoDup_cons, elem_of_cons. intros [Hnotin Hnd] [Heq|Hin].
    + injection Heq as -> ->. rewrite Z.eqb_refl. reflexivity.
    + destruct (k0 =? k) eqn:E; [|auto].
      apply Z.eqb_eq in E; subst k0. exfalso. apply Hnotin.
      apply list_elem_of_fmap. exists (k, v). auto.
Qed.

Lemma keys_set k v d :
  Dict.keys (Dict.set k v d) =
  if Dict.mem k d then Dict.keys d else Dict.keys d ++ [k].
Proof.
  unfold Dict.mem, Dict.keys. induction d as [|[k0 v0] d IH]; csimpl; [reflexivity|].
  destruct (k0 =? k) eqn:E; csimpl; [reflexivity|].
  rewrite IH. destruct (Dict.get k d); reflexivity.
Qed.

Lemma wf_set k v d : Dict.wf d -> Dict.wf (Dict.set k v d).
Proof.
  unfold Dict.wf. intros Hnd. rewrite keys_set. unfold Dict.mem.
  destruct (Dict.get k d) eqn:E; [assumption|].
  apply get_None_keys in E. apply NoDup_app; repeat split.
  - assumption.
  - intros x Hx Hx'. apply list_elem_of_singleton in Hx'. congruence.
  - apply NoDup_singleton.
Qed.

Lemma Forall_set (P : Z * V -> Prop) k v d :
  Forall P d -> P (k, v) -> Forall P (Dict.set k v d).
Proof.
  intros Hd Hkv. induction Hd as [|[k0 v0] d H0 Hd IH]; simpl.
  - constructor; [assumption | constructor].
  - destruct (k0 =? k) eqn:E.
    + apply Z.eqb_eq in E; subst k0. constructor; assumption.
    + constructor; assumption.
Qed.
End DictFacts.

(** ** Reading and writing one element *)

Lemma get_element_entry m r c : get_element m r c = default 0 (entry m r c).
Proof.
  unfold get_element, entry, Dict.get_default.
  destruct (Dict.get r (data m)); reflexivity.
Qed.

Lemma entry_init n p r c : entry (__init__ n p) r c = None.
Proof. reflexivity. Qed.

Lemma rows_set_element m r c v : rows (set_element m r c v) = rows m.
Proof. reflexivity. Qed.

Lemma cols_set_element m r c v : cols (set_element m r c v) = cols m.
Proof. reflexivity. Qed.

Lemma entry_set_element m r c v r' c' :
  entry (set_element m r c v) r' c' =
  if (r =? r') && (c =? c') then Some v else entry m r' c'.
Proof.
  unfold entry, set_element, Dict.mem, Dict.get_default; simpl.
  rewrite get_set.
  destruct (r =? r') eqn:Er; simpl.
  - apply Z.eqb_eq in Er; subst r'.
    destruct (Dict.get r (data m)) as [d|] eqn:Ed; simpl.
    + rewrite Ed, get_set. reflexivity.
    + rewrite !get_set, Z.eqb_refl. simpl. destruct (c =? c'); reflexivity.
  - destruct (Dict.get r (data m)) as [d|] eqn:Ed; simpl; [reflexivity|].
    rewrite get_set, Er. reflexivity.
Qed.

Lemma get_element_set_element m r c v r' c' :
  get_element (set_element m r c v) r' c' =
  if (r =? r') && (c =? c') then v else get_element m r' c'.
Proof.
  rewrite !get_element_entry, entry_set_element.
  destruct ((r =? r') && (c =? c')); reflexivity.
Qed.

Lemma wf_init n p : wf (__init__ n p).
Proof. split; [apply NoDup_nil_2 | constructor]. Qed.

Lemma wf_set_element m r c v : wf m -> wf (set_element m r c v).
Proof.
  intros [Hk Hr]. unfold set_element, Dict.mem, Dict.get_default.
  destruct (Dict.get r (data m)) as [d|] eqn:Ed; simpl.
  - rewrite Ed. split; [apply wf_set; assumption|].
    apply Forall_set; [assumption|]. simpl. apply wf_set.
    apply get_Some_elem_of in Ed. rewrite Forall_forall in Hr.
    apply (Hr (r, d)). assumption.
  - rewrite get_set, Z.eqb_refl. split; [do 2 apply wf_set; assumption|].
    apply Forall_set; [apply Forall_set|]; simpl; try assumption;
      [apply NoDup_nil_2 | apply (wf_set c v []), NoDup_nil_2].
Qed.

(** ** Loops *)

Lemma for_each_app {A S} (xs ys : list A) (body : A -> S -> S) s :
  for_each (xs ++ ys) body s = for_each ys body (for_each xs body s).
Proof. apply fold_left_app. Qed.

Lemma for_each_fmap {A B S} (g : A -> B) (xs : list A) (body : B -> S -> S) s :
  for_each (g <$> xs) body s = for_each xs (fun x => body (g x)) s.
Proof.
  revert s. induction xs as [|x xs IH]; intros s; [reflexivity|]. apply IH.
Qed.

Lemma for_each_bind {A B S} (f : A -> list B) (xs : list A) (body : B -> S -> S) s :
  for_each (xs ≫= f) body s = for_each xs (fun x => for_each (f x) body) s.
Proof.
  revert s. induction xs as [|x xs IH]; intros s; [reflexivity|].
  csimpl. rewrite for_each_app. apply IH.
Qed.

Lemma for_each_ext {A S} (xs : list A) (body body' : A -> S -> S) s :
  (forall x s, body x s = body' x s) ->
  for_each xs body s = for_each xs body' s.
Proof.
  intros Hext. revert s. induction xs as [|x xs IH]; intros s; [reflexivity|].
  simpl. rewrite Hext. apply IH.
Qed.

(** The two nested loops over [data] visit the stored keys. *)
Lemma for_each_stored_keys {S} (m : SparseMatrix) (body : Z -> Z -> S -> S) s :
  for_each (Dict.keys (data m)) (fun row =>
    for_each (Dict.keys (row_of m row)) (fun col => body row col)) s =
  for_each (stored_keys m) (fun k => body k.1 k.2) s.
Proof.
  unfold stored_keys. rewrite for_each_bind. apply for_each_ext.
  intros row s'. rewrite for_each_fmap. reflexivity.
Qed.

Lemma elem_of_stored_keys m r c : (r, c) ∈ stored_keys m <-> is_Some (entry m r c).
Proof.
  unfold stored_keys, entry, row_of, Dict.get_default.
  rewrite list_elem_of_bind. split.
  - intros (row & Hin & Hrow). apply list_elem_of_fmap in Hin as (col & [= -> ->] & Hcol).
    apply elem_of_keys_get in Hrow as [d Hd]. rewrite Hd in *.
    apply elem_of_keys_get. assumption.
  - destruct (Dict.get r (data m)) as [d|] eqn:Hd; [|intros [? [=]]].
    intros Hc. exists r. split.
    + rewrite Hd. apply list_elem_of_fmap. exists c. split; [reflexivity|].
      apply elem_of_keys_get. assumption.
    + apply elem_of_keys_get. eauto.
Qed.

Lemma NoDup_stored_keys m : wf m -> NoDup (stored_keys m).
Proof.
  intros [Hk Hr]. unfold stored_keys. apply NoDup_bind; [| |exact Hk].
  - intros r1 r2 [r c] _ _ H1 H2.
    apply list_elem_of_fmap in H1 as (? & [= -> ->] & _).
    apply list_elem_of_fmap in H2 as (? & [= -> ->] & _). reflexivity.
  - intros row Hrow. apply NoDup_fmap_2; [intros ? ? [=]; assumption|].
    apply elem_of_keys_get in Hrow as [d Hd].
    unfold row_of, Dict.get_default. rewrite Hd.
    apply get_Some_elem_of in Hd. rewrite Forall_forall in Hr. apply (Hr _ Hd).
Qed.

(** *** Loops that write a value computed from the old one *)

Lemma update_all_cons g k ks res :
  update_all g (k :: ks) res =
  update_all g ks (set_element res k.1 k.2 (g (get_element res k.1 k.2) k.1 k.2)).
Proof. reflexivity. Qed.

Lemma rows_cols_update_all g ks res :
  rows (update_all g ks res) = rows res /\ cols (update_all g ks res) = cols res.
Proof.
  revert res. induction ks as [|k ks IH]; intros res; [split; reflexivity|].
  rewrite update_all_cons.
  destruct (IH (set_element res k.1 k.2 (g (get_element res k.1 k.2) k.1 k.2))) as [-> ->].
  split; reflexivity.
Qed.

Lemma entry_update_all_other g ks res r c :
  (r, c) ∉ ks -> entry (update_all g ks res) r c = entry res r c.
Proof.
  revert res. induction ks as [|[r0 c0] ks IH]; intros res Hnotin; [reflexivity|].
  apply not_elem_of_cons in Hnotin as [Hne Hnotin].
  rewrite update_all_cons, IH by assumption. simpl.
  rewrite entry_set_element.
  destruct ((r0 =? r) && (c0 =? c)) eqn:E; [|reflexivity].
  apply andb_true_iff in E as [->%Z.eqb_eq ->%Z.eqb_eq]. contradiction.
Qed.

Lemma entry_update_all_written g ks res r c :
  NoDup ks -> (r, c) ∈ ks ->
  entry (update_all g ks res) r c = Some (g (get_element res r c) r c).
Proof.
  revert res. induction ks as [|[r0 c0] ks IH]; intros res Hnd Hin.
  - apply elem_of_nil in Hin as [].
  - apply NoDup_cons in Hnd as [Hnotin Hnd].
    apply elem_of_cons in Hin as [[= <- <-]|Hin].
    + rewrite update_all_cons, entry_update_all_other by assumption. simpl.
      rewrite entry_set_element, !Z.eqb_refl. reflexivity.
    + rewrite update_all_cons, IH by assumption. simpl.
      rewrite get_element_set_element.
      destruct ((r0 =? r) && (c0 =? c)) eqn:E; [|reflexivity].
      apply andb_true_iff in E as [->%Z.eqb_eq ->%Z.eqb_eq]. contradiction.
Qed.

(** *** The loop of [multiply]: a value is written when it is not zero *)

Lemma rows_cols_write_nonzero f ks res :
  rows (write_nonzero f ks res) = rows res /\ cols (write_nonzero f ks res) = cols res.
Proof.
  revert res. induction ks as [|k ks IH]; intros res; [split; reflexivity|].
  unfold write_nonzero in *. simpl.
  destruct (negb (f k.1 k.2 =? 0)); [|apply IH].
  destruct (IH (set_element res k.1 k.2 (f k.1 k.2))) as [-> ->]. split; reflexivity.
Qed.

Lemma entry_write_nonzero f ks res r c :
  entry (write_nonzero f ks res) r c =
  if bool_decide ((r, c) ∈ ks) && negb (f r c =? 0) then Some (f r c) else entry res r c.
Proof.
  revert res. induction ks as [|[r0 c0] ks IH]; intros res; [reflexivity|].
  unfold write_nonzero in *. simpl. rewrite IH. clear IH.
  destruct (negb (f r c =? 0)) eqn:Hf.
  - rewrite !andb_true_r.
    destruct (bool_decide ((r, c) ∈ ks)) eqn:Hks.
    + apply bool_decide_eq_true in Hks.
      rewrite bool_decide_eq_true_2 by (right; assumption). reflexivity.
    + apply bool_decide_eq_false in Hks.
      destruct (decide ((r, c) = (r0, c0))) as [[= -> ->]|Hne].
      * rewrite bool_decide_eq_true_2 by left. rewrite Hf.
        rewrite entry_set_element, !Z.eqb_refl. reflexivity.
      * rewrite bool_decide_eq_false_2
          by (intros [?|?]%elem_of_cons; contradiction).
        destruct (negb (f r0 c0 =? 0)); [|reflexivity].
        rewrite entry_set_element.
        destruct ((r0 =? r) && (c0 =? c)) eqn:E; [|reflexivity].
        apply andb_true_iff in E as [->%Z.eqb_eq ->%Z.eqb_eq]. contradiction.
  - rewrite !andb_false_r.
    destruct (negb (f r0 c0 =? 0)) eqn:Hf0; [|reflexivity].
    rewrite entry_set_element.
    destruct ((r0 =? r) && (c0 =? c)) eqn:E; [|reflexivity].
    apply andb_true_iff in E as [->%Z.eqb_eq ->%Z.eqb_eq]. congruence.
Qed.

Lemma for_each_range_sum (f : Z -> Z) n a :
  for_each (range n) (fun k acc => acc + f k) a = a + sum_below (Z.to_nat n) f.
Proof.
  unfold range. induction (Z.to_nat n) as [|N IH]; [simpl; lia|].
  rewrite seq_S, fmap_app, for_each_app, IH. simpl. lia.
Qed.

Lemma sum_below_zero n f : (forall k, f k = 0) -> sum_below n f = 0.
Proof. intros Hf. induction n as [|n IH]; simpl; [reflexivity|]. rewrite IH, Hf. reflexivity. Qed.

Lemma elem_of_range n k : k ∈ range n <-> 0 <= k < n.
Proof.
  unfold range. rewrite list_elem_of_fmap. split.
  - intros (i & -> & Hi). apply elem_of_seq in Hi. lia.
  - intros Hk. exists (Z.to_nat k). split; [lia|]. apply elem_of_seq. lia.
Qed.

(** ** [add] and [subtract] as two passes over the stored keys *)

Lemma add_combine A B :
  rows A = rows B -> cols A = cols B -> add A B = Ok (combine_with Z.add A B).
Proof.
  intros Hr Hc. unfold add. rewrite Hr, Hc, !Z.eqb_refl. simpl. f_equal.
  rewrite (for_each_stored_keys A
             (fun row col result => set_element result row col (get_element A row col))).
  rewrite (for_each_stored_keys B
             (fun row col result =>
                set_element result row col
                  (get_element result row col + get_element B row col))).
  rewrite <- Hr, <- Hc. reflexivity.
Qed.

Lemma subtract_combine A B :
  rows A = rows B -> cols A = cols B -> subtract A B = Ok (combine_with Z.sub A B).
Proof.
  intros Hr Hc. unfold subtract. rewrite Hr, Hc, !Z.eqb_refl. simpl. f_equal.
  rewrite (for_each_stored_keys A
             (fun row col result => set_element result row col (get_element A row col))).
  rewrite (for_each_stored_keys B
             (fun row col result =>
                set_element result row col
                  (get_element result row col - get_element B row col))).
  rewrite <- Hr, <- Hc. reflexivity.
Qed.

Lemma add_mismatch A B :
  rows A <> rows B \/ cols A <> cols B -> add A B = Raise (ValueError msg_add).
Proof.
  intros H. unfold add.
  destruct (rows A =? rows B) eqn:Er, (cols A =? cols B) eqn:Ec; try reflexivity.
  apply Z.eqb_eq in Er, Ec. tauto.
Qed.

Lemma subtract_mismatch A B :
  rows A <> rows B \/ cols A <> cols B -> subtract A B = Raise (ValueError msg_subtract).
Proof.
  intros H. unfold subtract.
  destruct (rows A =? rows B) eqn:Er, (cols A =? cols B) eqn:Ec; try reflexivity.
  apply Z.eqb_eq in Er, Ec. tauto.
Qed.

Lemma wf_update_all g ks res : wf res -> wf (update_all g ks res).
Proof.
  revert res. induction ks as [|k ks IH]; intros res Hwf; [assumption|].
  rewrite update_all_cons. apply IH, wf_set_element, Hwf.
Qed.

Lemma wf_combine_with op A B : wf (combine_with op A B).
Proof. unfold combine_with. do 2 apply wf_update_all. apply wf_init. Qed.

Lemma rows_cols_combine_with op A B :
  rows (combine_with op A B) = rows A /\ cols (combine_with op A B) = cols A.
Proof.
  unfold combine_with. split.
  - rewrite !(proj1 (rows_cols_update_all _ _ _)). reflexivity.
  - rewrite !(proj2 (rows_cols_update_all _ _ _)). reflexivity.
Qed.

(** The first pass copies the stored entries of [A]. *)
Lemma entry_copy A r c :
  wf A ->
  entry (update_all (fun _ r c => get_element A r c) (stored_keys A)
           (__init__ (rows A) (cols A))) r c = entry A r c.
Proof.
  intros HA. destruct (decide ((r, c) ∈ stored_keys A)) as [Hin|Hnotin].
  - rewrite entry_update_all_written by auto using NoDup_stored_keys.
    apply elem_of_stored_keys in Hin as [a Ha].
    rewrite get_element_entry, Ha. reflexivity.
  - rewrite entry_update_all_other by assumption. rewrite entry_init.
    rewrite elem_of_stored_keys in Hnotin.
    destruct (entry A r c); [exfalso; eauto | reflexivity].
Qed.

Lemma entry_combine_with op A B r c :
  wf A -> wf B ->
  entry (combine_with op A B) r c =
  match entry B r c with
  | Some b => Some (op (get_element A r c) b)
  | None => entry A r c
  end.
Proof.
  intros HA HB. unfold combine_with.
  destruct (decide ((r, c) ∈ stored_keys B)) as [Hin|Hnotin].
  - rewrite entry_update_all_written by auto using NoDup_stored_keys.
    rewrite (get_element_entry (update_all _ _ _)), entry_copy by assumption.
    rewrite <- get_element_entry.
    apply elem_of_stored_keys in Hin as [b Hb].
    rewrite (get_element_entry B), Hb. reflexivity.
  - rewrite entry_update_all_other by assumption.
    rewrite entry_copy by assumption.
    rewrite elem_of_stored_keys in Hnotin.
    destruct (entry B r c); [exfalso; eauto | reflexivity].
Qed.

Lemma get_element_combine_with op A B r c :
  wf A -> wf B -> (forall x, op x 0 = x) ->
  get_element (combine_with op A B) r c = op (get_element A r c) (get_element B r c).
Proof.
  intros HA HB Hop.
  rewrite (get_element_entry (combine_with _ _ _)), entry_combine_with by assumption.
  rewrite (get_element_entry B).
  destruct (entry B r c); simpl; [reflexivity|].
  rewrite Hop. symmetry. apply get_element_entry.
Qed.

Lemma stored_keys_combine_with op A B r c :
  wf A -> wf B ->
  (r, c) ∈ stored_keys (combine_with op A B) <->
  (r, c) ∈ stored_keys A \/ (r, c) ∈ stored_keys B.
Proof.
  intros HA HB. rewrite !elem_of_stored_keys, entry_combine_with by assumption.
  destruct (entry B r c), (entry A r c); split; eauto;
    intros [[? [=]]|[? [=]]].
Qed.

(** ** [multiply] as one pass over rows and columns *)

Lemma multiply_write_nonzero A B :
  cols A = rows B ->
  multiply A B =
  Ok (write_nonzero (dot_product A B) (product_keys A B) (__init__ (rows A) (cols B))).
Proof.
  intros Hd. unfold multiply. rewrite Hd, Z.eqb_refl. simpl. f_equal.
  unfold write_nonzero, product_keys. rewrite for_each_bind.
  apply for_each_ext. intros row res. rewrite for_each_fmap.
  apply for_each_ext. intros col res'. simpl.
  rewrite (for_each_range_sum (fun k => get_element A row k * get_element B k col)).
  unfold dot_product. rewrite Hd, Z.add_0_l. reflexivity.
Qed.

Lemma multiply_mismatch A B :
  cols A <> rows B -> multiply A B = Raise (ValueError msg_multiply).
Proof.
  intros H. unfold multiply. apply Z.eqb_neq in H. rewrite H. reflexivity.
Qed.

Lemma elem_of_product_keys A B i j :
  (i, j) ∈ product_keys A B <-> i ∈ Dict.keys (data A) /\ 0 <= j < cols B.
Proof.
  unfold product_keys. rewrite list_elem_of_bind. split.
  - intros (row & Hin & Hrow). apply list_elem_of_fmap in Hin as (col & [= -> ->] & Hcol).
    apply elem_of_range in Hcol. auto.
  - intros [Hi Hj]. exists i. split; [|assumption].
    apply list_elem_of_fmap. exists j. split; [reflexivity|]. apply elem_of_range, Hj.
Qed.

(** A row without stored entry contributes a zero dot product. *)
Lemma dot_product_absent_row A B i j :
  i ∉ Dict.keys (data A) -> dot_product A B i j = 0.
Proof.
  intros Hi. apply sum_below_zero. intros k.
  apply get_None_keys in Hi. unfold get_element, Dict.get_default. rewrite Hi.
  reflexivity.
Qed.

Lemma wf_exA : wf exA.
Proof. do 2 apply wf_set_element. apply wf_init. Qed.

Lemma wf_exB : wf exB.
Proof. do 2 apply wf_set_element. apply wf_init. Qed.

(** ** The operators *)

(** C1.  [A.multiply(B)] raises the dimension error exactly when
    [cols A <> rows B].  Otherwise it returns a matrix with the rows of [A]
    and the columns of [B] whose element at [(i, j)], for every column [j]
    in range (and every row [i], in range or not), is the dot product of
    row [i] of [A] and column [j] of [B] over [k] in [0 .. cols A]; a
    coordinate whose dot product is 0 has no stored entry. *)
Theorem multiply_correct (A B : SparseMatrix) :
  ((exists e, multiply A B = Raise e /\ DimensionMismatch e) <-> cols A <> rows B) /\
  (cols A = rows B ->
   exists P, multiply A B = Ok P /\ rows P = rows A /\ cols P = cols B /\
     (forall i j, 0 <= j < cols B -> get_element P i j = dot_product A B i j) /\
     (forall i j, dot_product A B i j = 0 -> entry P i j = None)).
Proof.
  split.
  - split.
    + intros (e & He & _) Heq. rewrite multiply_write_nonzero in He by assumption.
      discriminate.
    + intros Hne. exists (ValueError msg_multiply).
      split; [apply multiply_mismatch, Hne | right; right; reflexivity].
  - intros Hd. eexists. split; [apply multiply_write_nonzero, Hd|].
    split; [apply (proj1 (rows_cols_write_nonzero _ _ (__init__ _ _)))|].
    split; [apply (proj2 (rows_cols_write_nonzero _ _ (__init__ _ _)))|]. split.
    + intros i j Hj. rewrite get_element_entry, entry_write_nonzero, entry_init.
      destruct (bool_decide ((i, j) ∈ product_keys A B)) eqn:Hin; simpl.
      * destruct (dot_product A B i j =? 0) eqn:Hz; simpl; [|reflexivity].
        apply Z.eqb_eq in Hz. congruence.
      * apply bool_decide_eq_false in Hin. rewrite elem_of_product_keys in Hin.
        symmetry. apply dot_product_absent_row. tauto.
    + intros i j Hz. rewrite entry_write_nonzero, entry_init, Hz.
      rewrite andb_false_r. reflexivity.
Qed.

Lemma multiply_correct_witness :
  exists P, multiply exA exB = Ok P /\ rows P = 2 /\ cols P = 2 /\
    (forall i j, 0 <= j < 2 -> get_element P i j = dot_product exA exB i j) /\
    (forall i j, dot_product exA exB i j = 0 -> entry P i j = None).
Proof. exact (proj2 (multiply_correct exA exB) eq_refl). Defined.

(** C2.  For matrices of equal dimensions [A.add(B)] returns a matrix of
    the same dimensions whose element at every coordinate is the sum of the
    operands' elements; its stored keys are those of [A] together with those
    of [B], and every such key holds the sum, also when the sum is 0. *)
Theorem add_correct (A B : SparseMatrix) :
  wf A -> wf B -> rows A = rows B -> cols A = cols B ->
  exists S, add A B = Ok S /\ rows S = rows A /\ cols S = cols A /\
    (forall r c, get_element S r c = get_element A r c + get_element B r c) /\
    (forall r c, (r, c) ∈ stored_keys S <->
                 (r, c) ∈ stored_keys A \/ (r, c) ∈ stored_keys B) /\
    (forall r c, (r, c) ∈ stored_keys A \/ (r, c) ∈ stored_keys B ->
                 entry S r c = Some (get_element A r c + get_element B r c)).
Proof.
  intros HA HB Hr Hc. exists (combine_with Z.add A B).
  split; [apply add_combine; assumption|].
  split; [apply rows_cols_combine_with|].
  split; [apply rows_cols_combine_with|].
  split; [|split].
  - intros r c. apply get_element_combine_with; auto. intros x. lia.
  - intros r c. apply stored_keys_combine_with; assumption.
  - intros r c Hin. rewrite entry_combine_with by assumption.
    rewrite !elem_of_stored_keys in Hin. rewrite (get_element_entry B).
    destruct (entry B r c) as [b|] eqn:Eb; simpl; [reflexivity|].
    destruct Hin as [[a Ha]|[? [=]]].
    rewrite get_element_entry, Ha. simpl. f_equal. lia.
Qed.

Lemma add_correct_witness :
  exists S, add exA exB = Ok S /\ rows S = 2 /\ cols S = 2 /\
    (forall r c, get_element S r c = get_element exA r c + get_element exB r c) /\
    (forall r c, (r, c) ∈ stored_keys S <->
                 (r, c) ∈ stored_keys exA \/ (r, c) ∈ stored_keys exB) /\
    (forall r c, (r, c) ∈ stored_keys exA \/ (r, c) ∈ stored_keys exB ->
                 entry S r c = Some (get_element exA r c + get_element exB r c)).
Proof. exact (add_correct exA exB wf_exA wf_exB eq_refl eq_refl). Defined.

(** C3.  For matrices of equal dimensions [A.subtract(B)] returns a matrix
    of the same dimensions whose element at every coordinate is the
    difference of the operands' elements, so the opposite of [B]'s element
    at a key stored in [B] only; when the dimensions differ it raises the
    dimension error. *)
Theorem subtract_correct (A B : SparseMatrix) :
  (wf A -> wf B -> rows A = rows B -> cols A = cols B ->
   exists D, subtract A B = Ok D /\ rows D = rows A /\ cols D = cols A /\
     (forall r c, get_element D r c = get_element A r c - get_element B r c) /\
     (forall r c, (r, c) ∈ stored_keys B -> (r, c) ∉ stored_keys A ->
                  entry D r c = Some (- get_element B r c))) /\
  (rows A <> rows B \/ cols A <> cols B ->
   exists e, subtract A B = Raise e /\ DimensionMismatch e).
Proof.
  split.
  - intros HA HB Hr Hc. exists (combine_with Z.sub A B).
    split; [apply subtract_combine; assumption|].
    split; [apply rows_cols_combine_with|].
    split; [apply rows_cols_combine_with|]. split.
    + intros r c. apply get_element_combine_with; auto. intros x. lia.
    + intros r c HinB HnotA. rewrite entry_combine_with by assumption.
      rewrite elem_of_stored_keys in HinB, HnotA. destruct HinB as [b Hb].
      rewrite !get_element_entry, Hb.
      destruct (entry A r c); [exfalso; eauto | reflexivity].
  - intros Hne. exists (ValueError msg_subtract).
    split; [apply subtract_mismatch, Hne | right; left; reflexivity].
Qed.

Lemma subtract_correct_witness :
  (exists D, subtract exA exB = Ok D /\ rows D = 2 /\ cols D = 2 /\
     (forall r c, get_element D r c = get_element exA r c - get_element exB r c) /\
     (forall r c, (r, c) ∈ stored_keys exB -> (r, c) ∉ stored_keys exA ->
                  entry D r c = Some (- get_element exB r c))) /\
  (exists e, subtract exA (__init__ 3 2) = Raise e /\ DimensionMismatch e).
Proof.
  split.
  - exact (proj1 (subtract_correct exA exB) wf_exA wf_exB eq_refl eq_refl).
  - apply (proj2 (subtract_correct exA (__init__ 3 2))). left. discriminate.
Defined.

(** C6.  For matrices of equal dimensions, subtracting [B] from
    [A.add(B)] succeeds and gives a matrix with the dimensions of [A] and,
    at every coordinate, the element of [A]. *)
Theorem add_subtract_roundtrip (A B : SparseMatrix) :
  wf A -> wf B -> rows A = rows B -> cols A = cols B ->
  exists S D, add A B = Ok S /\ subtract S B = Ok D /\
    rows D = rows A /\ cols D = cols A /\
    (forall r c, get_element D r c = get_element A r c).
Proof.
  intros HA HB Hr Hc.
  exists (combine_with Z.add A B), (combine_with Z.sub (combine_with Z.add A B) B).
  destruct (rows_cols_combine_with Z.add A B) as [Hr1 Hc1].
  split; [apply add_combine; assumption|].
  split; [apply subtract_combine; congruence|].
  split; [rewrite (proj1 (rows_cols_combine_with _ _ _)); assumption|].
  split; [rewrite (proj2 (rows_cols_combine_with _ _ _)); assumption|].
  intros r c.
  rewrite get_element_combine_with by (auto using wf_combine_with; intros; lia).
  rewrite get_element_combine_with by (auto; intros; lia). lia.
Qed.

Lemma add_subtract_roundtrip_witness :
  exists S D, add exA exB = Ok S /\ subtract S exB = Ok D /\
    rows D = 2 /\ cols D = 2 /\
    (forall r c, get_element D r c = get_element exA r c).
Proof. exact (add_subtract_roundtrip exA exB wf_exA wf_exB eq_refl eq_refl). Defined.

(** C9.  For matrices of equal dimensions [A.add(B)] and [B.add(A)] have
    the same dimensions, the same stored keys, namely the keys of [A]
    together with the keys of [B], and the same value at every stored key. *)
Theorem add_commutative (A B : SparseMatrix) :
  wf A -> wf B -> rows A = rows B -> cols A = cols B ->
  exists S1 S2, add A B = Ok S1 /\ add B A = Ok S2 /\
    rows S1 = rows S2 /\ cols S1 = cols S2 /\
    (forall r c, (r, c) ∈ stored_keys S1 <->
                 (r, c) ∈ stored_keys A \/ (r, c) ∈ stored_keys B) /\
    (forall r c, (r, c) ∈ stored_keys S1 <-> (r, c) ∈ stored_keys S2) /\
    (forall r c, entry S1 r c = entry S2 r c).
Proof.
  intros HA HB Hr Hc.
  exists (combine_with Z.add A B), (combine_with Z.add B A).
  split; [apply add_combine; assumption|].
  split; [apply add_combine; congruence|].
  split; [rewrite !(proj1 (rows_cols_combine_with _ _ _)); assumption|].
  split; [rewrite !(proj2 (rows_cols_combine_with _ _ _)); assumption|].
  split; [|split].
  - intros r c. apply stored_keys_combine_with; assumption.
  - intros r c. rewrite !stored_keys_combine_with by assumption. tauto.
  - intros r c. rewrite !entry_combine_with by assumption.
    rewrite !get_element_entry.
    destruct (entry A r c), (entry B r c); simpl; try reflexivity; f_equal; lia.
Qed.

Lemma add_commutative_witness :
  exists S1 S2, add exA exB = Ok S1 /\ add exB exA = Ok S2 /\
    rows S1 = rows S2 /\ cols S1 = cols S2 /\
    (forall r c, (r, c) ∈ stored_keys S1 <->
                 (r, c) ∈ stored_keys exA \/ (r, c) ∈ stored_keys exB) /\
    (forall r c, (r, c) ∈ stored_keys S1 <-> (r, c) ∈ stored_keys S2) /\
    (forall r c, entry S1 r c = entry S2 r c).
Proof. exact (add_commutative exA exB wf_exA wf_exB eq_refl eq_refl). Defined.

(** C7.  [get_element] is a total function of the matrix and of two
    integers, in range or not: it returns the value stored under the key
    when the row dictionary holds the column, and 0 when the row is absent
    or the row dictionary lacks the column. *)
Theorem get_element_total (m : SparseMatrix) (row col : Z) :
  wf m ->
  (forall d v, (row, d) ∈ data m -> (col, v) ∈ d -> get_element m row col = v) /\
  (row ∉ Dict.keys (data m) -> get_element m row col = 0) /\
  (forall d, (row, d) ∈ data m -> col ∉ Dict.keys d -> get_element m row col = 0).
Proof.
  intros [Hk Hr]. unfold get_element, Dict.get_default. repeat split.
  - intros d v Hd Hv. rewrite (elem_of_get _ _ _ Hk Hd).
    rewrite Forall_forall in Hr. specialize (Hr _ Hd). simpl in Hr.
    rewrite (elem_of_get _ _ _ Hr Hv). reflexivity.
  - intros Hrow. apply get_None_keys in Hrow. rewrite Hrow. reflexivity.
  - intros d Hd Hcol. rewrite (elem_of_get _ _ _ Hk Hd).
    apply get_None_keys in Hcol. rewrite Hcol. reflexivity.
Qed.

Lemma get_element_total_witness :
  (forall d v, (1, d) ∈ data exA -> (-5, v) ∈ d -> get_element exA 1 (-5) = v) /\
  (1 ∉ Dict.keys (data exA) -> get_element exA 1 (-5) = 0) /\
  (forall d, (1, d) ∈ data exA -> -5 ∉ Dict.keys d -> get_element exA 1 (-5) = 0).
Proof. exact (get_element_total exA 1 (-5) wf_exA). Defined.

(** ** Strings *)

Lemma numeric_plain c :
  numeric c = true ->
  isspace c = false /\ int_space c = false /\ Ascii.eqb c LF = false /\
  Ascii.eqb c CR = false /\ Ascii.eqb c "," = false /\ Ascii.eqb c "=" = false.
Proof.
  destruct c as [[] [] [] [] [] [] [] []]; vm_compute; intuition discriminate.
Qed.

Lemma drop_while_all (p : ascii -> bool) pre s :
  Forall (fun c => p c = true) pre -> drop_while p (pre ++ s) = drop_while p s.
Proof. induction 1 as [|c pre Hc _ IH]; simpl; [reflexivity|]. rewrite Hc. exact IH. Qed.

Lemma drop_while_stop (p : ascii -> bool) a s :
  p a = false -> drop_while p (a :: s) = a :: s.
Proof. intros Ha. simpl. rewrite Ha. reflexivity. Qed.

Lemma drop_while_outside (p : ascii -> bool) s post :
  starts_outside p s -> drop_while p (s ++ post) = s ++ post.
Proof. destruct s as [|a t]; simpl; [tauto|]. intros ->. reflexivity. Qed.

Lemma trim_padded (p : ascii -> bool) pre s post :
  Forall (fun c => p c = true) pre -> Forall (fun c => p c = true) post ->
  starts_outside p s -> ends_outside p s -> trim p (pre ++ s ++ post) = s.
Proof.
  intros Hpre Hpost Hs He. unfold trim.
  rewrite drop_while_all, drop_while_outside by assumption.
  rewrite rev_app_distr, drop_while_all by (apply Forall_rev; assumption).
  rewrite <- (app_nil_r (rev s)), drop_while_outside, app_nil_r by assumption.
  apply rev_involutive.
Qed.

Lemma starts_outside_app (p : ascii -> bool) s1 s2 :
  starts_outside p s1 -> starts_outside p (s1 ++ s2).
Proof. destruct s1; simpl; tauto. Qed.

Lemma ends_outside_app (p : ascii -> bool) s1 s2 :
  ends_outside p s2 -> ends_outside p (s1 ++ s2).
Proof. unfold ends_outside. rewrite rev_app_distr. apply starts_outside_app. Qed.

Lemma starts_outside_all (p : ascii -> bool) s :
  s <> [] -> Forall (fun c => p c = false) s -> starts_outside p s.
Proof. intros Hne Hall. destruct Hall; [contradiction | assumption]. Qed.

Lemma ends_outside_all (p : ascii -> bool) s :
  s <> [] -> Forall (fun c => p c = false) s -> ends_outside p s.
Proof.
  intros Hne Hall. apply starts_outside_all; [|apply Forall_rev, Hall].
  intros Hrev. apply Hne. rewrite <- (rev_involutive s), Hrev. reflexivity.
Qed.

Lemma split_no_sep sep s :
  Forall (fun c => Ascii.eqb c sep = false) s -> split sep s = [s].
Proof.
  induction 1 as [|c s Hc _ IH]; simpl; [reflexivity|]. rewrite Hc, IH. reflexivity.
Qed.

Lemma split_at_sep sep s rest :
  Forall (fun c => Ascii.eqb c sep = false) s ->
  split sep (s ++ sep :: rest) = s :: split sep rest.
Proof.
  induction 1 as [|c s Hc _ IH]; simpl.
  - rewrite Ascii.eqb_refl. reflexivity.
  - rewrite Hc, IH. reflexivity.
Qed.

Lemma slice_inner a body z : slice 1 (-1) (a :: body ++ [z]) = body.
Proof.
  unfold slice, slice_bound. simpl length. rewrite length_app. simpl length.
  replace (1 <? 0) with false by reflexivity.
  replace (-1 <? 0) with true by reflexivity.
  rewrite Z.min_l, Z.max_r by lia.
  change (Z.to_nat 1) with 1%nat. simpl skipn.
  replace (Z.to_nat _) with (length body) by lia.
  rewrite skipn_O, firstn_app, firstn_all, Nat.sub_diag. simpl. apply app_nil_r.
Qed.

Lemma universal_newlines_no_CR s :
  Forall (fun c => Ascii.eqb c CR = false) s -> universal_newlines s = s.
Proof.
  induction 1 as [|c s Hc _ IH]; cbn [universal_newlines]; [reflexivity|].
  rewrite Hc, IH. reflexivity.
Qed.

Lemma file_lines_line l rest :
  Forall (fun c => Ascii.eqb c LF = false) l ->
  file_lines (l ++ LF :: rest) = (l ++ [LF]) :: file_lines rest.
Proof.
  induction 1 as [|c l Hc _ IH]; cbn [file_lines app].
  - rewrite Ascii.eqb_refl. reflexivity.
  - rewrite Hc, IH. reflexivity.
Qed.

Lemma file_lines_concat ls :
  Forall (Forall (fun c => Ascii.eqb c LF = false)) ls ->
  file_lines (concat ((fun l => l ++ [LF]) <$> ls)) = (fun l => l ++ [LF]) <$> ls.
Proof.
  induction 1 as [|l ls Hl _ IH]; csimpl; [reflexivity|].
  rewrite <- app_assoc. simpl. rewrite file_lines_line, IH by assumption. reflexivity.
Qed.

(** ** Formatting and reading integers *)

Lemma numeric_uint d :
  Forall (fun c => numeric c = true) (lit (NilEmpty.string_of_uint d)).
Proof. induction d; simpl; constructor; auto. Qed.

Lemma int_digits_acc d acc :
  int_digits (Z.pos acc) true (lit (NilEmpty.string_of_uint d)) =
  Some (Z.pos (Pos.of_uint_acc d acc)).
Proof.
  revert acc. induction d; intros acc; [reflexivity|..];
    cbn [NilEmpty.string_of_uint lit list_ascii_of_string int_digits Pos.of_uint_acc];
    match goal with
    | |- context [digit_value ?c] =>
        let v := eval vm_compute in (digit_value c) in
        change (digit_value c) with v; cbv iota
    end;
    rewrite <- IHd; f_equal; lia.
Qed.

Lemma int_digits_uint d b :
  d <> Decimal.Nil ->
  int_digits 0 b (lit (NilEmpty.string_of_uint d)) = Some (Z.of_N (Pos.of_uint d)).
Proof.
  revert b. induction d; intros b Hd; [contradiction|..];
    cbn [NilEmpty.string_of_uint lit list_ascii_of_string int_digits Pos.of_uint];
    match goal with
    | |- context [digit_value ?c] =>
        let v := eval vm_compute in (digit_value c) in
        change (digit_value c) with v; cbv iota
    end;
    try (change (10 * 0 + 1) with 1; change (10 * 0 + 2) with 2;
         change (10 * 0 + 3) with 3; change (10 * 0 + 4) with 4;
         change (10 * 0 + 5) with 5; change (10 * 0 + 6) with 6;
         change (10 * 0 + 7) with 7; change (10 * 0 + 8) with 8;
         change (10 * 0 + 9) with 9; exact (int_digits_acc _ _)).
  change (10 * 0 + 0) with 0.
  destruct d; [reflexivity | apply IHd; discriminate ..].
Qed.

(** The text of an integer: a sign for a negative number, then the digits
    of the absolute value. *)
Lemma decimal_digits z :
  exists d, d <> Decimal.Nil /\ Z.of_N (Pos.of_uint d) = Z.abs z /\
    decimal z =
    (if z <? 0 then ["-"%char] else []) ++ lit (NilEmpty.string_of_uint d) /\
    decimal (Z.abs z) = lit (NilEmpty.string_of_uint d).
Proof.
  destruct z as [|p|p].
  - exists (Decimal.D0 Decimal.Nil). repeat split. discriminate.
  - exists (Pos.to_uint p). split; [apply Unsigned.to_uint_nonnil|].
    split; [rewrite Unsigned.of_to; reflexivity|].
    unfold decimal. simpl. unfold NilZero.string_of_uint.
    pose proof (Unsigned.to_uint_nonnil p). destruct (Pos.to_uint p); [congruence|..];
      split; reflexivity.
  - exists (Pos.to_uint p). split; [apply Unsigned.to_uint_nonnil|].
    split; [rewrite Unsigned.of_to; reflexivity|].
    unfold decimal. simpl. unfold NilZero.string_of_uint.
    pose proof (Unsigned.to_uint_nonnil p). destruct (Pos.to_uint p); [congruence|..];
      split; reflexivity.
Qed.

Lemma decimal_numeric z : Forall (fun c => numeric c = true) (decimal z).
Proof.
  destruct (decimal_digits z) as (d & _ & _ & -> & _).
  apply Forall_app. split; [|apply numeric_uint].
  destruct (z <? 0); repeat constructor.
Qed.

Lemma decimal_nonempty z : decimal z <> [].
Proof.
  destruct (decimal_digits z) as (d & Hd & _ & -> & _).
  destruct (z <? 0); [discriminate|]. destruct d; [contradiction|..]; discriminate.
Qed.

Lemma decimal_avoids (p : ascii -> bool) z :
  (forall c, numeric c = true -> p c = false) ->
  Forall (fun c => p c = false) (decimal z).
Proof.
  intros Hp. eapply Forall_impl; [apply decimal_numeric | exact Hp].
Qed.

(** ** The limit on the number of digits *)

Lemma digit_value_range c d : digit_value c = Some d -> 0 <= d <= 9.
Proof.
  unfold digit_value, code_in. destruct (_ && _)%bool eqn:E; [|discriminate].
  intros [= <-]. apply andb_true_iff in E as [E1 E2].
  apply N.leb_le in E1, E2. lia.
Qed.

Lemma digits_uint d :
  Forall (fun c => is_Some (digit_value c)) (lit (NilEmpty.string_of_uint d)).
Proof. induction d; simpl; constructor; auto; vm_compute; eauto. Qed.

Lemma scan_digits_all s n p :
  s <> [] -> Forall (fun c => is_Some (digit_value c)) s ->
  scan_digits n p s = Some (n + length s)%nat.
Proof.
  intros Hne Hs. revert n p Hne.
  induction Hs as [|c s [x Hc] Hs IH]; intros n p Hne; [contradiction|].
  cbn [scan_digits length]. rewrite Hc.
  destruct s as [|c' s'].
  - simpl. f_equal. lia.
  - rewrite IH by discriminate. f_equal. simpl. lia.
Qed.

(** What [int_digits] reads lies between its start value followed by
    zeros and by nines, as many as there are digits. *)
Lemma int_digits_bounds s acc b n p v n' :
  int_digits acc b s = Some v -> scan_digits n p s = Some n' -> 0 <= acc ->
  exists k, n' = (n + k)%nat /\
    acc * 10 ^ Z.of_nat k <= v < (acc + 1) * 10 ^ Z.of_nat k /\
    (b = false -> (1 <= k)%nat).
Proof.
  revert acc b n p. induction s as [|c s IH]; intros acc b n p; cbn [int_digits scan_digits].
  - destruct b; [|discriminate]. destruct p; [discriminate|].
    intros [= <-] [= <-] Hacc. exists 0%nat. split; [lia|]. split; [|discriminate].
    change (10 ^ Z.of_nat 0) with 1. lia.
  - destruct (digit_value c) as [d|] eqn:Hd.
    + intros Hv Hn Hacc. apply digit_value_range in Hd.
      destruct (IH _ _ _ _ Hv Hn) as (k & -> & Hb & _); [lia|].
      exists (S k). split; [lia|]. split; [|lia].
      rewrite Nat2Z.inj_succ, Z.pow_succ_r by lia.
      assert (0 < 10 ^ Z.of_nat k) by (apply Z.pow_pos_nonneg; lia). nia.
    + destruct (Ascii.eqb c "_"); [|discriminate]. destruct b; [|discriminate].
      simpl. destruct p; [discriminate|]. intros Hv Hn Hacc.
      destruct (IH _ _ _ _ Hv Hn Hacc) as (k & -> & Hb & Hk).
      exists k. split; [reflexivity|]. split; [exact Hb|]. intros _. auto.
Qed.

(** The text of a positive number starts with a digit that is not 0. *)
Lemma to_uint_head p d : Pos.to_uint p <> Decimal.D0 d.
Proof.
  intros E. pose proof (DecimalPos.Unsigned.to_of (Pos.to_uint p)) as H.
  rewrite DecimalPos.Unsigned.of_to in H. change (N.to_uint (N.pos p)) with (Pos.to_uint p) in H.
  rewrite E, DecimalFacts.unorm_D0 in H.
  destruct d as [|d|d|d|d|d|d|d|d|d|d];
    [exact (Unsigned.to_uint_nonzero p E)|..];
    match goal with
    | H : _ = Decimal.unorm ?u |- _ =>
        pose proof (DecimalFacts.nb_digits_unorm u ltac:(discriminate)) as Hle;
        rewrite <- H in Hle; simpl in Hle; lia
    end.
Qed.

(** An integer is below the power of ten of its number of digits, and a
    nonzero one is not below the power before. *)
Lemma nb_digits_upper z : Z.abs z < 10 ^ Z.of_nat (nb_digits z).
Proof.
  destruct (decimal_digits z) as (d & Hd & Habs & _ & Htext). unfold nb_digits.
  rewrite Htext.
  pose proof (int_digits_uint d false Hd) as Hv.
  pose proof (scan_digits_all (lit (NilEmpty.string_of_uint d)) 0 false) as Hn.
  destruct (int_digits_bounds _ _ _ _ _ _ _ Hv (Hn
    ltac:(destruct d; [contradiction|..]; discriminate) (digits_uint d)) ltac:(lia))
    as (k & Hk & Hb & _).
  simpl in Hk. rewrite <- Hk in Hb. lia.
Qed.

Lemma nb_digits_lower z :
  z <> 0 -> 10 ^ Z.of_nat (nb_digits z - 1) <= Z.abs z.
Proof.
  intros Hz. unfold nb_digits.
  assert (exists p, Z.abs z = Z.pos p) as [p Hp] by (destruct z; [contradiction|eauto..]).
  rewrite Hp. unfold decimal. cbn [Z.to_int NilZero.string_of_int].
  unfold NilZero.string_of_uint.
  pose proof (Unsigned.to_uint_nonnil p) as Hnil.
  pose proof (to_uint_head p) as Hhead.
  pose proof (int_digits_uint (Pos.to_uint p) false Hnil) as Hv.
  rewrite Unsigned.of_to in Hv. cbn [Z.of_N] in Hv.
  pose proof (digits_uint (Pos.to_uint p)) as Hdigits.
  destruct (Pos.to_uint p) as [|d|d|d|d|d|d|d|d|d|d];
    [contradiction | exfalso; exact (Hhead d eq_refl) | ..];
    cbn [NilEmpty.string_of_uint lit list_ascii_of_string int_digits length] in *;
    match type of Hv with
    | context [digit_value ?c] =>
        let v := eval vm_compute in (digit_value c) in
        change (digit_value c) with v in Hv; cbv iota in Hv
    end;
    apply Forall_cons in Hdigits as [_ Hdigits];
    (destruct (list_ascii_of_string (NilEmpty.string_of_uint d)) as [|c rest] eqn:E;
     [ cbn [int_digits] in Hv; injection Hv as Hv; rewrite <- Hv; simpl; lia | ]);
    (destruct (int_digits_bounds _ _ _ 0%nat false _ _ Hv
       (scan_digits_all (c :: rest) _ _ ltac:(discriminate) Hdigits) ltac:(lia))
       as (k & Hk & Hb & _));
    simpl in Hk; subst k;
    replace (S (length (c :: rest)) - 1)%nat with (S (length rest)) by (simpl; lia);
    assert (0 < 10 ^ Z.of_nat (S (length rest))) by (apply Z.pow_pos_nonneg; lia);
    lia.
Qed.

(** The integers within the limit are those below 10 to the power
    [max_str_digits] in absolute value. *)
Lemma within_limit_spec z :
  within_limit z = true <-> Z.abs z < 10 ^ Z.of_nat max_str_digits.
Proof.
  unfold within_limit. rewrite Nat.leb_le. split.
  - intros Hle. eapply Z.lt_le_trans; [apply nb_digits_upper|].
    apply Z.pow_le_mono_r; lia.
  - intros Hlt. destruct (decide (z = 0)) as [->|Hz].
    + change (nb_digits 0) with 1%nat. unfold max_str_digits. lia.
    + pose proof (nb_digits_lower z Hz) as Hlow.
      destruct (decide (nb_digits z <= max_str_digits)%nat) as [|Hgt]; [assumption|].
      exfalso. apply (Z.lt_irrefl (Z.abs z)).
      eapply Z.lt_le_trans; [exact Hlt|]. eapply Z.le_trans; [|exact Hlow].
      apply Z.pow_le_mono_r; lia.
Qed.

Lemma str_of_int_cases z :
  str_of_int z =
  if within_limit z then Ok (decimal z) else Raise (ValueError msg_limit).
Proof.
  unfold str_of_int, within_limit.
  destruct (Nat.ltb_spec max_str_digits (nb_digits z));
    destruct (Nat.leb_spec (nb_digits z) max_str_digits); try reflexivity; lia.
Qed.

(** [int] raises nothing but [ValueError], and what it returns is within
    the limit. *)
Lemma int_ValueError s e : int s = Raise e -> exists msg, e = ValueError msg.
Proof.
  unfold int. destruct (trim int_space s) as [|c ds]; [intros [= <-]; eauto|].
  destruct (scan_digits 0 true _) as [n|]; [|intros [= <-]; eauto].
  destruct (_ <? _)%nat; [intros [= <-]; eauto|].
  destruct (int_digits 0 false _); [discriminate | intros [= <-]; eauto].
Qed.

Lemma int_within s z : int s = Ok z -> within_limit z = true.
Proof.
  unfold int. destruct (trim int_space s) as [|c ds]; [discriminate|].
  destruct (scan_digits 0 true _) as [n|] eqn:Hn; [|discriminate].
  destruct (Nat.ltb_spec max_str_digits n) as [|Hle]; [discriminate|].
  destruct (int_digits 0 false _) as [v|] eqn:Hv; [|discriminate].
  intros [= <-]. apply within_limit_spec.
  destruct (int_digits_bounds _ _ _ _ _ _ _ Hv Hn ltac:(lia)) as (k & Hk & Hb & _).
  simpl in Hk. subst k.
  assert (10 ^ Z.of_nat n <= 10 ^ Z.of_nat max_str_digits)
    by (apply Z.pow_le_mono_r; lia).
  destruct (Ascii.eqb c "-"); lia.
Qed.

(** The body of [int] on the text of an integer. *)
Lemma int_decimal_body z :
  match decimal z with
  | c :: ds =>
      let negative := Ascii.eqb c "-" in
      let body := if negative || Ascii.eqb c "+" then ds else c :: ds in
      match scan_digits 0 true body with
      | Some n =>
          if (max_str_digits <? n)%nat then Raise (ValueError msg_limit_int)
          else
            match int_digits 0 false body with
            | Some v => Ok (if negative then - v else v)
            | None => Raise (ValueError "invalid literal for int() with base 10")
            end
      | None => Raise (ValueError "invalid literal for int() with base 10")
      end
  | [] => Raise (ValueError "invalid literal for int() with base 10")
  end = if within_limit z then Ok z else Raise (ValueError msg_limit_int).
Proof.
  unfold within_limit, nb_digits.
  destruct (decimal_digits z) as (d & Hd & Habs & -> & ->).
  assert (lit (NilEmpty.string_of_uint d) <> []) as Hne
    by (destruct d; [contradiction|..]; discriminate).
  pose proof (scan_digits_all _ 0 true Hne (digits_uint d)) as Hscan.
  pose proof (int_digits_uint d false Hd) as Hv.
  assert ((max_str_digits <? 0 + length (lit (NilEmpty.string_of_uint d)))%nat =
          negb (length (lit (NilEmpty.string_of_uint d)) <=? max_str_digits)%nat)
    as Hlimit by (cbn [Nat.add]; apply Nat.ltb_antisym).
  destruct (z <? 0) eqn:Hneg.
  - cbn [app]. cbv zeta. rewrite Ascii.eqb_refl. cbn [orb].
    rewrite Hscan, Hlimit, Hv.
    destruct (_ <=? _)%nat; [|reflexivity]. cbn [negb]. f_equal. lia.
  - cbn [app].
    assert (exists c ds, lit (NilEmpty.string_of_uint d) = c :: ds /\
              Ascii.eqb c "-" = false /\ Ascii.eqb c "+" = false) as (c & ds & E & E1 & E2)
      by (destruct d; [contradiction|..]; do 2 eexists; repeat split).
    rewrite E in *. cbv zeta. rewrite E1, E2. cbn [orb].
    rewrite Hscan, Hlimit, Hv.
    destruct (_ <=? _)%nat; [|reflexivity]. cbn [negb]. f_equal. lia.
Qed.

(** [int] reads back a formatted integer, also between white space, when
    it is within the limit, and raises when it is not. *)
Lemma int_decimal pre z post :
  Forall (fun c => int_space c = true) pre ->
  Forall (fun c => int_space c = true) post ->
  int (pre ++ decimal z ++ post) =
  if within_limit z then Ok z else Raise (ValueError msg_limit_int).
Proof.
  intros Hpre Hpost. unfold int. rewrite trim_padded; try assumption.
  - apply int_decimal_body.
  - apply starts_outside_all; [apply decimal_nonempty|].
    apply decimal_avoids. intros c Hc. apply numeric_plain, Hc.
  - apply ends_outside_all; [apply decimal_nonempty|].
    apply decimal_avoids. intros c Hc. apply numeric_plain, Hc.
Qed.

Lemma int_decimal_plain z :
  int (decimal z) = if within_limit z then Ok z else Raise (ValueError msg_limit_int).
Proof.
  pose proof (int_decimal [] z []) as H. rewrite app_nil_r in H.
  apply H; constructor.
Qed.

Lemma int_plain z : within_limit z = true -> int (decimal z) = Ok z.
Proof. intros Hz. rewrite int_decimal_plain, Hz. reflexivity. Qed.

Lemma int_blank z : within_limit z = true -> int ([" "%char] ++ decimal z) = Ok z.
Proof.
  intros Hz. pose proof (int_decimal [" "%char] z []) as H.
  rewrite app_nil_r, Hz in H. apply H; repeat constructor.
Qed.

(** ** The text of a matrix, line by line *)

Lemma for_each_append {A} (f : A -> str) (ks : list A) (start : str) :
  for_each ks (fun k res => res ++ f k) start = start ++ concat (f <$> ks).
Proof.
  revert start. induction ks as [|k ks IH]; intros start; csimpl.
  - symmetry. apply app_nil_r.
  - unfold for_each in *. simpl. rewrite IH. symmetry. apply app_assoc.
Qed.

Lemma to_str_lines m : text_of m = concat ((fun l => l ++ [LF]) <$> text_lines m).
Proof.
  unfold text_of.
  rewrite (for_each_stored_keys m (fun row col result =>
    result ++ lit "(" ++ decimal row ++ lit ", " ++ decimal col ++ lit ", "
      ++ decimal (Dict.get_default col 0 (row_of m row)) ++ lit ")" ++ [LF])).
  rewrite (for_each_ext _ _ (fun k res => res ++ (entry_line m k ++ [LF]))).
  - rewrite for_each_append. unfold text_lines, header_lines.
    rewrite fmap_app, concat_app, <- list_fmap_compose. csimpl.
    rewrite <- !app_assoc. reflexivity.
  - intros k res. unfold entry_line, entry_body. rewrite <- !app_assoc. reflexivity.
Qed.

(** No character of a line ends a line, and a line starts and ends with a
    character that is not white space. *)
Ltac chars :=
  repeat first
    [ apply Forall_app; split
    | apply decimal_avoids; intros ? ?; apply numeric_plain; assumption
    | apply Forall_cons; split; [reflexivity|]
    | apply Forall_nil_2 ].

Lemma text_lines_chars (c0 : ascii) m :
  c0 = LF \/ c0 = CR ->
  Forall (Forall (fun c => Ascii.eqb c c0 = false)) (text_lines m).
Proof.
  intros Hc0. unfold text_lines, header_lines. apply Forall_app. split.
  - destruct Hc0 as [-> | ->]; repeat constructor; unfold lit; simpl; chars.
  - apply Forall_fmap, Forall_forall. intros k _. unfold entry_line, entry_body, lit.
    destruct Hc0 as [-> | ->]; simpl; chars.
Qed.

Lemma strip_text_line m l : l ∈ text_lines m -> strip (l ++ [LF]) = l /\ l <> [].
Proof.
  intros Hl. assert (starts_outside isspace l /\ ends_outside isspace l) as [Hs He].
  { unfold text_lines, header_lines in Hl. apply elem_of_app in Hl as [Hl|Hl].
    - assert (forall z, ends_outside isspace (decimal z)) as Hend.
      { intros z. apply ends_outside_all; [apply decimal_nonempty|].
        apply decimal_avoids. intros c Hc. apply numeric_plain, Hc. }
      apply elem_of_cons in Hl as [->|Hl];
        [|apply list_elem_of_singleton in Hl as ->];
        (split; [reflexivity | apply ends_outside_app, Hend]).
    - apply list_elem_of_fmap in Hl as (k & -> & _). unfold entry_line. split.
      + reflexivity.
      + do 2 apply ends_outside_app. reflexivity. }
  split.
  - apply (trim_padded isspace [] l [LF]); auto.
  - destruct l; [contradiction | discriminate].
Qed.

Lemma nonblank_lines_to_str m : nonblank_lines (text_of m) = text_lines m.
Proof.
  unfold nonblank_lines. rewrite to_str_lines.
  rewrite universal_newlines_no_CR.
  2:{ apply Forall_concat, Forall_fmap.
      eapply Forall_impl; [apply (text_lines_chars CR); auto|].
      intros l Hl. simpl. apply Forall_app. split; [assumption|].
      repeat constructor. }
  rewrite file_lines_concat by (apply text_lines_chars; auto).
  assert (forall ls, (forall l, l ∈ ls -> strip (l ++ [LF]) = l /\ l <> []) ->
    map strip (List.filter (fun line => negb (Nat.eqb (length (strip line)) 0))
                 ((fun l => l ++ [LF]) <$> ls)) = ls) as Hgen.
  { induction ls as [|l ls IH]; intros Hls; [reflexivity|]. csimpl.
    destruct (Hls l) as [Hl Hne]; [left|]. rewrite Hl.
    assert (negb (Nat.eqb (length l) 0) = true) as ->
      by (destruct l; [contradiction | reflexivity]).
    cbn [map]. rewrite Hl. f_equal.
    apply IH. intros l' Hl'. apply Hls. right. assumption. }
  apply Hgen, strip_text_line.
Qed.

(** ** What [__str__] returns *)

Lemma for_each_raising_app {A S} (xs ys : list A) (body : A -> S -> result S) s :
  for_each_raising (xs ++ ys) body s =
  (s' ← for_each_raising xs body s; for_each_raising ys body s').
Proof.
  revert s. induction xs as [|x xs IH]; intros s; [reflexivity|].
  cbn [app for_each_raising]. destruct (body x s) as [s1|e]; [apply IH | reflexivity].
Qed.

Lemma for_each_raising_fmap {A B S} (g : A -> B) (xs : list A)
    (body : B -> S -> result S) s :
  for_each_raising (g <$> xs) body s = for_each_raising xs (fun x => body (g x)) s.
Proof.
  revert s. induction xs as [|x xs IH]; intros s; [reflexivity|].
  csimpl. destruct (body (g x) s) as [s1|e]; [apply IH | reflexivity].
Qed.

Lemma for_each_raising_ext {A S} (xs : list A) (body body' : A -> S -> result S) s :
  (forall x s, body x s = body' x s) ->
  for_each_raising xs body s = for_each_raising xs body' s.
Proof.
  intros Hext. revert s. induction xs as [|x xs IH]; intros s; [reflexivity|].
  cbn [for_each_raising]. rewrite Hext.
  destruct (body' x s) as [s1|e]; [apply IH | reflexivity].
Qed.

Lemma for_each_raising_bind {A B S} (f : A -> list B) (xs : list A)
    (body : B -> S -> result S) s :
  for_each_raising (xs ≫= f) body s =
  for_each_raising xs (fun x => for_each_raising (f x) body) s.
Proof.
  revert s. induction xs as [|x xs IH]; intros s; [reflexivity|].
  csimpl. rewrite for_each_raising_app.
  destruct (for_each_raising (f x) body s) as [s1|e]; [apply IH | reflexivity].
Qed.

(** A loop that appends while a test holds, and raises when it fails. *)
Lemma for_each_raising_guard {A S} (ok : A -> bool) (step : A -> S -> S) e ks s :
  for_each_raising ks (fun k s => if ok k then Ok (step k s) else Raise e) s =
  if forallb ok ks then Ok (for_each ks step s) else Raise e.
Proof.
  revert s. induction ks as [|k ks IH]; intros s; [reflexivity|].
  cbn [for_each_raising forallb]. destruct (ok k); [|reflexivity]. apply IH.
Qed.

(** [__str__] returns the text of the matrix when every number it formats
    is within the limit, and raises otherwise. *)
Lemma str_cases m :
  __str__ m = if printable m then Ok (text_of m) else Raise (ValueError msg_limit).
Proof.
  unfold __str__, printable, text_of. rewrite !str_of_int_cases.
  destruct (within_limit (rows m)); [|reflexivity].
  destruct (within_limit (cols m)); [|reflexivity].
  cbn [mbind result_bind andb].
  rewrite (for_each_stored_keys m (fun row col result =>
    result ++ lit "(" ++ decimal row ++ lit ", " ++ decimal col ++ lit ", "
      ++ decimal (Dict.get_default col 0 (row_of m row)) ++ lit ")" ++ [LF])).
  rewrite <- (for_each_raising_guard
    (fun k => within_limit k.1 && within_limit k.2
              && within_limit (get_element m k.1 k.2))
    (fun k result =>
       result ++ lit "(" ++ decimal k.1 ++ lit ", " ++ decimal k.2 ++ lit ", "
         ++ decimal (Dict.get_default k.2 0 (row_of m k.1)) ++ lit ")" ++ [LF])).
  unfold stored_keys. rewrite for_each_raising_bind. apply for_each_raising_ext.
  intros row res. rewrite for_each_raising_fmap. apply for_each_raising_ext.
  intros col res'. cbn [fst snd]. rewrite !str_of_int_cases.
  change (get_element m row col) with (Dict.get_default col 0 (row_of m row)).
  destruct (within_limit row); [|reflexivity].
  destruct (within_limit col); [|reflexivity].
  destruct (within_limit _); reflexivity.
Qed.

Lemma str_printable m : printable m = true -> __str__ m = Ok (text_of m).
Proof. intros H. rewrite str_cases, H. reflexivity. Qed.

Lemma str_Ok m text : __str__ m = Ok text -> printable m = true /\ text = text_of m.
Proof.
  rewrite str_cases. destruct (printable m); [intros [= <-]; auto | discriminate].
Qed.

Lemma printable_spec m :
  printable m = true <->
  within_limit (rows m) = true /\ within_limit (cols m) = true /\
  forall k, k ∈ stored_keys m ->
    within_limit k.1 = true /\ within_limit k.2 = true /\
    within_limit (get_element m k.1 k.2) = true.
Proof.
  unfold printable. rewrite !andb_true_iff, forallb_forall. split.
  - intros [[Hr Hc] Hk]. split_and!; try assumption.
    intros k Hin. apply list_elem_of_In, Hk in Hin.
    rewrite !andb_true_iff in Hin. tauto.
  - intros (Hr & Hc & Hk). split_and!; try assumption.
    intros k Hin. apply list_elem_of_In, Hk in Hin.
    rewrite !andb_true_iff. tauto.
Qed.

(** ** Reading the text of a matrix back *)

Lemma header_token (name : string) z :
  Forall (fun c => Ascii.eqb c "=" = false) (lit name) ->
  within_limit z = true ->
  (token ← index (split "=" (lit name ++ "="%char :: decimal z)) 1; int token) = Ok z.
Proof.
  intros Hname Hz. rewrite split_at_sep by assumption.
  rewrite split_no_sep
    by (apply decimal_avoids; intros c Hc; apply numeric_plain, Hc).
  simpl. apply int_plain, Hz.
Qed.

Lemma read_entry_line m k matrix :
  within_limit k.1 = true -> within_limit k.2 = true ->
  within_limit (get_element m k.1 k.2) = true ->
  read_entry (entry_line m k) matrix =
  Ok (set_element matrix k.1 k.2 (get_element m k.1 k.2)).
Proof.
  intros H1 H2 H3. unfold read_entry, entry_line.
  change (lit "(" ++ entry_body m k ++ lit ")")
    with ("("%char :: entry_body m k ++ [")"%char]).
  rewrite slice_inner.
  change (entry_body m k)
    with (decimal k.1 ++ ","%char :: ([" "%char] ++ decimal k.2)
            ++ ","%char :: ([" "%char] ++ decimal (get_element m k.1 k.2))).
  assert (forall z, Forall (fun c => Ascii.eqb c "," = false) (decimal z)) as Hnum
    by (intros z; apply decimal_avoids; intros c Hc; apply numeric_plain, Hc).
  rewrite split_at_sep by apply Hnum.
  rewrite (split_at_sep "," ([" "%char] ++ decimal k.2))
    by (apply Forall_app; split; [repeat constructor | apply Hnum]).
  rewrite (split_no_sep "," ([" "%char] ++ decimal (get_element m k.1 k.2)))
    by (apply Forall_app; split; [repeat constructor | apply Hnum]).
  cbn [map]. rewrite int_plain, !int_blank by assumption. reflexivity.
Qed.

Lemma read_entry_lines m ks matrix :
  Forall (fun k => within_limit k.1 = true /\ within_limit k.2 = true /\
                   within_limit (get_element m k.1 k.2) = true) ks ->
  for_each_raising (entry_line m <$> ks) read_entry matrix =
  Ok (update_all (fun _ r c => get_element m r c) ks matrix).
Proof.
  intros Hks. revert matrix.
  induction Hks as [|k ks (H1 & H2 & H3) _ IH]; intros matrix; [reflexivity|].
  csimpl. rewrite read_entry_line by assumption. simpl. rewrite IH. reflexivity.
Qed.

Lemma from_file_to_str m :
  printable m = true ->
  from_file (text_of m) =
  Ok (update_all (fun _ r c => get_element m r c) (stored_keys m)
        (__init__ (rows m) (cols m))).
Proof.
  intros (Hr & Hc & Hk)%printable_spec.
  unfold from_file. rewrite nonblank_lines_to_str.
  unfold text_lines, header_lines. cbn [index nth_error app].
  cbn [mbind result_bind].
  pose proof (fun H => header_token "rows" (rows m) H Hr) as Hrows.
  pose proof (fun H => header_token "cols" (cols m) H Hc) as Hcols.
  change (lit "rows" ++ "="%char :: decimal (rows m))
    with (lit "rows=" ++ decimal (rows m)) in Hrows.
  change (lit "cols" ++ "="%char :: decimal (cols m))
    with (lit "cols=" ++ decimal (cols m)) in Hcols.
  unfold mbind, result_bind in *.
  destruct (index (split "=" (lit "rows=" ++ decimal (rows m))) 1) as [t1|e1];
    [|discriminate Hrows; repeat constructor].
  rewrite Hrows by repeat constructor.
  destruct (index (split "=" (lit "cols=" ++ decimal (cols m))) 1) as [t2|e2];
    [|discriminate Hcols; repeat constructor].
  rewrite Hcols by repeat constructor.
  cbn [try_except skipn]. apply read_entry_lines.
  apply Forall_forall. exact Hk.
Qed.

(** ** The text format *)

Lemma printable_one_entry v : printable (one_entry v) = within_limit v.
Proof.
  transitivity (within_limit 1 && within_limit 1
                && (within_limit 0 && within_limit 0 && within_limit v && true));
    [reflexivity|].
  change (within_limit 1) with true. change (within_limit 0) with true.
  destruct (within_limit v); reflexivity.
Qed.

Lemma within_limit_power : within_limit (10 ^ Z.of_nat max_str_digits) = false.
Proof.
  apply not_true_is_false. intros H%within_limit_spec.
  rewrite Z.abs_eq in H by (apply Z.pow_nonneg; lia).
  exact (Z.lt_irrefl _ H).
Qed.

(** C4, as stated: for every matrix, reading back its text succeeds and
    gives a matrix with the same rows and cols and the same stored entries.
    This fails for a matrix that holds a number of more than 4300 digits,
    which [__str__] cannot format: for the matrix of [SparseMatrix(1, 1)]
    and [set_element(0, 0, 10 ** 4300)] there is no text to read back. *)
Lemma from_file_to_str_roundtrip_fails :
  wf ex_big /\
  __str__ ex_big = Raise (ValueError msg_limit) /\
  ~ (exists text m', __str__ ex_big = Ok text /\ from_file text = Ok m' /\
       rows m' = rows ex_big /\ cols m' = cols ex_big /\
       (forall r c, (r, c) ∈ stored_keys m' <-> (r, c) ∈ stored_keys ex_big) /\
       (forall r c, entry m' r c = entry ex_big r c)).
Proof.
  assert (__str__ ex_big = Raise (ValueError msg_limit)) as Hraise.
  { unfold ex_big. rewrite str_cases, printable_one_entry, within_limit_power.
    reflexivity. }
  split_and!; [apply wf_set_element, wf_init | exact Hraise |].
  intros (text & m' & Htext & _). rewrite Hraise in Htext. discriminate.
Qed.

(** C4, amended: for every matrix whose rows, cols and stored rows,
    columns and values have at most 4300 digits each, [__str__] returns a
    text, and reading it back succeeds and gives a matrix with the same
    rows and cols and the same stored entries: the same keys, each with
    the same value (a stored 0 included). *)
Theorem from_file_to_str_roundtrip (m : SparseMatrix) :
  wf m -> printable m = true ->
  exists text m', __str__ m = Ok text /\ from_file text = Ok m' /\
    rows m' = rows m /\ cols m' = cols m /\
    (forall r c, (r, c) ∈ stored_keys m' <-> (r, c) ∈ stored_keys m) /\
    (forall r c, entry m' r c = entry m r c).
Proof.
  intros Hwf Hp. do 2 eexists.
  split; [apply str_printable, Hp|]. split; [apply from_file_to_str, Hp|].
  split; [apply (proj1 (rows_cols_update_all _ _ (__init__ _ _)))|].
  split; [apply (proj2 (rows_cols_update_all _ _ (__init__ _ _)))|]. split.
  - intros r c. rewrite !elem_of_stored_keys, entry_copy by assumption. reflexivity.
  - intros r c. apply entry_copy, Hwf.
Qed.

Lemma from_file_to_str_roundtrip_witness :
  exists text m', __str__ exA = Ok text /\ from_file text = Ok m' /\
    rows m' = 2 /\ cols m' = 2 /\
    (forall r c, (r, c) ∈ stored_keys m' <-> (r, c) ∈ stored_keys exA) /\
    (forall r c, entry m' r c = entry exA r c).
Proof. exact (from_file_to_str_roundtrip exA wf_exA eq_refl). Defined.

(** ** Failures of [from_file] *)

Lemma int_result s :
  (exists z, int_literal s = Some z /\ int s = Ok z) \/
  (exists msg, int_literal s = None /\ int s = Raise (ValueError msg)).
Proof.
  unfold int_literal. destruct (int s) as [z|e] eqn:E; [eauto|].
  destruct (int_ValueError s e E) as [msg ->]. eauto.
Qed.

(** Unpacking the converted tokens raises nothing but [ValueError], and it
    succeeds on three integers only. *)
Lemma unpack3_int tokens :
  (exists x y z, unpack3 (map int tokens) = Ok (x, y, z) /\ three_integers tokens) \/
  (exists msg, unpack3 (map int tokens) = Raise (ValueError msg) /\
               ~ three_integers tokens).
Proof.
  destruct tokens as [|a [|b [|c [|d rest]]]]; simpl;
    try (right; eexists; split; [reflexivity | intros (? & ? & ? & [=] & _)]; fail).
  - destruct (int_result a) as [(x & Ha & ->)|(m & Ha & ->)]; simpl.
    + right. eexists. split; [reflexivity | intros (? & ? & ? & [=] & _)].
    + right. eexists. split; [reflexivity | intros (? & ? & ? & [=] & _)].
  - destruct (int_result a) as [(x & Ha & ->)|(m & Ha & ->)]; simpl;
      [destruct (int_result b) as [(y & Hb & ->)|(m & Hb & ->)]; simpl|];
      right; eexists; (split; [reflexivity | intros (? & ? & ? & [=] & _)]).
  - destruct (int_result a) as [(x & Ha & ->)|(m & Ha & ->)]; simpl;
      [destruct (int_result b) as [(y & Hb & ->)|(m & Hb & ->)]; simpl;
       [destruct (int_result c) as [(z & Hc & ->)|(m & Hc & ->)]; simpl|]|].
    + left. exists x, y, z. split; [reflexivity|]. exists a, b, c.
      rewrite Ha, Hb, Hc. eauto.
    + right. eexists. split; [reflexivity|].
      intros (? & ? & ? & [= <- <- <-] & _ & _ & [? ?]). congruence.
    + right. eexists. split; [reflexivity|].
      intros (? & ? & ? & [= <- <- <-] & _ & [? ?] & _). congruence.
    + right. eexists. split; [reflexivity|].
      intros (? & ? & ? & [= <- <- <-] & [? ?] & _). congruence.
  - destruct (int_result a) as [(x & Ha & ->)|(m & Ha & ->)]; simpl;
      [destruct (int_result b) as [(y & Hb & ->)|(m & Hb & ->)]; simpl;
       [destruct (int_result c) as [(z & Hc & ->)|(m & Hc & ->)]; simpl;
        [destruct (int_result d) as [(w & Hd & ->)|(m & Hd & ->)]; simpl|]|]|];
      right; eexists; (split; [reflexivity | intros (? & ? & ? & [=] & _)]).
Qed.

Lemma read_entry_result line matrix :
  (exists x y z, read_entry line matrix = Ok (set_element matrix x y z) /\
                 three_integers (entry_tokens line)) \/
  (read_entry line matrix = Raise FormatError /\ ~ three_integers (entry_tokens line)).
Proof.
  unfold read_entry. fold (entry_tokens line).
  destruct (unpack3_int (entry_tokens line)) as [(x & y & z & -> & H3)|(msg & -> & H3)].
  - left. exists x, y, z. split; [reflexivity | assumption].
  - right. split; [reflexivity | assumption].
Qed.

Lemma read_entries_result lines matrix :
  (exists m, for_each_raising lines read_entry matrix = Ok m /\
             Forall (fun line => three_integers (entry_tokens line)) lines) \/
  (for_each_raising lines read_entry matrix = Raise FormatError /\
   Exists (fun line => ~ three_integers (entry_tokens line)) lines).
Proof.
  revert matrix. induction lines as [|line lines IH]; intros matrix; simpl.
  - left. eauto.
  - destruct (read_entry_result line matrix) as [(x & y & z & -> & H3)|[-> H3]]; simpl.
    + destruct (IH (set_element matrix x y z)) as [(m & -> & Hall)|[-> Hex]].
      * left. eauto.
      * right. split; [reflexivity | right; assumption].
    + right. split; [reflexivity | left; assumption].
Qed.

Lemma read_header_result lines :
  (exists rc, read_header lines = Ok rc) \/ read_header lines = Raise FormatError.
Proof.
  unfold read_header, try_except.
  match goal with |- context [match ?b with Ok _ => _ | Raise _ => _ end] =>
    destruct b as [rc|[msg|msg]] end; eauto.
Qed.

Lemma read_header_short lines :
  (length lines < 2)%nat -> read_header lines = Raise FormatError.
Proof.
  intros Hlen. unfold read_header.
  destruct lines as [|l0 [|l1 rest]]; simpl in Hlen; [reflexivity| |lia].
  simpl. destruct (index (split "=" l0) 1) as [t|[msg|msg]]; simpl; try reflexivity.
  destruct (int t) as [z|[msg|msg]]; reflexivity.
Qed.

Lemma from_file_header content :
  from_file content =
  ('(rows, cols) ← read_header (nonblank_lines content);
   for_each_raising (skipn 2 (nonblank_lines content)) read_entry (__init__ rows cols)).
Proof. reflexivity. Qed.

Lemma from_file_result content :
  (exists m, from_file content = Ok m) \/ from_file content = Raise FormatError.
Proof.
  rewrite from_file_header.
  destruct (read_header_result (nonblank_lines content)) as [[[r c] ->]| ->]; simpl.
  - destruct (read_entries_result (skipn 2 (nonblank_lines content)) (__init__ r c))
      as [(m & -> & _)|[-> _]]; eauto.
  - right. reflexivity.
Qed.

(** C5.  [from_file] raises the format error, and returns no matrix, when
    the text has fewer than two non-blank lines, as for a text with the
    rows line only, and when the tokens of an entry line (the line without
    its first and last character, cut at the commas) are not exactly three
    integers, as for the entry [(1,1)]. *)
Theorem from_file_malformed (content : str) :
  ((length (nonblank_lines content) < 2)%nat ->
   from_file content = Raise FormatError) /\
  (forall line, line ∈ skipn 2 (nonblank_lines content) ->
                ~ three_integers (entry_tokens line) ->
                from_file content = Raise FormatError) /\
  from_file (lit "rows=2" ++ [LF]) = Raise FormatError /\
  from_file (lit "rows=2" ++ [LF] ++ lit "cols=2" ++ [LF] ++ lit "(1,1)" ++ [LF])
    = Raise FormatError.
Proof.
  split; [|split; [|split; reflexivity]].
  - intros Hlen. rewrite from_file_header, read_header_short by assumption. reflexivity.
  - intros line Hin Hbad. rewrite from_file_header.
    destruct (read_header_result (nonblank_lines content)) as [[[r c] ->]| ->];
      [|reflexivity].
    simpl.
    destruct (read_entries_result (skipn 2 (nonblank_lines content)) (__init__ r c))
      as [(m & _ & Hall)|[-> _]]; [|reflexivity].
    rewrite Forall_forall in Hall. exfalso. apply Hbad, Hall, Hin.
Qed.

Lemma from_file_malformed_witness :
  from_file (lit "rows=2" ++ [LF]) = Raise FormatError /\
  from_file (lit "rows=2" ++ [LF] ++ lit "cols=2" ++ [LF] ++ lit "(1,1)" ++ [LF])
    = Raise FormatError.
Proof.
  split.
  - apply (proj1 (from_file_malformed (lit "rows=2" ++ [LF]))). vm_compute. lia.
  - apply (proj1 (proj2 (from_file_malformed
             (lit "rows=2" ++ [LF] ++ lit "cols=2" ++ [LF] ++ lit "(1,1)" ++ [LF])))
             (lit "(1,1)")).
    + vm_compute. left.
    + intros (a & b & c & [=] & _).
Defined.

(** C10.  On every text [from_file] either returns a matrix or raises the
    format error, never another exception; so for a header line without
    [=], for a dimension that is not an integer and for an entry line of
    one character. *)
Theorem from_file_only_format_error :
  (forall content : str,
     (exists m, from_file content = Ok m) \/ from_file content = Raise FormatError) /\
  from_file (lit "rows 2" ++ [LF] ++ lit "cols=2" ++ [LF]) = Raise FormatError /\
  from_file (lit "rows=two" ++ [LF] ++ lit "cols=2" ++ [LF]) = Raise FormatError /\
  from_file (lit "rows=2" ++ [LF] ++ lit "cols=2" ++ [LF] ++ lit "(" ++ [LF])
    = Raise FormatError.
Proof.
  split; [exact from_file_result | repeat split; reflexivity].
Qed.

(** ** Objects: what the methods read *)

Section StoreReads.
Implicit Types (h : Store.heap) (l : Store.loc).

Lemma rows_repr_agree h h' rows_dict data :
  Store.rows_repr h rows_dict data ->
  (forall l, l ∈ rows_dict.*2 -> h' !! l = h !! l) ->
  Store.rows_repr h' rows_dict data.
Proof.
  unfold Store.rows_repr. induction 1 as [|ref row rd data [Hk Hl] _ IH]; intros Hagree.
  - constructor.
  - constructor.
    + split; [assumption|]. rewrite Hagree; [assumption | left].
    + apply IH. intros l Hin. apply Hagree. right. assumption.
Qed.

Lemma rows_repr_row_dict h rows_dict data l :
  Store.rows_repr h rows_dict data -> l ∈ rows_dict.*2 ->
  exists d, h !! l = Some (Store.RowDict d).
Proof.
  unfold Store.rows_repr. induction 1 as [|ref row rd data [Hk Hl] _ IH]; csimpl.
  - intros []%elem_of_nil.
  - intros [->|Hin]%elem_of_cons; eauto.
Qed.

Lemma rows_repr_lookup h rows_dict data l :
  Store.rows_repr h rows_dict data -> l ∈ rows_dict.*2 -> is_Some (h !! l).
Proof.
  intros Hrep Hl. destruct (rows_repr_row_dict _ _ _ _ Hrep Hl) as [d Hd]. eauto.
Qed.

Lemma rows_repr_prefix h h' rows_dict data :
  Store.rows_repr h rows_dict data -> h `prefix_of` h' -> Store.rows_repr h' rows_dict data.
Proof.
  intros Hrep Hpre. apply (rows_repr_agree h); [assumption|].
  intros l Hl. destruct (rows_repr_lookup _ _ _ _ Hrep Hl) as [o Ho].
  rewrite Ho. eapply prefix_lookup_Some; eassumption.
Qed.

Lemma represents_prefix h h' l m :
  Store.represents h l m -> h `prefix_of` h' -> Store.represents h' l m.
Proof.
  intros (d & rd & Hl & Hd & Hrows) Hpre. exists d, rd.
  repeat split; eauto using prefix_lookup_Some, rows_repr_prefix.
Qed.

Lemma rows_repr_keys h rows_dict data :
  Store.rows_repr h rows_dict data -> Dict.keys rows_dict = Dict.keys data.
Proof.
  unfold Store.rows_repr, Dict.keys.
  induction 1 as [|ref row rd data [Hk Hl] _ IH]; csimpl; congruence.
Qed.

Lemma rows_repr_get h rows_dict data row :
  Store.rows_repr h rows_dict data ->
  match Dict.get row rows_dict with
  | Some l => exists d, Dict.get row data = Some d /\ h !! l = Some (Store.RowDict d)
  | None => Dict.get row data = None
  end.
Proof.
  unfold Store.rows_repr.
  induction 1 as [|[k l] [k' d] rd data [Hk Hl] _ IH]; simpl in *; [reflexivity|].
  subst k'. destruct (k =? row); [eauto | exact IH].
Qed.

Lemma data_of_represents h l m :
  Store.represents h l m ->
  exists rows_dict, Store.data_of h l = Some rows_dict /\ Store.rows_repr h rows_dict (data m).
Proof.
  intros (d & rd & Hl & Hd & Hrows). exists rd. split; [|assumption].
  unfold Store.data_of, Store.get_instance, Store.get_rows_dict. rewrite Hl. simpl. rewrite Hd.
  reflexivity.
Qed.

Lemma row_of_represents h l m row :
  Store.represents h l m -> row ∈ Dict.keys (data m) ->
  Store.row_of h l row = Some (row_of m row).
Proof.
  intros Hrep Hrow. destruct (data_of_represents _ _ _ Hrep) as (rd & Hdata & Hrows).
  unfold Store.row_of. rewrite Hdata. simpl.
  pose proof (rows_repr_get _ _ _ row Hrows) as Hget.
  apply elem_of_keys_get in Hrow as [d Hd].
  destruct (Dict.get row rd) as [l'|]; [|congruence].
  destruct Hget as (d' & Hd' & Hl'). simpl.
  unfold Store.get_row_dict. rewrite Hl'. unfold row_of, Dict.get_default.
  rewrite Hd'. reflexivity.
Qed.

Lemma get_element_represents h l m row col :
  Store.represents h l m -> Store.get_element l row col h = Some (get_element m row col).
Proof.
  intros Hrep. destruct (data_of_represents _ _ _ Hrep) as (rd & Hdata & Hrows).
  unfold Store.get_element. rewrite Hdata. simpl.
  pose proof (rows_repr_get _ _ _ row Hrows) as Hget.
  unfold get_element, Dict.get_default.
  destruct (Dict.get row rd) as [l'|].
  - destruct Hget as (d' & -> & Hl'). unfold Store.get_row_dict. rewrite Hl'.
    reflexivity.
  - rewrite Hget. reflexivity.
Qed.

Lemma sum_products_represents h a b A B row col ks acc :
  Store.represents h a A -> Store.represents h b B ->
  Store.sum_products a b row col ks acc h =
  Some (for_each ks (fun k sum_product =>
          sum_product + get_element A row k * get_element B k col) acc).
Proof.
  intros HA HB. revert acc. induction ks as [|k ks IH]; intros acc; [reflexivity|].
  simpl. rewrite (get_element_represents _ _ _ _ _ HA),
    (get_element_represents _ _ _ _ _ HB). simpl. apply IH.
Qed.

Lemma storage_represents h l m :
  Store.represents h l m -> forall l', l' ∈ Store.storage h l -> (l' < length h)%nat.
Proof.
  intros (d & rd & Hl & Hd & Hrows) l'. unfold Store.storage. rewrite Hl, Hd.
  intros [->|[->|Hin]%elem_of_cons]%elem_of_cons.
  - eapply lookup_lt_Some; eassumption.
  - eapply lookup_lt_Some; eassumption.
  - apply lookup_lt_is_Some. eapply rows_repr_lookup; eassumption.
Qed.

Lemma storage_prefix h h' l m :
  Store.represents h l m -> h `prefix_of` h' -> Store.storage h' l = Store.storage h l.
Proof.
  intros (d & rd & Hl & Hd & Hrows) Hpre. unfold Store.storage.
  pose proof (prefix_lookup_Some _ _ _ _ Hl Hpre) as Hl'.
  pose proof (prefix_lookup_Some _ _ _ _ Hd Hpre) as Hd'.
  rewrite Hl, Hl', Hd, Hd'. reflexivity.
Qed.
End StoreReads.

(** ** Objects: what [set_element] writes *)

Lemma dict_set_absent {V} (k : Z) (v : V) (d : Dict.t V) :
  Dict.get k d = None -> Dict.set k v d = d ++ [(k, v)].
Proof.
  induction d as [|[k0 v0] d IH]; simpl; [reflexivity|].
  destruct (k0 =? k); [discriminate|]. intros H. rewrite IH by assumption. reflexivity.
Qed.

Lemma dict_set_set {V} (k : Z) (v v' : V) (d : Dict.t V) :
  Dict.set k v (Dict.set k v' d) = Dict.set k v d.
Proof.
  induction d as [|[k0 v0] d IH]; simpl.
  - rewrite Z.eqb_refl. reflexivity.
  - destruct (k0 =? k) eqn:E; simpl; rewrite E; [reflexivity|]. rewrite IH. reflexivity.
Qed.

Lemma get_Some_value {V} (k : Z) (v : V) (d : Dict.t V) :
  Dict.get k d = Some v -> v ∈ d.*2.
Proof.
  intros H. apply get_Some_elem_of in H. apply list_elem_of_fmap. exists (k, v). auto.
Qed.

Lemma prefix_insert (h0 h : Store.heap) (i : nat) (o : Store.object) :
  h0 `prefix_of` h -> (length h0 <= i)%nat -> h0 `prefix_of` <[i := o]> h.
Proof.
  intros [k ->] Hi. rewrite insert_app_r_alt by assumption. apply prefix_app_r. reflexivity.
Qed.

Lemma rows_repr_update (h : Store.heap) rd data row l0 d' :
  Store.rows_repr h rd data -> NoDup rd.*2 -> Dict.get row rd = Some l0 ->
  Store.rows_repr (<[l0 := Store.RowDict d']> h) rd (Dict.set row d' data).
Proof.
  unfold Store.rows_repr.
  induction 1 as [|[k l] [k' d] rd data [Hk Hl] Hrest IH]; csimpl; [discriminate|].
  simpl in Hk, Hl. subst k'. rewrite NoDup_cons. intros [Hnotin Hnd].
  destruct (k =? row) eqn:E.
  - intros [= ->]. constructor.
    + split; [reflexivity|]. simpl. apply list_lookup_insert_eq.
      eapply lookup_lt_Some, Hl.
    + apply (rows_repr_agree h); [exact Hrest|].
      intros l Hin. apply list_lookup_insert_ne. congruence.
  - intros Hget. constructor.
    + split; [reflexivity|]. simpl. rewrite list_lookup_insert_ne; [assumption|].
      intros <-. apply Hnotin. eapply get_Some_value, Hget.
    + apply IH; assumption.
Qed.

Lemma owned_represents h0 h r R : owned h0 h r R -> Store.represents h r R.
Proof. intros (d & rd & _ & _ & Hr & Hd & Hrows & _). exists d, rd. auto. Qed.

Lemma owned_storage h0 h r R l :
  owned h0 h r R -> l ∈ Store.storage h r -> (length h0 <= l)%nat.
Proof.
  intros (d & rd & Hr0 & Hd0 & Hr & Hd & _ & Hall & _). unfold Store.storage.
  rewrite Hr, Hd. rewrite Forall_forall in Hall.
  intros [->|[->|Hin]%elem_of_cons]%elem_of_cons; auto.
Qed.

Lemma owned_init h0 n p :
  owned h0 (Store.new n p h0).2 (Store.new n p h0).1 (__init__ n p) /\
  h0 `prefix_of` (Store.new n p h0).2.
Proof.
  unfold Store.new. simpl. split; [|apply prefix_app_r; reflexivity].
  exists (S (length h0)), []. split_and!.
  - lia.
  - lia.
  - apply list_lookup_middle. reflexivity.
  - change (h0 ++ [Store.Instance n p (S (length h0)); Store.RowsDict Dict.empty])
      with (h0 ++ [Store.Instance n p (S (length h0))] ++ [Store.RowsDict Dict.empty]).
    rewrite app_assoc. apply list_lookup_middle. rewrite length_app. simpl. lia.
  - constructor.
  - constructor.
  - constructor.
Qed.

Lemma data_set_element_old R row col v d0 :
  Dict.get row (data R) = Some d0 ->
  data (set_element R row col v) = Dict.set row (Dict.set col v d0) (data R).
Proof.
  intros H. unfold set_element, Dict.mem, Dict.get_default. simpl.
  rewrite H. simpl. rewrite H. reflexivity.
Qed.

Lemma data_set_element_new R row col v :
  Dict.get row (data R) = None ->
  data (set_element R row col v) = data R ++ [(row, [(col, v)])].
Proof.
  intros H. unfold set_element, Dict.mem, Dict.get_default. simpl.
  rewrite H. simpl. rewrite get_set, Z.eqb_refl, dict_set_set.
  apply dict_set_absent, H.
Qed.

Lemma owned_set_element h0 h r R row col v :
  h0 `prefix_of` h -> owned h0 h r R ->
  exists h', Store.set_element r row col v h = Some h' /\
    h0 `prefix_of` h' /\ owned h0 h' r (set_element R row col v).
Proof.
  intros Hpre (d & rd & Hr0 & Hd0 & Hr & Hd & Hrows & Hall & Hnd).
  pose proof (rows_repr_get _ _ _ row Hrows) as Hget.
  assert (d <> r) as Hdr by (intros ->; congruence).
  assert (forall l, l ∈ rd.*2 -> l <> r /\ l <> d /\ (l < length h)%nat) as Hrd.
  { intros l Hl. destruct (rows_repr_row_dict _ _ _ _ Hrows Hl) as [dl Hdl].
    split_and!; [intros ->; congruence | intros ->; congruence |].
    eapply lookup_lt_Some, Hdl. }
  unfold Store.set_element, Store.get_instance. rewrite Hr. simpl.
  unfold Store.get_rows_dict at 1. rewrite Hd. simpl. unfold Dict.mem.
  destruct (Dict.get row rd) as [l0|] eqn:Hrow; simpl.
  - destruct Hget as (d0 & Hd0' & Hl0).
    unfold Store.data_of, Store.get_instance, Store.get_rows_dict.
    rewrite Hr. simpl. rewrite Hd. simpl. rewrite Hrow. simpl.
    unfold Store.get_row_dict. rewrite Hl0. simpl.
    eexists. split; [reflexivity|].
    pose proof (get_Some_value _ _ _ Hrow) as Hl0in.
    destruct (Hrd _ Hl0in) as (Hl0r & Hl0d & _).
    rewrite Forall_forall in Hall.
    split; [apply prefix_insert; auto|].
    exists d, rd. split_and!; try assumption.
    + rewrite list_lookup_insert_ne by assumption. exact Hr.
    + rewrite list_lookup_insert_ne by assumption. exact Hd.
    + rewrite (data_set_element_old _ _ _ _ _ Hd0'). apply rows_repr_update; assumption.
    + apply Forall_forall, Hall.
  - set (rd' := Dict.set row (length h) rd).
    set (h1 := <[d := Store.RowsDict rd']> (h ++ [Store.RowDict Dict.empty])).
    assert ((d < length h)%nat) as Hdlt by (eapply lookup_lt_Some, Hd).
    assert ((r < length h)%nat) as Hrlt by (eapply lookup_lt_Some, Hr).
    assert (h1 !! r = Some (Store.Instance (rows R) (cols R) d)) as H1r.
    { unfold h1. rewrite list_lookup_insert_ne by assumption.
      apply lookup_app_l_Some, Hr. }
    assert (h1 !! d = Some (Store.RowsDict rd')) as H1d.
    { unfold h1. apply list_lookup_insert_eq. rewrite length_app. lia. }
    assert (h1 !! length h = Some (Store.RowDict Dict.empty)) as H1n.
    { unfold h1. rewrite list_lookup_insert_ne by lia.
      apply list_lookup_middle. reflexivity. }
    assert (length h1 = S (length h)) as Hlen1.
    { unfold h1. rewrite length_insert, length_app. simpl. lia. }
    unfold Store.data_of, Store.get_instance, Store.get_rows_dict.
    rewrite H1r. simpl. rewrite H1d. simpl.
    unfold rd' at 1. rewrite get_set, Z.eqb_refl. simpl.
    unfold Store.get_row_dict. rewrite H1n. simpl.
    eexists. split; [reflexivity|].
    pose proof (prefix_length _ _ Hpre) as Hlen.
    assert (h0 `prefix_of` h1) as Hpre1.
    { unfold h1. apply prefix_insert; [apply prefix_app_r|]; assumption. }
    split; [apply prefix_insert; [assumption | lia]|].
    assert (rd' = rd ++ [(row, length h)]) as Hrd' by apply dict_set_absent, Hrow.
    exists d, rd'. split_and!; try assumption.
    + rewrite list_lookup_insert_ne by lia. exact H1r.
    + rewrite list_lookup_insert_ne by lia. exact H1d.
    + rewrite (data_set_element_new _ _ _ _ Hget), Hrd'. apply Forall2_app.
      * apply (rows_repr_agree h); [assumption|].
        intros l Hl. destruct (Hrd l Hl) as (Hlr & Hld & Hllt).
        rewrite list_lookup_insert_ne by lia. unfold h1.
        rewrite list_lookup_insert_ne by auto. apply lookup_app_l. assumption.
      * constructor; [|constructor]. split; [reflexivity|]. simpl.
        apply list_lookup_insert_eq. lia.
    + rewrite Hrd', fmap_app. apply Forall_app. split; [assumption|].
      repeat constructor. simpl. lia.
    + rewrite Hrd', fmap_app. apply NoDup_app. split_and!.
      * assumption.
      * intros l Hl Hl'. apply list_elem_of_singleton in Hl'. simpl in Hl'.
        destruct (Hrd l Hl) as (_ & _ & Hllt). lia.
      * apply NoDup_singleton.
Qed.

(** ** Objects: the operators *)

Lemma store_for_each_inv {A S} (I : Store.heap -> S -> Prop) (xs : list A)
    (body_h : A -> Store.heap -> option Store.heap) (body : A -> S -> S) h s :
  (forall x h s, x ∈ xs -> I h s -> exists h', body_h x h = Some h' /\ I h' (body x s)) ->
  I h s ->
  exists h', Store.for_each xs body_h h = Some h' /\ I h' (for_each xs body s).
Proof.
  revert h s. induction xs as [|x xs IH]; intros h s Hbody Hinv; [eauto|].
  destruct (Hbody x h s) as (h1 & Hrun & Hinv1); [left | assumption|].
  simpl. rewrite Hrun. simpl. apply IH; [|assumption].
  intros x' h' s' Hx'. apply Hbody. right. assumption.
Qed.

Lemma get_instance_represents h l m :
  Store.represents h l m -> exists d, Store.get_instance h l = Some (rows m, cols m, d).
Proof.
  intros (d & rd & Hl & _). exists d. unfold Store.get_instance. rewrite Hl. reflexivity.
Qed.

(** The result of an operator shares no object with an operand. *)
Lemma owned_apart h0 h r R a A l :
  h0 `prefix_of` h -> owned h0 h r R -> Store.represents h0 a A ->
  l ∈ Store.storage h r -> (length h0 <= l)%nat /\ l ∉ Store.storage h a.
Proof.
  intros Hpre Hown HA Hl. pose proof (owned_storage _ _ _ _ _ Hown Hl) as Hge.
  split; [assumption|]. rewrite (storage_prefix _ _ _ _ HA Hpre).
  intros Hin. apply (storage_represents _ _ _ HA) in Hin. lia.
Qed.

(** One pass of [add], [subtract]: over the stored keys of the operand at
    [b], an element of the result is written from its old value. *)
Lemma store_pass h0 h r R b B (g : Z -> Z -> Z -> Z)
    (body_h : Z -> Z -> Store.heap -> option Store.heap) :
  Store.represents h0 b B -> h0 `prefix_of` h -> owned h0 h r R ->
  (forall row col hc Rc, h0 `prefix_of` hc -> owned h0 hc r Rc ->
     body_h row col hc =
     Store.set_element r row col (g (get_element Rc row col) row col) hc) ->
  exists rows_dict h',
    Store.data_of h b = Some rows_dict /\
    Store.for_each (Dict.keys rows_dict) (fun row h =>
      row_dict ← Store.row_of h b row;
      Store.for_each (Dict.keys row_dict) (fun col h => body_h row col h) h) h = Some h' /\
    h0 `prefix_of` h' /\
    owned h0 h' r
      (for_each (Dict.keys (data B)) (fun row =>
         for_each (Dict.keys (row_of B row)) (fun col result =>
           set_element result row col (g (get_element result row col) row col))) R).
Proof.
  intros HB Hpre Hown Hbody.
  destruct (data_of_represents _ _ _ (represents_prefix _ _ _ _ HB Hpre))
    as (rd & Hdata & Hrows).
  exists rd. rewrite (rows_repr_keys _ _ _ Hrows).
  set (I := fun hc Rc => h0 `prefix_of` hc /\ owned h0 hc r Rc).
  destruct (store_for_each_inv I (Dict.keys (data B))
    (fun row h =>
      row_dict ← Store.row_of h b row;
      Store.for_each (Dict.keys row_dict) (fun col h => body_h row col h) h)
    (fun row =>
      for_each (Dict.keys (row_of B row)) (fun col result =>
        set_element result row col (g (get_element result row col) row col)))
    h R) as (h' & Hrun & Hpre' & Hown'); [|split; assumption|eauto].
  intros row hc Rc Hrow [Hprec Hownc].
  rewrite (row_of_represents hc b B row) by eauto using represents_prefix. simpl.
  apply (store_for_each_inv I); [|split; assumption].
  intros col hc' Rc' _ [Hprec' Hownc'].
  rewrite (Hbody row col hc' Rc') by assumption.
  apply owned_set_element; assumption.
Qed.

(** What is left to show once the loops of an operator have run. *)
Lemma frames_result h h' r R a b A B
    (op : SparseMatrix -> SparseMatrix -> result SparseMatrix) :
  Store.represents h a A -> Store.represents h b B ->
  h `prefix_of` h' -> owned h h' r R -> op A B = Ok R ->
  h `prefix_of` h' /\ Store.represents h' a A /\ Store.represents h' b B /\
  (exists R, op A B = Ok R /\ Store.represents h' r R) /\
  (forall l, l ∈ Store.storage h' r ->
     (length h <= l)%nat /\ (l ∉ Store.storage h' a) /\ (l ∉ Store.storage h' b)).
Proof.
  intros HA HB Hpre Hown Hop. split_and!; eauto using represents_prefix, owned_represents.
  intros l Hl.
  destruct (owned_apart _ _ _ _ _ _ _ Hpre Hown HA Hl) as [Hge Hna].
  destruct (owned_apart _ _ _ _ _ _ _ Hpre Hown HB Hl) as [_ Hnb]. auto.
Qed.

Lemma frames_combine msg op : Store.frames (store_combine msg op) (combine_loops msg op).
Proof.
  intros h a b A B HA HB.
  destruct (get_instance_represents _ _ _ HA) as [da Ha].
  destruct (get_instance_represents _ _ _ HB) as [db Hb].
  unfold store_combine. rewrite Ha. simpl. rewrite Hb. simpl.
  destruct (negb (rows A =? rows B) || negb (cols A =? cols B)) eqn:Hdim.
  - exists (Raise (ValueError msg)), h. split_and!; auto.
    unfold combine_loops. rewrite Hdim. reflexivity.
  - destruct (owned_init h (rows A) (cols A)) as [Hown Hpre].
    unfold Store.new in Hown, Hpre. simpl in Hown, Hpre.
    set (h1 := h ++ [_; _]) in *.
    destruct (store_pass h h1 (length h) (__init__ (rows A) (cols A)) a A
                (fun _ row col => get_element A row col)
                (fun row col hc =>
                   v ← Store.get_element a row col hc; Store.set_element (length h) row col v hc)
                HA Hpre Hown) as (rd1 & h2 & Hdata1 & Hrun1 & Hpre2 & Hown2).
    { intros row col hc Rc Hprec Hownc.
      rewrite (get_element_represents hc a A) by eauto using represents_prefix.
      reflexivity. }
    rewrite Hdata1. simpl. cbv beta in Hrun1. rewrite Hrun1. simpl.
    destruct (store_pass h h2 (length h) _ b B
                (fun old row col => op old (get_element B row col))
                (fun row col hc =>
                   old ← Store.get_element (length h) row col hc;
                   v ← Store.get_element b row col hc;
                   Store.set_element (length h) row col (op old v) hc)
                HB Hpre2 Hown2) as (rd2 & h3 & Hdata2 & Hrun2 & Hpre3 & Hown3).
    { intros row col hc Rc Hprec Hownc.
      rewrite (get_element_represents hc (length h) Rc) by eauto using owned_represents.
      simpl.
      rewrite (get_element_represents hc b B) by eauto using represents_prefix.
      reflexivity. }
    rewrite Hdata2. simpl. cbv beta in Hrun2. rewrite Hrun2. simpl.
    exists (Ok (length h)), h3. split; [reflexivity|].
    apply (frames_result h h3 (length h) _ a b A B (combine_loops msg op)
             HA HB Hpre3 Hown3).
    unfold combine_loops. rewrite Hdim. reflexivity.
Qed.

Lemma frames_multiply : Store.frames Store.multiply multiply.
Proof.
  intros h a b A B HA HB.
  destruct (get_instance_represents _ _ _ HA) as [da Ha].
  destruct (get_instance_represents _ _ _ HB) as [db Hb].
  unfold Store.multiply. rewrite Ha. simpl. rewrite Hb. simpl.
  destruct (negb (cols A =? rows B)) eqn:Hdim.
  - exists (Raise (ValueError msg_multiply)), h. split_and!; auto.
    unfold multiply. rewrite Hdim. reflexivity.
  - destruct (owned_init h (rows A) (cols B)) as [Hown Hpre].
    unfold Store.new in Hown, Hpre. simpl in Hown, Hpre.
    set (h1 := h ++ [_; _]) in *.
    destruct (data_of_represents _ _ _ (represents_prefix _ _ _ _ HA Hpre))
      as (rd & Hdata & Hrows).
    rewrite Hdata. simpl. rewrite (rows_repr_keys _ _ _ Hrows).
    set (I := fun hc Rc => h `prefix_of` hc /\ owned h hc (length h) Rc).
    destruct (store_for_each_inv I (Dict.keys (data A))
      (fun row hc =>
        Store.for_each (range (cols B)) (fun col hc =>
          sum_product ← Store.sum_products a b row col (range (cols A)) 0 hc;
          if negb (sum_product =? 0)
          then Store.set_element (length h) row col sum_product hc
          else Some hc) hc)
      (fun row =>
        for_each (range (cols B)) (fun col result =>
          let sum_product :=
            for_each (range (cols A)) (fun k sum_product =>
              sum_product + get_element A row k * get_element B k col) 0 in
          if negb (sum_product =? 0)
          then set_element result row col sum_product
          else result))
      h1 (__init__ (rows A) (cols B))) as (h2 & Hrun & Hpre2 & Hown2);
      [|split; assumption|].
    + intros row hc Rc _ HI. apply (store_for_each_inv I); [|assumption].
      intros col hc' Rc' _ [Hprec Hownc].
      rewrite (sum_products_represents hc' a b A B)
        by eauto using represents_prefix.
      simpl.
      destruct (negb (_ =? 0)); [|exists hc'; repeat split; assumption].
      apply owned_set_element; assumption.
    + rewrite Hrun. simpl. exists (Ok (length h)), h2. split; [reflexivity|].
      apply (frames_result h h2 (length h) _ a b A B multiply HA HB Hpre2 Hown2).
      unfold multiply. rewrite Hdim. reflexivity.
Qed.

(** C8.  Each of [add], [subtract] and [multiply], run on a store where
    the operands are matrix instances, returns; every object that existed
    is as it was, so both operands keep their rows, cols and stored
    entries, whether the operator returns or raises; a returned instance
    holds the value computed and it, its [data] and its row dictionaries
    are objects that did not exist before and belong to no operand. *)
Theorem operators_do_not_mutate :
  Store.frames Store.add add /\
  Store.frames Store.subtract subtract /\
  Store.frames Store.multiply multiply.
Proof.
  split_and!.
  - exact (frames_combine msg_add Z.add).
  - exact (frames_combine msg_subtract Z.sub).
  - exact frames_multiply.
Qed.

Lemma ex_store_exA : Store.represents ex_store 0 exA.
Proof.
  exists 1%nat, [(0, 2%nat); (1, 3%nat)]. split_and!; try reflexivity.
  repeat constructor.
Qed.

Lemma ex_store_exB : Store.represents ex_store 4 exB.
Proof.
  exists 5%nat, [(0, 6%nat)]. split_and!; try reflexivity. repeat constructor.
Qed.

Lemma operators_do_not_mutate_witness :
  exists res h', Store.add 0 4 ex_store = Some (res, h') /\
    ex_store `prefix_of` h' /\
    Store.represents h' 0 exA /\ Store.represents h' 4 exB /\
    match res with
    | Raise e => add exA exB = Raise e /\ h' = ex_store
    | Ok r =>
        (exists R, add exA exB = Ok R /\ Store.represents h' r R) /\
        (forall l, l ∈ Store.storage h' r ->
           (length ex_store <= l)%nat /\
           (l ∉ Store.storage h' 0) /\ (l ∉ Store.storage h' 4))
    end.
Proof.
  exact (proj1 operators_do_not_mutate ex_store 0%nat 4%nat exA exB
           ex_store_exA ex_store_exB).
Defined.

(** The run of [add] on the example store: four new objects, the seven
    old ones as they were. *)
Example store_add_example :
  Store.add 0 4 ex_store =
  Some (Ok 7%nat,
        ex_store ++
        [ Store.Instance 2 2 8; Store.RowsDict [(0, 9%nat); (1, 10%nat)];
          Store.RowDict [(0, 4); (1, 4)]; Store.RowDict [(1, 2)] ]).
Proof. reflexivity. Qed.

(** An operand may be given twice: [A.subtract(A)] stores zeros and leaves
    [A] as it was. *)
Example store_subtract_self_example :
  Store.subtract 0 0 ex_store =
  Some (Ok 7%nat,
        ex_store ++
        [ Store.Instance 2 2 8; Store.RowsDict [(0, 9%nat); (1, 10%nat)];
          Store.RowDict [(0, 0)]; Store.RowDict [(1, 0)] ]).
Proof. reflexivity. Qed.

(** ** Every matrix the class builds is well formed *)

Lemma wf_write_nonzero f ks res : wf res -> wf (write_nonzero f ks res).
Proof.
  revert res. induction ks as [|k ks IH]; intros res Hwf; [assumption|].
  unfold write_nonzero in *. simpl.
  destruct (negb (f k.1 k.2 =? 0)); apply IH; auto using wf_set_element.
Qed.

Lemma add_wf A B S : add A B = Ok S -> wf S.
Proof.
  destruct (decide (rows A = rows B /\ cols A = cols B)) as [[Hr Hc]|Hne].
  - rewrite add_combine by assumption. intros [= <-]. apply wf_combine_with.
  - rewrite add_mismatch by lia. discriminate.
Qed.

Lemma subtract_wf A B D : subtract A B = Ok D -> wf D.
Proof.
  destruct (decide (rows A = rows B /\ cols A = cols B)) as [[Hr Hc]|Hne].
  - rewrite subtract_combine by assumption. intros [= <-]. apply wf_combine_with.
  - rewrite subtract_mismatch by lia. discriminate.
Qed.

Lemma multiply_wf A B P : multiply A B = Ok P -> wf P.
Proof.
  destruct (decide (cols A = rows B)) as [Hd|Hne].
  - rewrite multiply_write_nonzero by assumption. intros [= <-].
    apply wf_write_nonzero, wf_init.
  - rewrite multiply_mismatch by assumption. discriminate.
Qed.

Lemma read_entries_wf lines matrix m :
  wf matrix -> for_each_raising lines read_entry matrix = Ok m -> wf m.
Proof.
  revert matrix. induction lines as [|line lines IH]; intros matrix Hwf; simpl.
  - intros [= <-]. assumption.
  - destruct (read_entry_result line matrix) as [(x & y & z & -> & _)|[-> _]]; simpl.
    + apply IH, wf_set_element, Hwf.
    + discriminate.
Qed.

Lemma from_file_wf content m : from_file content = Ok m -> wf m.
Proof.
  rewrite from_file_header.
  destruct (read_header (nonblank_lines content)) as [[r c]|e]; simpl; [|discriminate].
  apply read_entries_wf, wf_init.
Qed.

(** * Further properties of the class *)

(** ** [set_element] *)

(** After [set_element] the element written reads as the value written and
    every other element reads as before, for all integer coordinates, in
    range or not; rows and cols are as they were. *)
Theorem set_element_then_get (m : SparseMatrix) (r c v r' c' : Z) :
  get_element (set_element m r c v) r' c' =
    (if (r =? r') && (c =? c') then v else get_element m r' c') /\
  rows (set_element m r c v) = rows m /\ cols (set_element m r c v) = cols m.
Proof. split; [apply get_element_set_element | split; reflexivity]. Qed.

Lemma get_set_same {V} (k : Z) (v : V) (d : Dict.t V) :
  Dict.get k (Dict.set k v d) = Some v.
Proof. rewrite get_set, Z.eqb_refl. reflexivity. Qed.

Lemma matrix_eq (m1 m2 : SparseMatrix) :
  rows m1 = rows m2 -> cols m1 = cols m2 -> data m1 = data m2 -> m1 = m2.
Proof. destruct m1, m2. simpl. intros -> -> ->. reflexivity. Qed.

(** A second write at the same key replaces the first, whatever the
    values: the matrix is the one a single write of the last value gives,
    and the key stays stored also when the value written is 0. *)
Theorem set_element_overwrite (m : SparseMatrix) (r c v w : Z) :
  set_element (set_element m r c v) r c w = set_element m r c w /\
  entry (set_element m r c 0) r c = Some 0.
Proof.
  split; [|rewrite entry_set_element, !Z.eqb_refl; reflexivity].
  apply matrix_eq; [reflexivity..|].
  destruct (Dict.get r (data m)) as [d0|] eqn:Hr.
  - assert (Dict.get r (data (set_element m r c v)) = Some (Dict.set c v d0)) as H1.
    { rewrite (data_set_element_old m r c v d0 Hr). apply get_set_same. }
    rewrite (data_set_element_old _ r c w _ H1).
    rewrite !(data_set_element_old m r c _ d0 Hr), !dict_set_set. reflexivity.
  - assert (data (set_element m r c v) = Dict.set r [(c, v)] (data m)) as Hd.
    { rewrite (data_set_element_new m r c v Hr). symmetry.
      apply dict_set_absent, Hr. }
    assert (Dict.get r (data (set_element m r c v)) = Some [(c, v)]) as H1.
    { rewrite Hd. apply get_set_same. }
    rewrite (data_set_element_old _ r c w _ H1), Hd, dict_set_set.
    rewrite (data_set_element_new m r c w Hr).
    cbn [Dict.set]. rewrite Z.eqb_refl. apply dict_set_absent, Hr.
Qed.

Lemma get_app_Some {V} (k : Z) (v : V) (d d' : Dict.t V) :
  Dict.get k d = Some v -> Dict.get k (d ++ d') = Some v.
Proof.
  induction d as [|[k0 v0] d IH]; simpl; [discriminate|].
  destruct (k0 =? k); auto.
Qed.

Lemma get_app_None {V} (k : Z) (d d' : Dict.t V) :
  Dict.get k d = None -> Dict.get k (d ++ d') = Dict.get k d'.
Proof.
  induction d as [|[k0 v0] d IH]; simpl; [reflexivity|].
  destruct (k0 =? k); [discriminate | auto].
Qed.

(** Writing at a stored key leaves the order in which the keys are visited
    (so the order of the lines of [__str__]) as it was; writing in a row
    that has no entry puts the new key last; in every case the stored keys
    are the old ones and the key written. *)
Theorem set_element_stored_keys (m : SparseMatrix) (r c v : Z) :
  ((r, c) ∈ stored_keys m -> stored_keys (set_element m r c v) = stored_keys m) /\
  (r ∉ Dict.keys (data m) ->
   stored_keys (set_element m r c v) = stored_keys m ++ [(r, c)]) /\
  (forall k, k ∈ stored_keys (set_element m r c v) <-> k = (r, c) \/ k ∈ stored_keys m).
Proof.
  split_and!.
  - intros Hin. apply elem_of_stored_keys in Hin as [x Hx]. unfold entry in Hx.
    destruct (Dict.get r (data m)) as [d0|] eqn:Hr; [|discriminate].
    unfold stored_keys, row_of, Dict.get_default.
    rewrite (data_set_element_old m r c v d0 Hr).
    apply list_bind_ext.
    + intros row. rewrite get_set. destruct (r =? row) eqn:E; [|reflexivity].
      apply Z.eqb_eq in E; subst row. rewrite Hr, keys_set.
      unfold Dict.mem. rewrite Hx. reflexivity.
    + rewrite keys_set. unfold Dict.mem. rewrite Hr. reflexivity.
  - intros Habs. apply get_None_keys in Habs.
    unfold stored_keys, row_of, Dict.get_default.
    rewrite (data_set_element_new m r c v Habs).
    unfold Dict.keys. rewrite fmap_app, bind_app. f_equal.
    + apply Forall_bind_ext, Forall_forall. intros row Hrow.
      apply elem_of_keys_get in Hrow as [d Hd].
      rewrite (get_app_Some _ _ _ _ Hd), Hd. reflexivity.
    + csimpl. rewrite get_app_None by assumption. simpl. rewrite Z.eqb_refl.
      reflexivity.
  - intros [r' c']. rewrite !elem_of_stored_keys, entry_set_element.
    destruct ((r =? r') && (c =? c')) eqn:E.
    + apply andb_true_iff in E as [->%Z.eqb_eq ->%Z.eqb_eq]. split; eauto.
    + split; [auto|]. intros [[= -> ->]|H]; [|assumption].
      rewrite !Z.eqb_refl in E. discriminate.
Qed.

Lemma set_element_stored_keys_witness :
  stored_keys (set_element exA 1 1 7) = stored_keys exA /\
  stored_keys (set_element exA 5 (-3) 0) = stored_keys exA ++ [(5, -3)].
Proof.
  split.
  - apply (proj1 (set_element_stored_keys exA 1 1 7)). vm_compute. right. left.
  - apply (proj1 (proj2 (set_element_stored_keys exA 5 (-3) 0))). vm_compute.
    intros H. repeat (apply elem_of_cons in H as [H|H]; [discriminate|]).
    apply elem_of_nil in H. exact H.
Defined.

(** ** What every matrix the class builds satisfies *)

Lemma dict_set_nonempty {V} (k : Z) (v : V) (d : Dict.t V) : Dict.set k v d <> [].
Proof. destruct d as [|[k0 v0] d]; simpl; [|destruct (k0 =? k)]; discriminate. Qed.

Lemma rows_nonempty_set_element m r c v :
  rows_nonempty m -> rows_nonempty (set_element m r c v).
Proof.
  unfold rows_nonempty. intros Hm.
  destruct (Dict.get r (data m)) as [d0|] eqn:Hr.
  - rewrite (data_set_element_old m r c v d0 Hr).
    apply Forall_set; [assumption | apply dict_set_nonempty].
  - rewrite (data_set_element_new m r c v Hr). apply Forall_app.
    split; [assumption|]. repeat constructor. discriminate.
Qed.

Lemma rows_nonempty_update_all g ks res :
  rows_nonempty res -> rows_nonempty (update_all g ks res).
Proof.
  revert res. induction ks as [|k ks IH]; intros res H; [assumption|].
  rewrite update_all_cons. apply IH, rows_nonempty_set_element, H.
Qed.

Lemma rows_nonempty_write_nonzero f ks res :
  rows_nonempty res -> rows_nonempty (write_nonzero f ks res).
Proof.
  revert res. induction ks as [|k ks IH]; intros res H; [assumption|].
  unfold write_nonzero in *. simpl.
  destruct (negb (f k.1 k.2 =? 0)); apply IH; auto using rows_nonempty_set_element.
Qed.

Lemma rows_nonempty_init n p : rows_nonempty (__init__ n p).
Proof. constructor. Qed.

Lemma read_entries_rows_nonempty lines matrix m :
  rows_nonempty matrix -> for_each_raising lines read_entry matrix = Ok m ->
  rows_nonempty m.
Proof.
  revert matrix. induction lines as [|line lines IH]; intros matrix Hm; simpl.
  - intros [= <-]. assumption.
  - destruct (read_entry_result line matrix) as [(x & y & z & -> & _)|[-> _]]; simpl.
    + apply IH, rows_nonempty_set_element, Hm.
    + discriminate.
Qed.

(** The matrices the class builds ([__init__], [set_element], the results
    of the three operators and of [from_file]) hold each key once in every
    dictionary and have no empty row dictionary. *)
Theorem class_invariant :
  (forall n p, wf (__init__ n p) /\ rows_nonempty (__init__ n p)) /\
  (forall m r c v, wf m /\ rows_nonempty m ->
     wf (set_element m r c v) /\ rows_nonempty (set_element m r c v)) /\
  (forall A B R, add A B = Ok R \/ subtract A B = Ok R \/ multiply A B = Ok R ->
     wf R /\ rows_nonempty R) /\
  (forall content m, from_file content = Ok m -> wf m /\ rows_nonempty m).
Proof.
  split_and!.
  - intros n p. split; [apply wf_init | apply rows_nonempty_init].
  - intros m r c v [Hwf Hne].
    split; [apply wf_set_element | apply rows_nonempty_set_element]; assumption.
  - intros A B R [H|[H|H]].
    + split; [eapply add_wf, H|].
      destruct (decide (rows A = rows B /\ cols A = cols B)) as [[Hr Hc]|Hne].
      * rewrite add_combine in H by assumption. injection H as <-.
        do 2 apply rows_nonempty_update_all. apply rows_nonempty_init.
      * rewrite add_mismatch in H by lia. discriminate.
    + split; [eapply subtract_wf, H|].
      destruct (decide (rows A = rows B /\ cols A = cols B)) as [[Hr Hc]|Hne].
      * rewrite subtract_combine in H by assumption. injection H as <-.
        do 2 apply rows_nonempty_update_all. apply rows_nonempty_init.
      * rewrite subtract_mismatch in H by lia. discriminate.
    + split; [eapply multiply_wf, H|].
      destruct (decide (cols A = rows B)) as [Hd|Hne].
      * rewrite multiply_write_nonzero in H by assumption. injection H as <-.
        apply rows_nonempty_write_nonzero, rows_nonempty_init.
      * rewrite multiply_mismatch in H by assumption. discriminate.
  - intros content m H. split; [eapply from_file_wf, H|].
    rewrite from_file_header in H.
    destruct (read_header (nonblank_lines content)) as [[r c]|e]; simpl in H;
      [|discriminate].
    eapply read_entries_rows_nonempty, H. apply rows_nonempty_init.
Qed.

Lemma class_invariant_witness :
  (wf (set_element exA 3 3 0) /\ rows_nonempty (set_element exA 3 3 0)) /\
  (wf {| rows := 2; cols := 2; data := [(0, [(0, 3); (1, 4)])] |} /\
   rows_nonempty {| rows := 2; cols := 2; data := [(0, [(0, 3); (1, 4)])] |}).
Proof.
  split.
  - apply (proj1 (proj2 class_invariant) exA 3 3 0). split; [exact wf_exA|].
    repeat constructor; discriminate.
  - apply (proj1 (proj2 (proj2 class_invariant)) exA exB). right. right. reflexivity.
Defined.

(** ** The dimension checks *)

(** [add] and [subtract] raise exactly when the rows or the cols of the
    operands differ, each with its own message, whatever the operands
    store. *)
Theorem add_subtract_raise_iff (A B : SparseMatrix) :
  ((exists e, add A B = Raise e) <-> rows A <> rows B \/ cols A <> cols B) /\
  (forall e, add A B = Raise e -> e = ValueError msg_add) /\
  ((exists e, subtract A B = Raise e) <-> rows A <> rows B \/ cols A <> cols B) /\
  (forall e, subtract A B = Raise e -> e = ValueError msg_subtract).
Proof.
  destruct (decide (rows A = rows B /\ cols A = cols B)) as [[Hr Hc]|Hne].
  - rewrite add_combine, subtract_combine by assumption.
    split_and!; try (intros e [=]); split; try lia; intros [e [=]].
  - rewrite add_mismatch, subtract_mismatch by lia.
    split_and!; try (intros e [= <-]; reflexivity); split; eauto; lia.
Qed.

(** ** The entries [multiply] stores *)

Lemma get_element_multiply A B i j :
  get_element (write_nonzero (dot_product A B) (product_keys A B)
                 (__init__ (rows A) (cols B))) i j =
  if (0 <=? j) && (j <? cols B) then dot_product A B i j else 0.
Proof.
  rewrite get_element_entry, entry_write_nonzero, entry_init.
  destruct (bool_decide ((i, j) ∈ product_keys A B)) eqn:Hin; simpl.
  - apply bool_decide_eq_true in Hin. apply elem_of_product_keys in Hin as [_ Hj].
    replace ((0 <=? j) && (j <? cols B)) with true by lia.
    destruct (dot_product A B i j =? 0) eqn:Hz; simpl; [|reflexivity].
    apply Z.eqb_eq in Hz. congruence.
  - apply bool_decide_eq_false in Hin. rewrite elem_of_product_keys in Hin.
    destruct ((0 <=? j) && (j <? cols B)) eqn:Hj; [|reflexivity].
    symmetry. apply dot_product_absent_row. intros Hi. apply Hin. split; [assumption|lia].
Qed.

(** The product stores a value [v] at [(i, j)] exactly when [i] is a row
    key stored in [A] (in range or not), [j] is a column index of [B], and
    [v] is the dot product and is not 0: no zero and no column out of range
    is ever stored. *)
Theorem multiply_stored_entries (A B : SparseMatrix) :
  cols A = rows B ->
  exists P, multiply A B = Ok P /\
    forall i j v, entry P i j = Some v <->
      i ∈ Dict.keys (data A) /\ 0 <= j < cols B /\
      v = dot_product A B i j /\ v <> 0.
Proof.
  intros Hd. eexists. split; [apply multiply_write_nonzero, Hd|].
  intros i j v. rewrite entry_write_nonzero, entry_init.
  destruct (bool_decide ((i, j) ∈ product_keys A B)) eqn:Hin; simpl.
  - apply bool_decide_eq_true in Hin. apply elem_of_product_keys in Hin as [Hi Hj].
    destruct (dot_product A B i j =? 0) eqn:Hz; simpl.
    + apply Z.eqb_eq in Hz. split; [discriminate|]. intros (_ & _ & -> & Hnz). lia.
    + apply Z.eqb_neq in Hz. split.
      * intros [= <-]. auto.
      * intros (_ & _ & -> & _). reflexivity.
  - apply bool_decide_eq_false in Hin. rewrite elem_of_product_keys in Hin.
    split; [discriminate|]. intros (Hi & Hj & _). tauto.
Qed.

Lemma multiply_stored_entries_witness :
  exists P, multiply exA exB = Ok P /\
    forall i j v, entry P i j = Some v <->
      i ∈ Dict.keys (data exA) /\ 0 <= j < 2 /\
      v = dot_product exA exB i j /\ v <> 0.
Proof. exact (multiply_stored_entries exA exB eq_refl). Defined.

(** ** How the operators compose *)

(** Subtracting a matrix from itself stores a 0 at every stored key and
    nothing else: the zeros are kept, every element reads 0. *)
Theorem subtract_self (A : SparseMatrix) :
  wf A ->
  exists D, subtract A A = Ok D /\
    (forall r c, get_element D r c = 0) /\
    (forall r c, (r, c) ∈ stored_keys D <-> (r, c) ∈ stored_keys A) /\
    (forall r c, (r, c) ∈ stored_keys A -> entry D r c = Some 0).
Proof.
  intros HA. exists (combine_with Z.sub A A).
  split; [apply subtract_combine; reflexivity|]. split_and!.
  - intros r c. rewrite get_element_combine_with by (auto; intros; lia). lia.
  - intros r c. rewrite stored_keys_combine_with by assumption. tauto.
  - intros r c Hin. apply elem_of_stored_keys in Hin as [a Ha].
    rewrite entry_combine_with, get_element_entry, Ha by assumption.
    simpl. f_equal. lia.
Qed.

Lemma subtract_self_witness :
  exists D, subtract exA exA = Ok D /\
    (forall r c, get_element D r c = 0) /\
    (forall r c, (r, c) ∈ stored_keys D <-> (r, c) ∈ stored_keys exA) /\
    (forall r c, (r, c) ∈ stored_keys exA -> entry D r c = Some 0).
Proof. exact (subtract_self exA wf_exA). Defined.

(** Addition is associative on the stored entries: for three matrices of
    equal dimensions [(A + B) + C] and [A + (B + C)] both succeed and store
    the same keys with the same values. *)
Theorem add_associative (A B C : SparseMatrix) :
  wf A -> wf B -> wf C ->
  rows A = rows B -> cols A = cols B -> rows B = rows C -> cols B = cols C ->
  exists AB L BC R,
    add A B = Ok AB /\ add AB C = Ok L /\ add B C = Ok BC /\ add A BC = Ok R /\
    rows L = rows R /\ cols L = cols R /\
    (forall r c, entry L r c = entry R r c).
Proof.
  intros HA HB HC Hr1 Hc1 Hr2 Hc2.
  destruct (rows_cols_combine_with Z.add A B) as [HrAB HcAB].
  destruct (rows_cols_combine_with Z.add B C) as [HrBC HcBC].
  exists (combine_with Z.add A B), (combine_with Z.add (combine_with Z.add A B) C),
    (combine_with Z.add B C), (combine_with Z.add A (combine_with Z.add B C)).
  split_and!; try (apply add_combine; congruence).
  - rewrite !(proj1 (rows_cols_combine_with _ _ _)). reflexivity.
  - rewrite !(proj2 (rows_cols_combine_with _ _ _)). reflexivity.
  - intros r c.
    rewrite !entry_combine_with by auto using wf_combine_with.
    rewrite (get_element_entry (combine_with Z.add A B)).
    rewrite !entry_combine_with by auto using wf_combine_with.
    rewrite (get_element_entry B), (get_element_entry A).
    destruct (entry A r c), (entry B r c), (entry C r c); simpl;
      try reflexivity; f_equal; lia.
Qed.

Lemma add_associative_witness :
  exists AB L BC R,
    add exA exB = Ok AB /\ add AB exA = Ok L /\ add exB exA = Ok BC /\
    add exA BC = Ok R /\ rows L = rows R /\ cols L = cols R /\
    (forall r c, entry L r c = entry R r c).
Proof.
  exact (add_associative exA exB exA wf_exA wf_exB wf_exA
           eq_refl eq_refl eq_refl eq_refl).
Defined.

Lemma sum_below_add n f g :
  sum_below n (fun k => f k + g k) = sum_below n f + sum_below n g.
Proof. induction n as [|n IH]; simpl; [reflexivity|]. rewrite IH. lia. Qed.

Lemma sum_below_ext n f g : (forall k, f k = g k) -> sum_below n f = sum_below n g.
Proof. intros H. induction n as [|n IH]; simpl; [reflexivity|]. rewrite IH, H. reflexivity. Qed.

(** Multiplication distributes over addition, element by element: for [A]
    and [B] of equal dimensions and [C] with as many rows as they have
    columns, [(A + B) * C] and [A * C + B * C] both succeed, have the same
    dimensions and the same element at every coordinate. *)
Theorem multiply_distributes_over_add (A B C : SparseMatrix) :
  wf A -> wf B -> rows A = rows B -> cols A = cols B -> cols A = rows C ->
  exists S P PA PB Q,
    add A B = Ok S /\ multiply S C = Ok P /\
    multiply A C = Ok PA /\ multiply B C = Ok PB /\ add PA PB = Ok Q /\
    rows P = rows Q /\ cols P = cols Q /\
    (forall i j, get_element P i j = get_element Q i j).
Proof.
  intros HA HB Hr Hc Hd.
  destruct (rows_cols_combine_with Z.add A B) as [HrS HcS].
  set (S := combine_with Z.add A B) in *.
  set (P := write_nonzero (dot_product S C) (product_keys S C) (__init__ (rows S) (cols C))).
  set (PA := write_nonzero (dot_product A C) (product_keys A C) (__init__ (rows A) (cols C))).
  set (PB := write_nonzero (dot_product B C) (product_keys B C) (__init__ (rows B) (cols C))).
  assert (rows PA = rows A /\ cols PA = cols C) as [HrPA HcPA]
    by (split; [apply (proj1 (rows_cols_write_nonzero _ _ (__init__ _ _)))
               | apply (proj2 (rows_cols_write_nonzero _ _ (__init__ _ _)))]).
  assert (rows PB = rows B /\ cols PB = cols C) as [HrPB HcPB]
    by (split; [apply (proj1 (rows_cols_write_nonzero _ _ (__init__ _ _)))
               | apply (proj2 (rows_cols_write_nonzero _ _ (__init__ _ _)))]).
  assert (rows P = rows S /\ cols P = cols C) as [HrP HcP]
    by (split; [apply (proj1 (rows_cols_write_nonzero _ _ (__init__ _ _)))
               | apply (proj2 (rows_cols_write_nonzero _ _ (__init__ _ _)))]).
  assert (wf PA) as HwPA by apply wf_write_nonzero, wf_init.
  assert (wf PB) as HwPB by apply wf_write_nonzero, wf_init.
  exists S, P, PA, PB, (combine_with Z.add PA PB).
  split_and!.
  - apply add_combine; assumption.
  - apply multiply_write_nonzero. congruence.
  - apply multiply_write_nonzero. assumption.
  - apply multiply_write_nonzero. congruence.
  - apply add_combine; congruence.
  - rewrite (proj1 (rows_cols_combine_with _ _ _)). congruence.
  - rewrite (proj2 (rows_cols_combine_with _ _ _)). congruence.
  - intros i j. rewrite get_element_combine_with by (auto; intros; lia).
    unfold P, PA, PB. rewrite !get_element_multiply.
    destruct ((0 <=? j) && (j <? cols C)); [|reflexivity].
    unfold dot_product. rewrite HcS, <- Hc, <- sum_below_add.
    apply sum_below_ext. intros k. unfold S.
    rewrite get_element_combine_with by (auto; intros; lia). lia.
Qed.

Lemma multiply_distributes_over_add_witness :
  exists S P PA PB Q,
    add exA exB = Ok S /\ multiply S exB = Ok P /\
    multiply exA exB = Ok PA /\ multiply exB exB = Ok PB /\ add PA PB = Ok Q /\
    rows P = rows Q /\ cols P = cols Q /\
    (forall i j, get_element P i j = get_element Q i j).
Proof.
  exact (multiply_distributes_over_add exA exB exB wf_exA wf_exB
           eq_refl eq_refl eq_refl).
Defined.

(** ** Copying a matrix key by key *)

Lemma dict_set_app_None {V} (k : Z) (v : V) (d d' : Dict.t V) :
  Dict.get k d = None -> Dict.set k v (d ++ d') = d ++ Dict.set k v d'.
Proof.
  induction d as [|[k0 v0] d IH]; simpl; [reflexivity|].
  destruct (k0 =? k); [discriminate|]. intros H. rewrite IH by assumption. reflexivity.
Qed.

(** Writing the items of [dsuf] one by one into the row [r], which holds
    [dpre] and is the last row. *)
Lemma copy_row_rest (f : Z -> Z) r base dpre dsuf res :
  Dict.wf (dpre ++ dsuf) -> Dict.get r base = None ->
  (forall c v, (c, v) ∈ dsuf -> f c = v) ->
  data res = base ++ [(r, dpre)] ->
  data (for_each (Dict.keys dsuf) (fun col res => set_element res r col (f col)) res) =
  base ++ [(r, dpre ++ dsuf)].
Proof.
  revert dpre res. induction dsuf as [|[c v] dsuf IH]; intros dpre res Hwf Hr Hval Hres.
  - rewrite app_nil_r. exact Hres.
  - unfold for_each. csimpl. fold (for_each (Dict.keys dsuf)
      (fun col res => set_element res r col (f col))).
    rewrite (Hval c v) by left.
    replace (dpre ++ (c, v) :: dsuf) with ((dpre ++ [(c, v)]) ++ dsuf)
      by (rewrite <- app_assoc; reflexivity).
    apply IH.
    + rewrite <- app_assoc. exact Hwf.
    + exact Hr.
    + intros c' v' Hin. apply Hval. right. exact Hin.
    + assert (Dict.get r (data res) = Some dpre) as Hget.
      { rewrite Hres, get_app_None by assumption. simpl. rewrite Z.eqb_refl.
        reflexivity. }
      rewrite (data_set_element_old res r c v dpre Hget), Hres.
      rewrite dict_set_app_None by assumption. simpl. rewrite Z.eqb_refl.
      do 3 f_equal. apply dict_set_absent, get_None_keys.
      unfold Dict.wf, Dict.keys in Hwf. rewrite fmap_app in Hwf.
      apply NoDup_app in Hwf as (_ & Hdisj & _).
      intros Hin. apply (Hdisj c Hin). left.
Qed.

Lemma copy_row (f : Z -> Z) r d res :
  Dict.wf d -> d <> [] -> Dict.get r (data res) = None ->
  (forall c v, (c, v) ∈ d -> f c = v) ->
  data (for_each (Dict.keys d) (fun col res => set_element res r col (f col)) res) =
  data res ++ [(r, d)].
Proof.
  intros Hwf Hne Hr Hval. destruct d as [|[c v] d]; [contradiction|].
  unfold for_each. csimpl. fold (for_each (Dict.keys d)
    (fun col res => set_element res r col (f col))).
  rewrite (Hval c v) by left.
  apply (copy_row_rest f r (data res) [(c, v)] d); try assumption.
  - intros c' v' Hin. apply Hval. right. exact Hin.
  - apply data_set_element_new, Hr.
Qed.

Lemma copy_rows m pre suf res :
  wf m -> rows_nonempty m -> data m = pre ++ suf -> data res = pre ->
  data (for_each (Dict.keys suf) (fun row =>
          for_each (Dict.keys (row_of m row)) (fun col res =>
            set_element res row col (get_element m row col))) res) = pre ++ suf.
Proof.
  intros [Hk Hrows] Hne. revert pre res.
  induction suf as [|[r d] suf IH]; intros pre res Hdata Hres.
  - rewrite app_nil_r. exact Hres.
  - assert ((r, d) ∈ data m) as Hin by (rewrite Hdata; apply elem_of_app; right; left).
    assert (Dict.get r (data m) = Some d) as Hget by (apply elem_of_get; assumption).
    assert (Dict.wf d) as Hwfd by (rewrite Forall_forall in Hrows; apply (Hrows _ Hin)).
    assert (d <> []) as Hd by (unfold rows_nonempty in Hne;
      rewrite Forall_forall in Hne; apply (Hne _ Hin)).
    assert (Dict.get r pre = None) as Hpre.
    { apply get_None_keys. unfold Dict.wf, Dict.keys in Hk. rewrite Hdata, fmap_app in Hk.
      apply NoDup_app in Hk as (_ & Hdisj & _). intros Hr. apply (Hdisj r Hr). left. }
    unfold for_each. csimpl. fold (for_each (Dict.keys suf) (fun row =>
          for_each (Dict.keys (row_of m row)) (fun col res =>
            set_element res row col (get_element m row col)))).
    replace (pre ++ (r, d) :: suf) with ((pre ++ [(r, d)]) ++ suf)
      by (rewrite <- app_assoc; reflexivity).
    apply IH; [rewrite <- app_assoc; exact Hdata|].
    assert (row_of m r = d) as Hrow
      by (unfold row_of, Dict.get_default; rewrite Hget; reflexivity).
    rewrite Hrow, <- Hres.
    apply (copy_row (fun col => get_element m r col)); try assumption.
    + rewrite Hres. exact Hpre.
    + intros c v Hcv. unfold get_element, Dict.get_default. rewrite Hget.
      rewrite (elem_of_get _ _ _ Hwfd Hcv). reflexivity.
Qed.

(** The first pass of [add] and [subtract], and the loop of [from_file] on
    the text of a matrix, build the matrix itself. *)
Lemma copy_exact m :
  wf m -> rows_nonempty m ->
  update_all (fun _ r c => get_element m r c) (stored_keys m)
    (__init__ (rows m) (cols m)) = m.
Proof.
  intros Hwf Hne. apply matrix_eq.
  - apply (proj1 (rows_cols_update_all _ _ (__init__ _ _))).
  - apply (proj2 (rows_cols_update_all _ _ (__init__ _ _))).
  - unfold update_all.
    rewrite <- (for_each_stored_keys m
      (fun row col res => set_element res row col (get_element m row col))).
    apply (copy_rows m [] (data m)); auto.
Qed.

Lemma update_all_fresh g (h : Z -> Z -> Z) ks res :
  NoDup ks -> (forall k, k ∈ ks -> entry res k.1 k.2 = None) ->
  (forall k, k ∈ ks -> g 0 k.1 k.2 = h k.1 k.2) ->
  update_all g ks res = update_all (fun _ r c => h r c) ks res.
Proof.
  revert res. induction ks as [|[r c] ks IH]; intros res Hnd Hfresh Hg; [reflexivity|].
  apply NoDup_cons in Hnd as [Hnotin Hnd]. rewrite !update_all_cons. simpl.
  assert ((r, c) ∈ (r, c) :: ks) as Hin by left.
  pose proof (Hfresh (r, c) Hin) as H0. pose proof (Hg (r, c) Hin) as H1.
  simpl in H0, H1. rewrite get_element_entry, H0. simpl. rewrite H1.
  apply IH; [assumption| |].
  - intros [r' c'] Hin'. simpl. rewrite entry_set_element.
    destruct ((r =? r') && (c =? c')) eqn:E.
    + apply andb_true_iff in E as [->%Z.eqb_eq ->%Z.eqb_eq]. contradiction.
    + apply (Hfresh (r', c')). right. assumption.
  - intros k Hin'. apply Hg. right. assumption.
Qed.

(** The empty matrix is neutral for [add], on either side, and for
    [subtract] on the right: the result is the other operand itself, with
    its keys in the same order. *)
Theorem add_empty (A : SparseMatrix) :
  wf A -> rows_nonempty A ->
  add A (__init__ (rows A) (cols A)) = Ok A /\
  add (__init__ (rows A) (cols A)) A = Ok A /\
  subtract A (__init__ (rows A) (cols A)) = Ok A.
Proof.
  intros Hwf Hne. split_and!.
  - rewrite add_combine by reflexivity. unfold combine_with.
    change (stored_keys (__init__ (rows A) (cols A))) with (@nil (Z * Z)).
    rewrite copy_exact by assumption. reflexivity.
  - rewrite add_combine by reflexivity. unfold combine_with.
    change (stored_keys (__init__ (rows A) (cols A))) with (@nil (Z * Z)).
    change (update_all _ [] ?x) with x. cbn [rows cols __init__].
    rewrite (update_all_fresh _ (fun r c => get_element A r c)).
    + rewrite copy_exact by assumption. reflexivity.
    + apply NoDup_stored_keys, Hwf.
    + intros k _. apply entry_init.
    + intros k _. apply Z.add_0_l.
  - rewrite subtract_combine by reflexivity. unfold combine_with.
    change (stored_keys (__init__ (rows A) (cols A))) with (@nil (Z * Z)).
    rewrite copy_exact by assumption. reflexivity.
Qed.

Lemma rows_nonempty_exA : rows_nonempty exA.
Proof. repeat constructor; discriminate. Qed.

Lemma add_empty_witness :
  add exA (__init__ 2 2) = Ok exA /\ add (__init__ 2 2) exA = Ok exA /\
  subtract exA (__init__ 2 2) = Ok exA.
Proof. exact (add_empty exA wf_exA rows_nonempty_exA). Defined.

(** ** Reading back what was written *)

(** For a matrix whose dictionaries hold each key once and have no empty
    row, and whose numbers have at most 4300 digits each, [__str__]
    returns a text and reading that text returns the matrix itself, keys
    in the same order; so writing it again gives the same text. *)
Theorem from_file_to_str_exact (m : SparseMatrix) :
  wf m -> rows_nonempty m -> printable m = true ->
  exists text, __str__ m = Ok text /\ from_file text = Ok m /\
    (forall m', from_file text = Ok m' -> __str__ m' = Ok text).
Proof.
  intros Hwf Hne Hp. exists (text_of m).
  assert (from_file (text_of m) = Ok m) as H
    by (rewrite from_file_to_str, copy_exact by assumption; reflexivity).
  split; [apply str_printable, Hp|]. split; [exact H|].
  intros m'. rewrite H. intros [= <-]. apply str_printable, Hp.
Qed.

Lemma from_file_to_str_exact_witness :
  exists text, __str__ exA = Ok text /\ from_file text = Ok exA /\
    (forall m', from_file text = Ok m' -> __str__ m' = Ok text).
Proof. exact (from_file_to_str_exact exA wf_exA rows_nonempty_exA eq_refl). Defined.

Lemma operator_result_valid A B R :
  add A B = Ok R \/ subtract A B = Ok R \/ multiply A B = Ok R ->
  wf R /\ rows_nonempty R.
Proof.
  intros H. split.
  - destruct H as [H|[H|H]]; eauto using add_wf, subtract_wf, multiply_wf.
  - destruct H as [H|[H|H]].
    + destruct (decide (rows A = rows B /\ cols A = cols B)) as [[Hr Hc]|Hne].
      * rewrite add_combine in H by assumption. injection H as <-.
        do 2 apply rows_nonempty_update_all. apply rows_nonempty_init.
      * rewrite add_mismatch in H by lia. discriminate.
    + destruct (decide (rows A = rows B /\ cols A = cols B)) as [[Hr Hc]|Hne].
      * rewrite subtract_combine in H by assumption. injection H as <-.
        do 2 apply rows_nonempty_update_all. apply rows_nonempty_init.
      * rewrite subtract_mismatch in H by lia. discriminate.
    + destruct (decide (cols A = rows B)) as [Hd|Hne].
      * rewrite multiply_write_nonzero in H by assumption. injection H as <-.
        apply rows_nonempty_write_nonzero, rows_nonempty_init.
      * rewrite multiply_mismatch in H by assumption. discriminate.
Qed.

Lemma operator_result_reads_back A B R text :
  add A B = Ok R \/ subtract A B = Ok R \/ multiply A B = Ok R ->
  __str__ R = Ok text -> from_file text = Ok R.
Proof.
  intros H [Hp ->]%str_Ok. destruct (operator_result_valid A B R H) as [Hwf Hne].
  rewrite from_file_to_str, copy_exact by assumption. reflexivity.
Qed.

(** The numbers [from_file] reads are within the limit, so the matrix it
    returns can be formatted. *)
Lemma unpack3_within tokens x y z :
  unpack3 (map int tokens) = Ok (x, y, z) ->
  within_limit x = true /\ within_limit y = true /\ within_limit z = true.
Proof.
  destruct tokens as [|a [|b [|c [|d rest]]]]; simpl; try discriminate.
  - destruct (int a); simpl; discriminate.
  - destruct (int a); simpl; [|discriminate]. destruct (int b); simpl; discriminate.
  - destruct (int a) as [x'|] eqn:Ha; simpl; [|discriminate].
    destruct (int b) as [y'|] eqn:Hb; simpl; [|discriminate].
    destruct (int c) as [z'|] eqn:Hc; simpl; [|discriminate].
    intros [= <- <- <-]. split_and!; eapply int_within; eassumption.
  - destruct (int a); simpl; [|discriminate].
    destruct (int b); simpl; [|discriminate].
    destruct (int c); simpl; [|discriminate].
    destruct (int d); simpl; discriminate.
Qed.

Lemma read_entry_within line matrix m :
  read_entry line matrix = Ok m ->
  exists x y z, m = set_element matrix x y z /\
    within_limit x = true /\ within_limit y = true /\ within_limit z = true.
Proof.
  unfold read_entry.
  destruct (unpack3 (map int (split "," (slice 1 (-1) line)))) as [[[x y] z]|e] eqn:E.
  - simpl. intros [= <-]. exists x, y, z. split; [reflexivity|].
    eapply unpack3_within, E.
  - simpl. destruct e; discriminate.
Qed.

Lemma printable_set_element m r c v :
  printable m = true ->
  within_limit r = true -> within_limit c = true -> within_limit v = true ->
  printable (set_element m r c v) = true.
Proof.
  intros (Hrows & Hcols & Hk)%printable_spec Hr Hc Hv. apply printable_spec.
  split_and!; [exact Hrows | exact Hcols |].
  intros [r' c'] Hin. cbn [fst snd]. rewrite get_element_set_element.
  apply elem_of_stored_keys in Hin. rewrite entry_set_element in Hin.
  destruct ((r =? r') && (c =? c')) eqn:E.
  - apply andb_true_iff in E as [->%Z.eqb_eq ->%Z.eqb_eq]. auto.
  - apply elem_of_stored_keys in Hin. exact (Hk (r', c') Hin).
Qed.

Lemma read_entries_printable lines matrix m :
  printable matrix = true -> for_each_raising lines read_entry matrix = Ok m ->
  printable m = true.
Proof.
  revert matrix. induction lines as [|line lines IH]; intros matrix Hp; simpl.
  - intros [= <-]. assumption.
  - destruct (read_entry line matrix) as [m1|e] eqn:E; [|discriminate]. simpl.
    destruct (read_entry_within _ _ _ E) as (x & y & z & -> & Hx & Hy & Hz).
    apply IH, printable_set_element; assumption.
Qed.

Lemma read_header_within lines r c :
  read_header lines = Ok (r, c) -> within_limit r = true /\ within_limit c = true.
Proof.
  unfold read_header.
  destruct (index lines 0) as [l0|e0]; [|destruct e0; discriminate]. simpl.
  destruct (index (split "=" l0) 1) as [t0|e0]; [|destruct e0; discriminate]. simpl.
  destruct (int t0) as [r'|e0] eqn:Hr; [|destruct e0; discriminate]. simpl.
  destruct (index lines 1) as [l1|e1]; [|destruct e1; discriminate]. simpl.
  destruct (index (split "=" l1) 1) as [t1|e1]; [|destruct e1; discriminate]. simpl.
  destruct (int t1) as [c'|e1] eqn:Hc; [|destruct e1; discriminate]. simpl.
  intros [= <- <-]. split; eapply int_within; eassumption.
Qed.

Lemma from_file_printable content m : from_file content = Ok m -> printable m = true.
Proof.
  rewrite from_file_header.
  destruct (read_header (nonblank_lines content)) as [[r c]|e] eqn:E; simpl;
    [|discriminate].
  apply read_entries_printable. apply printable_spec.
  destruct (read_header_within _ _ _ E) as [Hr Hc].
  split_and!; [exact Hr | exact Hc |]. intros k Hin. inversion Hin.
Qed.

(** What [from_file] returns can always be formatted, and its text reads
    back as the same matrix.  What an operator returns can hold a number
    beyond the limit; whenever [__str__] formats it, the text reads back as
    the result: the file the program saves loads as the result it
    computed. *)
Theorem saved_text_reads_back :
  (forall content m, from_file content = Ok m ->
     exists text, __str__ m = Ok text /\ from_file text = Ok m) /\
  (forall A B R text,
     add A B = Ok R \/ subtract A B = Ok R \/ multiply A B = Ok R ->
     __str__ R = Ok text -> from_file text = Ok R).
Proof.
  split; [|exact operator_result_reads_back].
  intros content m H. exists (text_of m).
  pose proof (from_file_printable _ _ H) as Hp.
  split; [apply str_printable, Hp|].
  rewrite from_file_to_str, copy_exact; [reflexivity|..|exact Hp].
  - eapply from_file_wf, H.
  - rewrite from_file_header in H.
    destruct (read_header (nonblank_lines content)) as [[r c]|e]; simpl in H;
      [|discriminate].
    eapply read_entries_rows_nonempty, H. apply rows_nonempty_init.
Qed.

Lemma saved_text_reads_back_witness :
  (exists text,
     __str__ exA = Ok text /\ from_file text = Ok exA) /\
  from_file (lit "rows=2" ++ LF :: lit "cols=2" ++ LF :: lit "(0, 0, 3)" ++ LF
               :: lit "(0, 1, 4)" ++ [LF])
  = Ok {| rows := 2; cols := 2; data := [(0, [(0, 3); (1, 4)])] |}.
Proof.
  split.
  - apply (proj1 saved_text_reads_back
             (lit "rows=2" ++ LF :: lit "cols=2" ++ LF :: lit "(0, 0, 1)" ++ LF
                :: lit "(1, 1, 2)" ++ [LF]) exA).
    vm_compute. reflexivity.
  - apply (proj2 saved_text_reads_back exA exB).
    + right. right. reflexivity.
    + vm_compute. reflexivity.
Defined.

(** ** Results beyond the limit *)

Lemma one_entry_add v : add (one_entry v) (one_entry v) = Ok (one_entry (v + v)).
Proof. reflexivity. Qed.

Lemma one_entry_reads v :
  within_limit v = true -> from_file (text_of (one_entry v)) = Ok (one_entry v).
Proof.
  intros Hv. rewrite from_file_to_str by (rewrite printable_one_entry; exact Hv).
  rewrite copy_exact; [reflexivity | apply wf_set_element, wf_init |].
  repeat constructor; discriminate.
Qed.

Lemma half_limit_double : half_limit + half_limit = 10 ^ Z.of_nat max_str_digits.
Proof.
  unfold half_limit.
  replace (Z.of_nat max_str_digits) with (Z.succ (Z.of_nat (max_str_digits - 1)))
    by (unfold max_str_digits; lia).
  rewrite Z.pow_succ_r by lia.
  generalize (10 ^ Z.of_nat (max_str_digits - 1)). intros P. lia.
Qed.

Lemma within_limit_half : within_limit half_limit = true.
Proof.
  apply within_limit_spec. rewrite <- half_limit_double. unfold half_limit.
  assert (0 < 10 ^ Z.of_nat (max_str_digits - 1)) as Hpos
    by (apply Z.pow_pos_nonneg; lia).
  revert Hpos. generalize (10 ^ Z.of_nat (max_str_digits - 1)). intros P HP. lia.
Qed.

(** The operators do not keep their results within the limit.  The matrix
    of [SparseMatrix(1, 1)] that holds 5 followed by 4299 zeros, a number
    of 4300 digits, can be written, and its text reads back as the matrix;
    added to itself it gives the matrix that holds 10 to the power 4300,
    which [__str__] cannot format. *)
Theorem add_beyond_limit :
  (exists text, __str__ ex_half = Ok text /\ from_file text = Ok ex_half) /\
  add ex_half ex_half = Ok ex_big /\
  __str__ ex_big = Raise (ValueError msg_limit).
Proof.
  split_and!.
  - exists (text_of ex_half). split.
    + apply str_printable. unfold ex_half.
      rewrite printable_one_entry. apply within_limit_half.
    + apply one_entry_reads, within_limit_half.
  - unfold ex_half, ex_big. rewrite one_entry_add, half_limit_double. reflexivity.
  - unfold ex_big. rewrite str_cases, printable_one_entry, within_limit_power.
    reflexivity.
Qed.

(** ** What [from_file] accepts *)

Lemma isspace_false_plain c :
  isspace c = false ->
  Ascii.eqb c LF = false /\ Ascii.eqb c CR = false.
Proof. destruct c as [[] [] [] [] [] [] [] []]; vm_compute; intuition discriminate. Qed.

Lemma pad_char_plain c :
  pad_char c = true ->
  int_space c = true /\ Ascii.eqb c LF = false /\ Ascii.eqb c CR = false /\
  Ascii.eqb c "," = false.
Proof. destruct c as [[] [] [] [] [] [] [] []]; vm_compute; intuition discriminate. Qed.

Lemma name_char_plain c :
  name_char c = true ->
  Ascii.eqb c "=" = false /\ Ascii.eqb c LF = false /\ Ascii.eqb c CR = false.
Proof.
  unfold name_char. destruct (Ascii.eqb c "="), (Ascii.eqb c LF), (Ascii.eqb c CR);
    simpl; intuition discriminate.
Qed.

Lemma drop_while_split (p : ascii -> bool) s :
  exists ws, Forall (fun c => p c = true) ws /\ s = ws ++ drop_while p s /\
    (drop_while p s = [] \/ starts_outside p (drop_while p s)).
Proof.
  induction s as [|c s (ws & Hws & Hs & Hd)]; simpl.
  - exists []. auto.
  - destruct (p c) eqn:Hc.
    + exists (c :: ws). split_and!; [constructor; assumption | | assumption].
      simpl. rewrite <- Hs. reflexivity.
    + exists []. split_and!; [constructor | reflexivity | right; exact Hc].
Qed.

Lemma Forall_drop_while (P : ascii -> Prop) (p : ascii -> bool) s :
  Forall P s -> Forall P (drop_while p s).
Proof.
  induction 1 as [|c s Hc Hs IH]; simpl; [constructor|].
  destruct (p c); [assumption | constructor; assumption].
Qed.

Lemma strip_header_line n z :
  strip ((n ++ "="%char :: decimal z) ++ [LF]) =
  drop_while isspace n ++ "="%char :: decimal z.
Proof.
  destruct (drop_while_split isspace n) as (ws & Hws & Hn & Hd).
  rewrite Hn at 1. rewrite <- !app_assoc.
  rewrite (app_assoc (drop_while isspace n)). unfold strip.
  apply trim_padded; [assumption | repeat constructor | |].
  - destruct Hd as [-> | Hd]; [reflexivity | apply starts_outside_app, Hd].
  - apply ends_outside_app. apply (ends_outside_app isspace ["="%char]).
    apply ends_outside_all; [apply decimal_nonempty|].
    apply decimal_avoids. intros c Hc. apply numeric_plain, Hc.
Qed.

Lemma strip_entry_line a body z :
  isspace a = false -> isspace z = false ->
  strip ((a :: body ++ [z]) ++ [LF]) = a :: body ++ [z].
Proof.
  intros Ha Hz. unfold strip.
  apply (trim_padded isspace [] (a :: body ++ [z]) [LF]);
    [constructor | repeat constructor | exact Ha |].
  apply (ends_outside_app isspace (a :: body) [z]). exact Hz.
Qed.

Lemma nonblank_lines_unlines ls :
  Forall (Forall (fun c => Ascii.eqb c LF = false)) ls ->
  Forall (Forall (fun c => Ascii.eqb c CR = false)) ls ->
  Forall (fun l => strip (l ++ [LF]) <> []) ls ->
  nonblank_lines (unlines ls) = map (fun l => strip (l ++ [LF])) ls.
Proof.
  intros HLF HCR Hne. unfold nonblank_lines, unlines.
  rewrite universal_newlines_no_CR.
  2:{ apply Forall_concat, Forall_fmap.
      eapply Forall_impl; [exact HCR|].
      intros l Hl. simpl. apply Forall_app. split; [assumption|].
      repeat constructor. }
  rewrite file_lines_concat by assumption. clear HLF HCR.
  induction Hne as [|l ls Hl _ IH]; [reflexivity|]. csimpl.
  assert (negb (Nat.eqb (length (strip (l ++ [LF]))) 0) = true) as ->
    by (destruct (strip (l ++ [LF])); [contradiction | reflexivity]).
  cbn [map]. f_equal. exact IH.
Qed.

Lemma read_header_lines (n1 n2 : str) r c rest :
  Forall (fun x => Ascii.eqb x "=" = false) n1 ->
  Forall (fun x => Ascii.eqb x "=" = false) n2 ->
  read_header ((n1 ++ "="%char :: decimal r) :: (n2 ++ "="%char :: decimal c) :: rest) =
  if within_limit r && within_limit c then Ok (r, c) else Raise FormatError.
Proof.
  intros Hn1 Hn2.
  assert (forall z, Forall (fun x => Ascii.eqb x "=" = false) (decimal z)) as Hnum
    by (intros z; apply decimal_avoids; intros x Hx; apply numeric_plain, Hx).
  unfold read_header. cbn [index nth_error mbind result_bind].
  rewrite !split_at_sep, !split_no_sep by auto.
  cbn [index nth_error mbind result_bind]. rewrite !int_decimal_plain.
  destruct (within_limit r), (within_limit c); reflexivity.
Qed.

Lemma int_padded pad z :
  Forall (fun c => pad_char c = true) pad ->
  int (pad ++ decimal z) =
  if within_limit z then Ok z else Raise (ValueError msg_limit_int).
Proof.
  intros Hpad. pose proof (int_decimal pad z []) as H. rewrite app_nil_r in H.
  apply H; [|constructor].
  eapply Forall_impl; [exact Hpad|]. intros c Hc. apply pad_char_plain, Hc.
Qed.

(** An entry line is read when its three numbers are within the limit,
    and refused when one is not. *)
Lemma read_entry_fields a z pad e matrix :
  Forall (fun c => pad_char c = true) pad ->
  read_entry (a :: entry_fields pad e ++ [z]) matrix =
  if entry_within e then Ok (set_element matrix e.1.1 e.1.2 e.2)
  else Raise FormatError.
Proof.
  intros Hpad. unfold read_entry. rewrite slice_inner. unfold entry_fields.
  assert (forall x, Forall (fun c => Ascii.eqb c "," = false) (decimal x)) as Hnum
    by (intros x; apply decimal_avoids; intros c Hc; apply numeric_plain, Hc).
  assert (forall x, Forall (fun c => Ascii.eqb c "," = false) (pad ++ decimal x))
    as Hpadnum.
  { intros x. apply Forall_app. split; [|apply Hnum].
    eapply Forall_impl; [exact Hpad|]. intros c Hc. apply pad_char_plain, Hc. }
  rewrite split_at_sep by apply Hnum.
  rewrite split_at_sep by apply Hpadnum.
  rewrite split_no_sep by apply Hpadnum.
  cbn [map]. rewrite !int_padded by assumption.
  rewrite int_decimal_plain. unfold entry_within.
  destruct (within_limit e.1.1), (within_limit e.1.2), (within_limit e.2); reflexivity.
Qed.

Lemma read_entry_fields_all a z pad es matrix :
  Forall (fun c => pad_char c = true) pad ->
  for_each_raising ((fun e => a :: entry_fields pad e ++ [z]) <$> es) read_entry matrix =
  if forallb entry_within es
  then Ok (fold_left (fun m e => set_element m e.1.1 e.1.2 e.2) es matrix)
  else Raise FormatError.
Proof.
  intros Hpad. revert matrix.
  induction es as [|e es IH]; intros matrix; [reflexivity|].
  csimpl. rewrite read_entry_fields by assumption.
  destruct (entry_within e); [|reflexivity]. simpl. apply IH.
Qed.

Lemma matrix_lines_chars (c0 : ascii) n1 n2 a z pad rows cols es :
  c0 = LF \/ c0 = CR ->
  Forall (fun c => name_char c = true) n1 -> Forall (fun c => name_char c = true) n2 ->
  isspace a = false -> isspace z = false ->
  Forall (fun c => pad_char c = true) pad ->
  Forall (Forall (fun c => Ascii.eqb c c0 = false))
    (matrix_lines n1 n2 a z pad rows cols es).
Proof.
  intros Hc0 Hn1 Hn2 Ha Hz Hpad.
  assert (forall x, Forall (fun c => Ascii.eqb c c0 = false) (decimal x)) as Hnum.
  { intros x. apply decimal_avoids. intros c Hc.
    destruct Hc0 as [-> | ->]; apply numeric_plain, Hc. }
  assert (forall n, Forall (fun c => name_char c = true) n ->
            Forall (fun c => Ascii.eqb c c0 = false) n) as Hname.
  { intros n Hn. eapply Forall_impl; [exact Hn|]. intros c Hc.
    destruct Hc0 as [-> | ->]; apply name_char_plain, Hc. }
  assert (Forall (fun c => Ascii.eqb c c0 = false) pad) as Hp.
  { eapply Forall_impl; [exact Hpad|]. intros c Hc.
    destruct Hc0 as [-> | ->]; apply pad_char_plain, Hc. }
  assert (Ascii.eqb a c0 = false /\ Ascii.eqb z c0 = false) as [Ha0 Hz0]
    by (destruct Hc0 as [-> | ->]; split; apply isspace_false_plain; assumption).
  assert (Ascii.eqb "=" c0 = false /\ Ascii.eqb "," c0 = false) as [He Hcomma]
    by (destruct Hc0 as [-> | ->]; split; reflexivity).
  unfold matrix_lines. repeat apply Forall_cons_2.
  - apply Forall_app. split; [apply Hname, Hn1|]. constructor; [exact He | apply Hnum].
  - apply Forall_app. split; [apply Hname, Hn2|]. constructor; [exact He | apply Hnum].
  - apply Forall_fmap, Forall_forall. intros e _. simpl. constructor; [exact Ha0|].
    unfold entry_fields.
    repeat first [ apply Forall_app; split | apply Hnum | exact Hp
                 | apply Forall_cons_2; [first [exact Hcomma | exact Hz0]|]
                 | apply Forall_nil_2 ].
Qed.

(** What [from_file] makes of a text of such lines. *)
Lemma from_file_matrix_lines n1 n2 a z pad rows cols es :
  Forall (fun c => name_char c = true) n1 -> Forall (fun c => name_char c = true) n2 ->
  isspace a = false -> isspace z = false ->
  Forall (fun c => pad_char c = true) pad ->
  from_file (unlines (matrix_lines n1 n2 a z pad rows cols es)) =
  if within_limit rows && within_limit cols && forallb entry_within es
  then Ok (fold_left (fun m e => set_element m e.1.1 e.1.2 e.2) es (__init__ rows cols))
  else Raise FormatError.
Proof.
  intros Hn1 Hn2 Ha Hz Hpad. rewrite from_file_header.
  rewrite nonblank_lines_unlines.
  2, 3: apply matrix_lines_chars; auto.
  2:{ unfold matrix_lines. repeat apply Forall_cons_2.
      - rewrite strip_header_line. destruct (drop_while isspace n1); discriminate.
      - rewrite strip_header_line. destruct (drop_while isspace n2); discriminate.
      - apply Forall_fmap, Forall_forall. intros e _. unfold compose.
        rewrite (strip_entry_line a _ z) by assumption. discriminate. }
  unfold matrix_lines. cbn [map]. rewrite !strip_header_line.
  assert (forall n, Forall (fun c => name_char c = true) n ->
            Forall (fun c => Ascii.eqb c "=" = false) (drop_while isspace n)) as Hname.
  { intros n Hn. apply Forall_drop_while. eapply Forall_impl; [exact Hn|].
    intros c Hc. apply name_char_plain, Hc. }
  rewrite read_header_lines by auto.
  destruct (within_limit rows && within_limit cols); [|reflexivity].
  cbn [mbind result_bind skipn andb].
  rewrite <- (read_entry_fields_all a z pad es) by assumption.
  f_equal. rewrite <- list_fmap_compose.
  apply list_fmap_ext. intros _ e _. unfold compose.
  apply (strip_entry_line a _ z); assumption.
Qed.

(** [from_file] reads rows and cols after the [=] of the first two lines,
    whatever stands before it; it drops the first and the last character
    of an entry line, whatever they are; it accepts white space before the
    second and third number; it calls [set_element] for the entries in the
    order of the lines, so a later entry at a key replaces an earlier one;
    it checks no coordinate against rows and cols.  It returns when every
    number of the text has at most 4300 digits, and raises the format
    error when rows, cols or a number of an entry has more. *)
Theorem from_file_reads (n1 n2 : str) (a z : ascii) (pad : str) (rows cols : Z)
    (es : list (Z * Z * Z)) :
  Forall (fun c => name_char c = true) n1 -> Forall (fun c => name_char c = true) n2 ->
  isspace a = false -> isspace z = false ->
  Forall (fun c => pad_char c = true) pad ->
  (within_limit rows = true -> within_limit cols = true ->
   forallb entry_within es = true ->
   from_file (unlines (matrix_lines n1 n2 a z pad rows cols es)) =
   Ok (fold_left (fun m e => set_element m e.1.1 e.1.2 e.2) es (__init__ rows cols))) /\
  (within_limit rows && within_limit cols && forallb entry_within es = false ->
   from_file (unlines (matrix_lines n1 n2 a z pad rows cols es)) = Raise FormatError).
Proof.
  intros Hn1 Hn2 Ha Hz Hpad. rewrite from_file_matrix_lines by assumption. split.
  - intros -> -> ->. reflexivity.
  - intros ->. reflexivity.
Qed.

Lemma from_file_reads_witness :
  from_file (unlines (matrix_lines (lit "cols") (lit " any name ") "[" "]" []
                        2 3 [(0, 0, 1); (5, -1, 2); (0, 0, 7)])) =
  Ok (fold_left (fun m e => set_element m e.1.1 e.1.2 e.2)
        [(0, 0, 1); (5, -1, 2); (0, 0, 7)] (__init__ 2 3)) /\
  from_file (unlines (matrix_lines (lit "rows") (lit "cols") "(" ")" [" "%char]
                        1 1 [(0, 0, 10 ^ Z.of_nat max_str_digits)])) =
  Raise FormatError.
Proof.
  split.
  - apply (from_file_reads (lit "cols") (lit " any name ") "[" "]" []
             2 3 [(0, 0, 1); (5, -1, 2); (0, 0, 7)]);
      try reflexivity; repeat constructor.
  - refine (proj2 (from_file_reads (lit "rows") (lit "cols") "(" ")" [" "%char]
                     1 1 [(0, 0, 10 ^ Z.of_nat max_str_digits)]
                     _ _ eq_refl eq_refl _) _).
    1-3: repeat constructor.
    unfold entry_within. cbn [forallb fst snd].
    rewrite within_limit_power. reflexivity.
Defined.

Lemma entry_fold_set es m r c :
  entry (fold_left (fun m e => set_element m e.1.1 e.1.2 e.2) es m) r c =
  match last_write es r c with
  | Some v => Some v
  | None => entry m r c
  end.
Proof.
  revert m. induction es as [|e es IH]; intros m; [reflexivity|].
  simpl. rewrite IH. destruct (last_write es r c); [reflexivity|].
  rewrite entry_set_element.
  destruct ((e.1.1 =? r) && (e.1.2 =? c)); reflexivity.
Qed.

(** Of several entry lines at one key the last one wins: for numbers of
    at most 4300 digits each, the matrix read has the rows and cols of the
    header and stores, at each key that occurs, the value of its last line,
    and nothing at the other keys. *)
Theorem from_file_last_entry_wins (nr nc : Z) (es : list (Z * Z * Z)) :
  within_limit nr = true -> within_limit nc = true ->
  forallb entry_within es = true ->
  exists m,
    from_file (unlines (matrix_lines (lit "rows") (lit "cols") "(" ")" [] nr nc es))
      = Ok m /\
    rows m = nr /\ cols m = nc /\
    forall r c, entry m r c = last_write es r c.
Proof.
  intros Hnr Hnc Hes.
  eexists. split.
  { rewrite from_file_matrix_lines, Hnr, Hnc, Hes by (try reflexivity; repeat constructor).
    reflexivity. }
  assert (forall es m,
    rows (fold_left (fun m e => set_element m e.1.1 e.1.2 e.2) es m)
      = rows m /\
    cols (fold_left (fun m e => set_element m e.1.1 e.1.2 e.2) es m)
      = cols m) as Hdims.
  { clear. induction es as [|e es IH]; intros m; [split; reflexivity|].
    simpl. destruct (IH (set_element m e.1.1 e.1.2 e.2)) as [-> ->]. split; reflexivity. }
  split_and!; [apply Hdims | apply Hdims |].
  intros r c. rewrite entry_fold_set, entry_init.
  destruct (last_write es r c); reflexivity.
Qed.

Lemma from_file_last_entry_wins_witness :
  exists m,
    from_file (unlines (matrix_lines (lit "rows") (lit "cols") "(" ")" [] 2 3
                          [(0, 0, 1); (1, 2, 5); (0, 0, 7)]))
      = Ok m /\
    rows m = 2 /\ cols m = 3 /\
    forall r c, entry m r c = last_write [(0, 0, 1); (1, 2, 5); (0, 0, 7)] r c.
Proof.
  exact (from_file_last_entry_wins 2 3 [(0, 0, 1); (1, 2, 5); (0, 0, 7)]
           eq_refl eq_refl eq_refl).
Defined.

(** ** Line ends and blank lines *)

Lemma str_ind2 (P : list ascii -> Prop) :
  P [] -> (forall c, P [c]) ->
  (forall c c' s, P s -> P (c' :: s) -> P (c :: c' :: s)) ->
  forall s : list ascii, P s.
Proof.
  intros H0 H1 H2 s. enough (P s /\ forall c, P (c :: s)) as [H _] by exact H.
  induction s as [|c' s [IH1 IH2]]; [auto|]. split; [apply IH2|].
  intros c. apply H2; [exact IH1 | apply IH2].
Qed.

Lemma universal_newlines_cons2 c c' s :
  universal_newlines (c :: c' :: s) =
  if Ascii.eqb c CR
  then if Ascii.eqb c' LF then LF :: universal_newlines s
       else LF :: universal_newlines (c' :: s)
  else c :: universal_newlines (c' :: s).
Proof. reflexivity. Qed.

Lemma universal_newlines_single c :
  universal_newlines [c] = if Ascii.eqb c CR then [LF] else [c].
Proof. reflexivity. Qed.

Lemma universal_newlines_Forall (P : ascii -> Prop) s :
  P LF -> Forall P s -> Forall P (universal_newlines s).
Proof.
  intros HLF. induction s as [|c|c c' s IH1 IH2] using str_ind2; intros Hs.
  - constructor.
  - rewrite universal_newlines_single. destruct (Ascii.eqb c CR); [|assumption].
    repeat constructor. exact HLF.
  - rewrite universal_newlines_cons2. inversion Hs as [|? ? Hc Hs']; subst.
    inversion Hs' as [|? ? Hc' Hs'']; subst.
    destruct (Ascii.eqb c CR); [destruct (Ascii.eqb c' LF)|]; constructor; auto.
Qed.

Lemma universal_newlines_CR_free s :
  Forall (fun c => Ascii.eqb c CR = false) (universal_newlines s).
Proof.
  induction s as [|c|c c' s IH1 IH2] using str_ind2.
  - constructor.
  - rewrite universal_newlines_single.
    destruct (Ascii.eqb c CR) eqn:E; repeat constructor. exact E.
  - rewrite universal_newlines_cons2.
    destruct (Ascii.eqb c CR) eqn:E; [destruct (Ascii.eqb c' LF)|];
      constructor; auto.
Qed.

Lemma universal_newlines_crlf s :
  Forall (fun c => Ascii.eqb c CR = false) s -> universal_newlines (crlf s) = s.
Proof.
  induction 1 as [|c s Hc _ IH]; [reflexivity|]. cbn [crlf].
  destruct (Ascii.eqb c LF) eqn:E.
  - apply Ascii.eqb_eq in E. subst c. rewrite universal_newlines_cons2.
    rewrite !Ascii.eqb_refl, IH. reflexivity.
  - cbn [universal_newlines]. rewrite Hc, IH. reflexivity.
Qed.

Lemma from_file_universal_newlines s : from_file (universal_newlines s) = from_file s.
Proof.
  unfold from_file, nonblank_lines.
  rewrite (universal_newlines_no_CR (universal_newlines s))
    by apply universal_newlines_CR_free.
  reflexivity.
Qed.

(** [from_file] reads a text the same whatever its line ends: [CR LF] and
    [CR] count as [LF], so the text with Windows line ends gives what the
    text with Unix line ends gives. *)
Theorem from_file_line_ends (s : str) :
  from_file (universal_newlines s) = from_file s /\
  (Forall (fun c => Ascii.eqb c CR = false) s -> from_file (crlf s) = from_file s).
Proof.
  split; [apply from_file_universal_newlines|].
  intros Hs. rewrite <- (from_file_universal_newlines (crlf s)).
  rewrite universal_newlines_crlf by assumption. reflexivity.
Qed.

Lemma from_file_line_ends_witness :
  from_file (crlf (text_of exA)) = from_file (text_of exA).
Proof.
  apply (proj2 (from_file_line_ends (text_of exA))).
  vm_compute. repeat constructor.
Defined.

Lemma universal_newlines_app_LF s1 s2 :
  universal_newlines (s1 ++ LF :: s2) =
  universal_newlines (s1 ++ [LF]) ++ universal_newlines s2.
Proof.
  induction s1 as [|c|c c' s IH1 IH2] using str_ind2.
  - reflexivity.
  - cbn [app]. rewrite !universal_newlines_cons2, Ascii.eqb_refl.
    destruct (Ascii.eqb c CR); reflexivity.
  - cbn [app] in *. rewrite !universal_newlines_cons2.
    destruct (Ascii.eqb c CR); [destruct (Ascii.eqb c' LF)|];
      rewrite ?IH1, ?IH2; reflexivity.
Qed.

Lemma universal_newlines_ends_LF s :
  exists x, universal_newlines (s ++ [LF]) = x ++ [LF].
Proof.
  induction s as [|c|c c' s [x1 IH1] [x2 IH2]] using str_ind2.
  - exists []. reflexivity.
  - cbn [app]. rewrite universal_newlines_cons2, Ascii.eqb_refl.
    destruct (Ascii.eqb c CR); [exists [] | exists [c]]; reflexivity.
  - cbn [app] in *. rewrite universal_newlines_cons2.
    destruct (Ascii.eqb c CR); [destruct (Ascii.eqb c' LF)|].
    + exists (LF :: x1). rewrite IH1. reflexivity.
    + exists (LF :: x2). rewrite IH2. reflexivity.
    + exists (c :: x2). rewrite IH2. reflexivity.
Qed.

Lemma file_lines_snoc_nonempty s : file_lines (s ++ [LF]) <> [].
Proof.
  destruct s as [|c s]; [discriminate|]. cbn [app file_lines].
  destruct (Ascii.eqb c LF); [discriminate|].
  destruct (file_lines (s ++ [LF])); discriminate.
Qed.

Lemma file_lines_app_LF s rest :
  file_lines (s ++ LF :: rest) = file_lines (s ++ [LF]) ++ file_lines rest.
Proof.
  induction s as [|c s IH]; [reflexivity|]. cbn [app file_lines].
  destruct (Ascii.eqb c LF); [rewrite IH; reflexivity|].
  rewrite IH. pose proof (file_lines_snoc_nonempty s) as Hne.
  destruct (file_lines (s ++ [LF])); [contradiction | reflexivity].
Qed.

Lemma nonblank_lines_app_LF s1 s2 :
  nonblank_lines (s1 ++ LF :: s2) = nonblank_lines (s1 ++ [LF]) ++ nonblank_lines s2.
Proof.
  unfold nonblank_lines. rewrite universal_newlines_app_LF.
  destruct (universal_newlines_ends_LF s1) as [x ->].
  rewrite <- app_assoc. cbn [app]. rewrite file_lines_app_LF.
  rewrite List.filter_app, List.map_app. reflexivity.
Qed.

Lemma Forall_file_lines (P : ascii -> Prop) s :
  Forall P s -> Forall (Forall P) (file_lines s).
Proof.
  induction 1 as [|c s Hc Hs IH]; [constructor|]. cbn [file_lines].
  destruct (Ascii.eqb c LF) eqn:E.
  - apply Ascii.eqb_eq in E. subst c. constructor; [|exact IH].
    repeat constructor. exact Hc.
  - destruct (file_lines s) as [|l ls]; [repeat constructor; assumption|].
    inversion IH; subst. repeat constructor; assumption.
Qed.

Lemma strip_blank l : Forall (fun c => isspace c = true) l -> strip l = [].
Proof.
  intros Hl. unfold strip, trim.
  rewrite <- (app_nil_r l), drop_while_all by assumption. reflexivity.
Qed.

Lemma nonblank_lines_blank b :
  Forall (fun c => isspace c = true) b -> nonblank_lines b = [].
Proof.
  intros Hb. unfold nonblank_lines.
  assert (Forall (Forall (fun c => isspace c = true))
            (file_lines (universal_newlines b))) as Hlines
    by (apply Forall_file_lines, universal_newlines_Forall; [reflexivity | assumption]).
  induction Hlines as [|l ls Hl _ IH]; [reflexivity|].
  cbn [List.filter]. rewrite (strip_blank l Hl). exact IH.
Qed.

(** Lines of white space only are skipped wherever they stand: a text reads
    the same with such lines put before it or between two of its lines. *)
Theorem from_file_blank_lines (s1 b s2 : str) :
  Forall (fun c => isspace c = true) b ->
  from_file (b ++ LF :: s2) = from_file s2 /\
  from_file (s1 ++ LF :: b ++ LF :: s2) = from_file (s1 ++ LF :: s2).
Proof.
  intros Hb.
  assert (nonblank_lines (b ++ LF :: s2) = nonblank_lines s2) as H1.
  { rewrite nonblank_lines_app_LF, nonblank_lines_blank; [reflexivity|].
    apply Forall_app. split; [assumption | repeat constructor]. }
  split.
  - rewrite !from_file_header, H1. reflexivity.
  - rewrite !from_file_header.
    rewrite (nonblank_lines_app_LF s1 (b ++ LF :: s2)), H1,
      <- nonblank_lines_app_LF. reflexivity.
Qed.

Lemma from_file_blank_lines_witness :
  from_file (lit "  " ++ LF :: text_of exA) = from_file (text_of exA) /\
  from_file (lit "rows=2" ++ LF :: lit " " ++ LF :: lit "cols=2" ++ [LF]) =
  from_file (lit "rows=2" ++ LF :: lit "cols=2" ++ [LF]).
Proof.
  split.
  - apply (from_file_blank_lines [] (lit "  ") (text_of exA)).
    repeat constructor.
  - apply (from_file_blank_lines (lit "rows=2") (lit " ") (lit "cols=2" ++ [LF])).
    repeat constructor.
Defined.

(** ** [set_element] on objects *)

Lemma store_set_element_frame h r row col v h' :
  Store.set_element r row col v h = Some h' ->
  h' !! r = h !! r /\
  (forall l, l ∉ Store.storage h r -> (l < length h)%nat -> h' !! l = h !! l).
Proof.
  unfold Store.set_element, Store.get_instance, Store.storage.
  destruct (h !! r) as [[rs cs d| |]|] eqn:Hr; try discriminate. simpl.
  unfold Store.get_rows_dict at 1.
  destruct (h !! d) as [[|rd|]|] eqn:Hd; try discriminate. simpl.
  assert (d <> r) as Hdr by (intros ->; congruence).
  assert ((r < length h)%nat) as Hrlt by (eapply lookup_lt_Some, Hr).
  assert ((d < length h)%nat) as Hdlt by (eapply lookup_lt_Some, Hd).
  unfold Dict.mem. destruct (Dict.get row rd) as [l0|] eqn:Hrow; simpl.
  - unfold Store.data_of, Store.get_instance, Store.get_rows_dict.
    rewrite Hr. simpl. rewrite Hd. simpl. rewrite Hrow. simpl.
    unfold Store.get_row_dict.
    destruct (h !! l0) as [[| |d0]|] eqn:Hl0; try discriminate. simpl.
    intros [= <-]. split.
    + rewrite list_lookup_insert_ne; [assumption | intros ->; congruence].
    + intros l Hl _. apply list_lookup_insert_ne. intros <-. apply Hl.
      do 2 right. eapply get_Some_value, Hrow.
  - set (h1 := <[d := _]> (h ++ [Store.RowDict Dict.empty])).
    assert (h1 !! r = Some (Store.Instance rs cs d)) as H1r.
    { unfold h1. rewrite list_lookup_insert_ne by assumption.
      apply lookup_app_l_Some, Hr. }
    assert (h1 !! d = Some (Store.RowsDict (Dict.set row (length h) rd))) as H1d.
    { unfold h1. apply list_lookup_insert_eq. rewrite length_app. lia. }
    unfold Store.data_of, Store.get_instance, Store.get_rows_dict.
    rewrite H1r. simpl. rewrite H1d. simpl. rewrite get_set_same. simpl.
    unfold Store.get_row_dict.
    destruct (h1 !! length h) as [[| |d0]|]; try discriminate. simpl.
    intros [= <-]. split.
    + rewrite list_lookup_insert_ne by lia. rewrite H1r. reflexivity.
    + intros l Hl Hlt. rewrite list_lookup_insert_ne by lia. unfold h1.
      rewrite list_lookup_insert_ne.
      * apply lookup_app_l. assumption.
      * intros <-. apply Hl. right. left.
Qed.

(** [set_element] updates the receiver in place.  On a store where the
    instance at [r] holds the value [R] and is made of distinct objects,
    the call returns; afterwards the same instance object (same rows, cols
    and [data] dictionary) holds the value with the element written, and
    every object that is not part of the instance is as it was. *)
Theorem store_set_element_in_place (h : Store.heap) (r : Store.loc)
    (R : SparseMatrix) (row col v : Z) :
  Store.represents h r R -> NoDup (Store.storage h r) ->
  exists h', Store.set_element r row col v h = Some h' /\
    Store.represents h' r (set_element R row col v) /\
    h' !! r = h !! r /\
    (forall l, l ∉ Store.storage h r -> (l < length h)%nat -> h' !! l = h !! l).
Proof.
  intros (d & rd & Hr & Hd & Hrows) Hnd.
  assert (owned [] h r R) as Hown.
  { exists d, rd. split_and!; try assumption; try (simpl; lia).
    - apply Forall_forall. intros l _. simpl. lia.
    - unfold Store.storage in Hnd. rewrite Hr, Hd in Hnd.
      apply NoDup_cons in Hnd as [_ Hnd]. apply NoDup_cons in Hnd as [_ Hnd].
      exact Hnd. }
  destruct (owned_set_element [] h r R row col v (prefix_nil h) Hown)
    as (h' & Hrun & _ & Hown').
  exists h'. split; [exact Hrun|]. split; [eapply owned_represents, Hown'|].
  eapply store_set_element_frame, Hrun.
Qed.

Lemma store_set_element_in_place_witness :
  exists h', Store.set_element 0 7 7 9 ex_store = Some h' /\
    Store.represents h' 0 (set_element exA 7 7 9) /\
    h' !! 0%nat = ex_store !! 0%nat /\
    (forall l, l ∉ Store.storage ex_store 0 -> (l < length ex_store)%nat ->
               h' !! l = ex_store !! l).
Proof.
  apply (store_set_element_in_place ex_store 0%nat exA 7 7 9 ex_store_exA).
  vm_compute. repeat (apply NoDup_cons_2; [intros H;
    repeat (apply elem_of_cons in H as [H|H]; [discriminate|]);
    apply elem_of_nil in H; exact H|]). apply NoDup_nil_2.
Defined.

(** ** The program *)

Lemma str_eqb_eq s t : str_eqb s t = true -> s = t.
Proof.
  revert t. induction s as [|c s IH]; intros [|d t]; simpl; try discriminate;
    [reflexivity|].
  intros [Hc Hs]%andb_true_iff. apply Ascii.eqb_eq in Hc. f_equal; auto.
Qed.

Lemma str_eqb_refl s : str_eqb s s = true.
Proof. induction s as [|c s IH]; simpl; [reflexivity|]. rewrite Ascii.eqb_refl. exact IH. Qed.

Lemma rfind_from_spec c s i last :
  rfind_from c s i last = last /\ Forall (fun x => Ascii.eqb x c = false) s \/
  i <= rfind_from c s i last < i + Z.of_nat (length s) /\
  Forall (fun x => Ascii.eqb x c = false)
    (skipn (Z.to_nat (rfind_from c s i last - i + 1)) s).
Proof.
  revert i last. induction s as [|x s IH]; intros i last; simpl.
  - left. split; [reflexivity | constructor].
  - destruct (Ascii.eqb x c) eqn:E.
    + right. destruct (IH (i + 1) i) as [[-> Hall]|[Hr Hall]].
      * split; [lia|]. replace (i - i + 1) with 1 by lia. exact Hall.
      * split; [lia|].
        replace (Z.to_nat (rfind_from c s (i + 1) i - i + 1))
          with (S (Z.to_nat (rfind_from c s (i + 1) i - (i + 1) + 1))) by lia.
        exact Hall.
    + destruct (IH (i + 1) last) as [[-> Hall]|[Hr Hall]].
      * left. split; [reflexivity | constructor; assumption].
      * right. split; [lia|].
        replace (Z.to_nat (rfind_from c s (i + 1) last - i + 1))
          with (S (Z.to_nat (rfind_from c s (i + 1) last - (i + 1) + 1))) by lia.
        exact Hall.
Qed.

(** A base name holds no [/]. *)
Lemma basename_no_slash p : Forall (fun x => Ascii.eqb x "/" = false) (basename p).
Proof.
  unfold basename, rfind.
  destruct (rfind_from_spec "/" p 0 (-1)) as [[-> Hall]|[Hr Hall]].
  - exact Hall.
  - replace (rfind_from "/" p 0 (-1) + 1) with (rfind_from "/" p 0 (-1) - 0 + 1) by lia.
    exact Hall.
Qed.

Lemma splitext_root_Forall (P : ascii -> Prop) p :
  Forall P p -> Forall P (splitext_root p).
Proof.
  intros Hp. unfold splitext_root.
  destruct (_ && _); [|assumption].
  unfold slice. apply Forall_take, Forall_drop, Hp.
Qed.

Lemma output_file_name_no_slash first_path operation second_path :
  Forall (fun x => Ascii.eqb x "/" = false) operation ->
  Forall (fun x => Ascii.eqb x "/" = false)
    (output_file_name first_path operation second_path).
Proof.
  intros Hop. unfold output_file_name.
  repeat (apply Forall_app; split);
    auto using splitext_root_Forall, basename_no_slash; repeat constructor.
Qed.

Lemma path_join_results dir name :
  dir = path_join (lit "sparse_matrix") (lit "sample_results") ->
  Forall (fun x => Ascii.eqb x "/" = false) name ->
  path_join dir name = lit "sparse_matrix/sample_results/" ++ name.
Proof.
  intros -> Hname. change (path_join (lit "sparse_matrix") (lit "sample_results"))
    with (lit "sparse_matrix/sample_results").
  unfold path_join.
  assert (starts_with "/" name = false) as ->
    by (destruct Hname; [reflexivity | assumption]).
  reflexivity.
Qed.

Lemma operation_named operation (A B : SparseMatrix) :
  (if str_eqb operation (lit "add") then Some (add A B)
   else if str_eqb operation (lit "subtract") then Some (subtract A B)
   else if str_eqb operation (lit "multiply") then Some (multiply A B)
   else None) =
  match List.find (fun o => str_eqb operation o.1) operations with
  | Some o => Some (o.2 A B)
  | None => None
  end.
Proof.
  unfold operations. cbn [List.find fst snd].
  destruct (str_eqb operation (lit "add")); [reflexivity|].
  destruct (str_eqb operation (lit "subtract")); [reflexivity|].
  destruct (str_eqb operation (lit "multiply")); reflexivity.
Qed.

Lemma find_operation operation o :
  List.find (fun o => str_eqb operation o.1) operations = Some o ->
  o ∈ operations /\ operation = o.1 /\
  Forall (fun x => Ascii.eqb x "/" = false) operation.
Proof.
  unfold operations. cbn [List.find fst snd].
  destruct (str_eqb operation (lit "add")) eqn:E1;
    [|destruct (str_eqb operation (lit "subtract")) eqn:E2;
      [|destruct (str_eqb operation (lit "multiply")) eqn:E3; [|discriminate]]];
    intros [= <-];
    match goal with H : str_eqb _ _ = true |- _ => apply str_eqb_eq in H; subst end;
    (split_and!; [|reflexivity | repeat constructor]).
  - left.
  - right. left.
  - right. right. left.
Qed.

Lemma find_operation_named name op :
  (name, op) ∈ operations ->
  List.find (fun o => str_eqb name o.1) operations = Some (name, op).
Proof.
  unfold operations. intros H.
  repeat (apply elem_of_cons in H as [[= -> ->]|H]; [reflexivity|]).
  apply elem_of_nil in H as [].
Qed.

Lemma operations_result name op A B R :
  (name, op) ∈ operations -> op A B = Ok R ->
  add A B = Ok R \/ subtract A B = Ok R \/ multiply A B = Ok R.
Proof.
  unfold operations. intros H.
  repeat (apply elem_of_cons in H as [[= -> ->]|H]; [tauto|]).
  apply elem_of_nil in H as [].
Qed.


(** A run either comes to the statements that save a result, or prints
    one line after the prompts. *)
Lemma prompt_user_cases sys answer1 answer2 answer3 :
  (exists R, computes sys answer1 answer2 answer3 R /\
     prompt_user sys answer1 answer2 answer3 =
       prompts ++ save_result sys (result_path answer1 answer2 answer3) R) \/
  ((forall R, ~ computes sys answer1 answer2 answer3 R) /\
   exists line, prompt_user sys answer1 answer2 answer3 = prompts ++ [Print line]).
Proof.
  unfold prompt_user.
  destruct (from_path sys (strip answer2)) as [A|t] eqn:HA.
  2:{ right. split; [|eauto]. intros R (A & B & op & HA' & _). congruence. }
  destruct (from_path sys (strip answer3)) as [B|t] eqn:HB.
  2:{ right. split; [|eauto]. intros R (A' & B & op & _ & HB' & _). congruence. }
  rewrite operation_named.
  destruct (List.find _ operations) as [o|] eqn:Hfind.
  2:{ right. split; [|eauto]. intros R (A' & B' & op & _ & _ & Hop & _).
      rewrite (find_operation_named _ _ Hop) in Hfind. discriminate. }
  destruct (find_operation _ _ Hfind) as (Hin & Hname & Hplain).
  destruct (o.2 A B) as [R|e] eqn:Hrun.
  2:{ right. split; [|eauto]. intros R (A' & B' & op & HA' & HB' & Hop & Hrun').
      rewrite (find_operation_named _ _ Hop) in Hfind. injection Hfind as <-.
      simpl in Hrun. congruence. }
  left. exists R. split.
  - exists A, B, o.2. split_and!; [exact HA | exact HB | | exact Hrun].
    rewrite Hname. destruct o. exact Hin.
  - unfold save_result, result_path, results_directory.
    change (path_join (lit "sparse_matrix") (lit "sample_results"))
      with (lit "sparse_matrix/sample_results").
    erewrite path_join_results;
      [|reflexivity | apply output_file_name_no_slash, Hplain].
    reflexivity.
Qed.


Lemma computes_unique sys answer1 answer2 answer3 R R' :
  computes sys answer1 answer2 answer3 R -> computes sys answer1 answer2 answer3 R' ->
  R = R'.
Proof.
  intros (A & B & op & HA & HB & Hop & Hrun) (A' & B' & op' & HA' & HB' & Hop' & Hrun').
  pose proof (find_operation_named _ _ Hop) as H.
  rewrite (find_operation_named _ _ Hop') in H. congruence.
Qed.

Lemma prompt_user_computes sys answer1 answer2 answer3 R :
  computes sys answer1 answer2 answer3 R ->
  prompt_user sys answer1 answer2 answer3 =
    prompts ++ save_result sys (result_path answer1 answer2 answer3) R.
Proof.
  intros HR. destruct (prompt_user_cases sys answer1 answer2 answer3)
    as [(R' & HR' & ->)|[Hnone _]].
  - rewrite (computes_unique _ _ _ _ _ _ HR HR'). reflexivity.
  - destruct (Hnone R HR).
Qed.




(** A run where nothing fails.  The operation name is taken without the
    white space around it and without regard to case.  When both files
    hold a matrix text, the operator named returns a result that
    [__str__] can format, and the system lets the program create the
    directory, open the file and write, the run calls [os.makedirs], opens
    the file named after the two file names and the operation, writes the
    text of the result to it, and prints where; the text written reads
    back as the result. *)
Theorem prompt_user_saves (sys : system) (answer1 answer2 answer3 : str)
    (R : SparseMatrix) (text : str) :
  computes sys answer1 answer2 answer3 R ->
  makedirs sys results_directory = Returned tt ->
  open_write sys (result_path answer1 answer2 answer3) = Returned tt ->
  __str__ R = Ok text ->
  write_text sys (result_path answer1 answer2 answer3) text = Returned tt ->
  prompt_user sys answer1 answer2 answer3 =
    prompts ++
    [ Makedirs results_directory;
      Open (result_path answer1 answer2 answer3);
      Write (result_path answer1 answer2 answer3) text;
      Print (lit "Result saved to " ++ result_path answer1 answer2 answer3) ] /\
  from_file text = Ok R.
Proof.
  intros HR Hmk Hopen Hstr Hwrite. split.
  - rewrite (prompt_user_computes _ _ _ _ _ HR). unfold save_result.
    rewrite Hmk, Hopen, Hstr, Hwrite. reflexivity.
  - destruct HR as (A & B & op & _ & _ & Hop & Hrun).
    eapply operator_result_reads_back; [|exact Hstr].
    eapply operations_result; eassumption.
Qed.

Lemma prompt_user_saves_witness :
  prompt_user
    (ex_system (lit "m1.txt") (text_of exA) (lit "in/m2.v1.txt") (text_of exB))
    (lit "  MultiPLY ") (lit " m1.txt") (lit "in/m2.v1.txt ") =
  prompts ++
  [ Makedirs (lit "sparse_matrix/sample_results");
    Open (lit "sparse_matrix/sample_results/m1_multiply_m2.v1_result.txt");
    Write (lit "sparse_matrix/sample_results/m1_multiply_m2.v1_result.txt")
      (lit "rows=2" ++ LF :: lit "cols=2" ++ LF :: lit "(0, 0, 3)" ++ LF
         :: lit "(0, 1, 4)" ++ [LF]);
    Print (lit "Result saved to sparse_matrix/sample_results/m1_multiply_m2.v1_result.txt") ].
Proof.
  refine (proj1 (prompt_user_saves
    (ex_system (lit "m1.txt") (text_of exA) (lit "in/m2.v1.txt") (text_of exB))
    (lit "  MultiPLY ") (lit " m1.txt") (lit "in/m2.v1.txt ")
    {| rows := 2; cols := 2; data := [(0, [(0, 3); (1, 4)])] |}
    (lit "rows=2" ++ LF :: lit "cols=2" ++ LF :: lit "(0, 0, 3)" ++ LF
       :: lit "(0, 1, 4)" ++ [LF])
    _ eq_refl eq_refl _ eq_refl)).
  - exists exA, exB, multiply. split_and!.
    + vm_compute. reflexivity.
    + vm_compute. reflexivity.
    + right. right. left.
    + vm_compute. reflexivity.
  - vm_compute. reflexivity.
Defined.



Lemma one_entry_computes v :
  within_limit v = true ->
  computes
    (ex_system (lit "a.txt") (text_of (one_entry v)) (lit "b.txt") (text_of (one_entry v)))
    (lit "add") (lit "a.txt") (lit "b.txt") (one_entry (v + v)).
Proof.
  intros Hv. exists (one_entry v), (one_entry v), add. split_and!.
  - unfold from_path.
    change (read_text _ (strip (lit "a.txt"))) with (Returned (text_of (one_entry v))).
    cbv beta iota. rewrite one_entry_reads by assumption. reflexivity.
  - unfold from_path.
    change (read_text _ (strip (lit "b.txt"))) with (Returned (text_of (one_entry v))).
    cbv beta iota. rewrite one_entry_reads by assumption. reflexivity.
  - left.
  - apply one_entry_add.
Qed.

(** A run that has a result to save and fails while saving it.  When
    [os.makedirs] raises, no file is opened; when [open] raises, nothing is
    written; when the result holds a number of more than 4300 digits,
    [str(result)] raises after the file was opened, so the file is left
    created or emptied, nothing is written to it and the message of the
    limit is printed; when the write raises, its message is printed.  In
    each case the run ends with that one printed line. *)
Theorem prompt_user_save_failures (sys : system) (answer1 answer2 answer3 : str)
    (R : SparseMatrix) :
  computes sys answer1 answer2 answer3 R ->
  (forall line,
     makedirs sys results_directory = Raised line ->
     prompt_user sys answer1 answer2 answer3 =
       prompts ++ [Makedirs results_directory; Print line]) /\
  (forall line,
     makedirs sys results_directory = Returned tt ->
     open_write sys (result_path answer1 answer2 answer3) = Raised line ->
     prompt_user sys answer1 answer2 answer3 =
       prompts ++ [Makedirs results_directory;
                   Open (result_path answer1 answer2 answer3); Print line]) /\
  (makedirs sys results_directory = Returned tt ->
   open_write sys (result_path answer1 answer2 answer3) = Returned tt ->
   printable R = false ->
   prompt_user sys answer1 answer2 answer3 =
     prompts ++ [Makedirs results_directory;
                 Open (result_path answer1 answer2 answer3);
                 Print (lit msg_limit)]) /\
  (forall text line,
     makedirs sys results_directory = Returned tt ->
     open_write sys (result_path answer1 answer2 answer3) = Returned tt ->
     __str__ R = Ok text ->
     write_text sys (result_path answer1 answer2 answer3) text = Raised line ->
     prompt_user sys answer1 answer2 answer3 =
       prompts ++ [Makedirs results_directory;
                   Open (result_path answer1 answer2 answer3);
                   Write (result_path answer1 answer2 answer3) text; Print line]).
Proof.
  intros HR. rewrite (prompt_user_computes _ _ _ _ _ HR). unfold save_result.
  split_and!.
  - intros line ->. reflexivity.
  - intros line -> ->. reflexivity.
  - intros -> -> Hp. rewrite str_cases, Hp. reflexivity.
  - intros text line -> -> -> ->. reflexivity.
Qed.

Lemma prompt_user_save_failures_witness :
  prompt_user
    (ex_system (lit "a.txt") (text_of ex_half) (lit "b.txt") (text_of ex_half))
    (lit "add") (lit "a.txt") (lit "b.txt") =
  prompts ++ [Makedirs (lit "sparse_matrix/sample_results");
              Open (lit "sparse_matrix/sample_results/a_add_b_result.txt");
              Print (lit msg_limit)].
Proof.
  apply (proj1 (proj2 (proj2 (prompt_user_save_failures
    (ex_system (lit "a.txt") (text_of ex_half) (lit "b.txt") (text_of ex_half))
    (lit "add") (lit "a.txt") (lit "b.txt") (one_entry (half_limit + half_limit))
    (one_entry_computes half_limit within_limit_half)))) eq_refl eq_refl).
  rewrite printable_one_entry, half_limit_double. apply within_limit_power.
Defined.
